(** * SelfQueryLLM: a shallow embedding of the self-query retrieval engine

    Source: impl/openwebui-pipelines/app/prototypes/selfquery_llm/selfquery_llm.py

    Conventions of the embedding.
    - A Python [str] is a [string]; every character is a code point below
      256 (the Latin-1 range), and the character classes of [str] and [re]
      are given for that range.
    - A Python [int] is a [Z]; a [float] is an exact rational [Q]: the
      rounding of a sum, a product or a difference is not modelled, and
      no statement below depends on it.
    - A Python [set] of strings is a [gset string].
    - A raised exception is the [inl] of a sum; the mutable engine fields
      and the outside world (endpoint, planner, clock) are threaded as
      explicit state.
    - Logging and progress notification return nothing, swallow their own
      failures and touch no engine field; they are left out. *)

From Stdlib Require Import ZArith QArith Qminmax Ascii String DecimalString.
From stdpp Require Import base option list gmap sets strings.


(** ** Characters and the [str] methods used by the engine *)

Module Py.

Definition ord (c : ascii) : N := N_of_ascii c.
Definition chr (n : N) : ascii := ascii_of_N n.

Definition between (lo hi n : N) : bool := ((lo <=? n) && (n <=? hi))%N.

(** [str.isspace] of one character; also [\s] of [re]. *)
Definition isspace (c : ascii) : bool :=
  let n := ord c in
  between 9 13 n || between 28 32 n || (n =? 133)%N || (n =? 160)%N.

(** [\w] of [re]: [str.isalnum] or the underscore. *)
Definition isword (c : ascii) : bool :=
  let n := ord c in
  between 48 57 n || between 65 90 n || (n =? 95)%N || between 97 122 n
  || (n =? 170)%N || between 178 179 n || (n =? 181)%N || between 185 186 n
  || between 188 190 n || between 192 214 n || between 216 246 n
  || between 248 255 n.

(** The class [[a-zA-Z0-9_]]. *)
Definition istoken (c : ascii) : bool :=
  let n := ord c in
  between 97 122 n || between 65 90 n || between 48 57 n || (n =? 95)%N.

(** The class [[a-zA-Z0-9_\-]]. *)
Definition isusertoken (c : ascii) : bool :=
  istoken c || (ord c =? 45)%N.

Definition lower_char (c : ascii) : ascii :=
  let n := ord c in
  if between 65 90 n || between 192 214 n || between 216 222 n
  then chr (n + 32) else c.

(** Upper case; the three letters whose capital lies above 255 (181, 223,
    255) are kept: the engine upper-cases matched ASCII keywords only. *)
Definition upper_char (c : ascii) : ascii :=
  let n := ord c in
  if between 97 122 n || between 224 246 n || between 248 254 n
  then chr (n - 32) else c.

Definition chars (s : string) : list ascii := list_ascii_of_string s.
Definition text (l : list ascii) : string := string_of_list_ascii l.

Definition lower (s : string) : string := text (lower_char <$> chars s).
Definition upper (s : string) : string := text (upper_char <$> chars s).

Definition len (s : string) : Z := Z.of_nat (String.length s).

(** [xs[:n]] for a list. *)
Definition slice_to {A} (n : Z) (xs : list A) : list A :=
  if (n <? 0)%Z then take (length xs - Z.to_nat (- n)) xs else take (Z.to_nat n) xs.

(** [s[:n]] for a string. *)
Definition str_slice_to (n : Z) (s : string) : string := text (slice_to n (chars s)).

(** [str(n)] for an integer. *)
Definition str_of_int (n : Z) : string := NilZero.string_of_int (Z.to_int n).

(** [sep.join(parts)]. *)
Definition join (sep : string) (parts : list string) : string := String.concat sep parts.

Fixpoint lstrip_chars (l : list ascii) : list ascii :=
  match l with
  | c :: l' => if isspace c then lstrip_chars l' else l
  | [] => []
  end.

Definition strip_chars (l : list ascii) : list ascii :=
  reverse (lstrip_chars (reverse (lstrip_chars l))).

(** [s.strip()]. *)
Definition strip (s : string) : string := text (strip_chars (chars s)).

(** [s.split()]: the maximal runs of non-space characters. *)
Fixpoint split_chars (cur : list ascii) (l : list ascii) : list (list ascii) :=
  match l with
  | [] => if cur is [] then [] else [reverse cur]
  | c :: l' =>
      if isspace c
      then (if cur is [] then split_chars [] l' else reverse cur :: split_chars [] l')
      else split_chars (c :: cur) l'
  end.

Definition split (s : string) : list string := text <$> split_chars [] (chars s).

(** [s.startswith(p)]. *)
Definition startswith (p s : string) : bool := String.prefix p s.

Fixpoint contains_chars (p l : list ascii) : bool :=
  bool_decide (p `prefix_of` l) ||
  match l with
  | [] => false
  | _ :: l' => contains_chars p l'
  end.

(** [p in s]. *)
Definition contains (p s : string) : bool := contains_chars (chars p) (chars s).

(** [s.replace(old, new)] for a non-empty [old]: the occurrences are
    replaced from left to right without overlap. [skip] counts the
    characters of an occurrence still to be dropped. *)
Fixpoint replace_chars (old new : list ascii) (skip : nat) (l : list ascii) : list ascii :=
  match l with
  | [] => []
  | c :: l' =>
      match skip with
      | S k => replace_chars old new k l'
      | O =>
          if bool_decide (old `prefix_of` l)
          then new ++ replace_chars old new (length old - 1) l'
          else c :: replace_chars old new 0 l'
      end
  end.

Definition replace (old new s : string) : string :=
  text (replace_chars (chars old) (chars new) 0 (chars s)).

(** The line boundaries of [str.splitlines]. *)
Definition islinebreak (c : ascii) : bool :=
  let n := ord c in between 10 13 n || between 28 30 n || (n =? 133)%N.

(** [s.splitlines()]; a carriage return followed by a line feed is one
    boundary, and no empty last line is produced. *)
Fixpoint splitlines_chars (cur : list ascii) (l : list ascii) : list (list ascii) :=
  match l with
  | [] => if cur is [] then [] else [reverse cur]
  | c :: l' =>
      if islinebreak c then
        match l' with
        | c' :: l'' =>
            if ((ord c =? 13)%N && (ord c' =? 10)%N)%bool
            then reverse cur :: splitlines_chars [] l''
            else reverse cur :: splitlines_chars [] l'
        | [] => [reverse cur]
        end
      else splitlines_chars (c :: cur) l'
  end.

Definition splitlines (s : string) : list string := text <$> splitlines_chars [] (chars s).

(** [sorted(xs)] for strings: a stable insertion sort by code points. *)
Fixpoint insert_sorted (x : string) (l : list string) : list string :=
  match l with
  | [] => [x]
  | y :: l' => if String.leb x y then x :: l else y :: insert_sorted x l'
  end.

Definition sorted (l : list string) : list string := foldr insert_sorted [] l.

End Py.

(** ** The part of [re] the engine uses

    A backtracking matcher that lists the ways a pattern can match at a
    position, in the order in which [re] tries them; the first one is the
    match [re] reports. A repetition is always of a character class, as
    in every pattern of the source. *)

Module Re.
Import Py.

Inductive regex : Type :=
| Eps
| Lit (c : ascii)
| Class (p : ascii -> bool)
| Rep (greedy : bool) (least : nat) (p : ascii -> bool)
| Cat (r1 r2 : regex)
| Alt (r1 r2 : regex)
| Group (r : regex)
| Boundary
| Bos
| Eos
| Dollar
| Ahead (r : regex).

(** The characters of [s] one after the other. *)
Definition Word (s : string) : regex := foldr (fun c r => Cat (Lit c) r) Eps (chars s).

(** [\s*], [\s+], [.*?] under DOTALL, and the optional pattern [r?]. *)
Definition Spaces : regex := Rep true 0 isspace.
Definition Spaces1 : regex := Rep true 1 isspace.
Definition LazyAny : regex := Rep false 0 (fun _ => true).
Definition Opt (r : regex) : regex := Alt r Eps.

(** A position in the subject: the character before it, the characters
    from it on, and what group 1 captured so far. *)
Record mstate : Type := MState {
  prev : option ascii;
  rest : list ascii;
  group1 : option (list ascii)
}.

Definition same_char (ignorecase : bool) (c x : ascii) : bool :=
  if ignorecase then bool_decide (lower_char c = lower_char x) else bool_decide (c = x).

Definition word_before (st : mstate) : bool := from_option isword false (prev st).
Definition word_after (st : mstate) : bool := from_option isword false (head (rest st)).

(** Every run of characters of the class [p] from a position, the
    shortest first. *)
Fixpoint spans (p : ascii -> bool) (g : option (list ascii)) (pv : option ascii)
    (l : list ascii) : list mstate :=
  MState pv l g ::
  match l with
  | c :: l' => if p c then spans p g (Some c) l' else []
  | [] => []
  end.

(** The text between two positions of one subject. *)
Definition consumed (st st' : mstate) : list ascii :=
  take (length (rest st) - length (rest st')) (rest st).

Fixpoint run (ignorecase : bool) (r : regex) (st : mstate) : list mstate :=
  match r with
  | Eps => [st]
  | Lit c =>
      match rest st with
      | x :: l => if same_char ignorecase c x then [MState (Some x) l (group1 st)] else []
      | [] => []
      end
  | Class p =>
      match rest st with
      | x :: l => if p x then [MState (Some x) l (group1 st)] else []
      | [] => []
      end
  | Rep greedy least p =>
      let runs := drop least (spans p (group1 st) (prev st) (rest st)) in
      if greedy then reverse runs else runs
  | Cat r1 r2 => st' ← run ignorecase r1 st; run ignorecase r2 st'
  | Alt r1 r2 => run ignorecase r1 st ++ run ignorecase r2 st
  | Group r1 =>
      (fun st' => MState (prev st') (rest st') (Some (consumed st st'))) <$> run ignorecase r1 st
  | Boundary => if xorb (word_before st) (word_after st) then [st] else []
  | Bos => if prev st is None then [st] else []
  | Eos => if rest st is [] then [st] else []
  | Dollar =>
      match rest st with
      | [] => [st]
      | [c] => if (ord c =? 10)%N then [st] else []
      | _ => []
      end
  | Ahead r1 => if run ignorecase r1 st is [] then [] else [st]
  end.

(** A compiled pattern: the expression and its IGNORECASE flag. *)
Record pattern : Type := Pattern { expr : regex; ignorecase : bool }.

(** The first match at a position, if any. *)
Definition match_at (p : pattern) (pv : option ascii) (l : list ascii) : option mstate :=
  head (run (ignorecase p) (expr p) (MState pv l None)).

(** [p.match(s)]. *)
Definition match_ (p : pattern) (s : string) : option mstate := match_at p None (chars s).

(** [m.group(1)] of a match in which group 1 took part. *)
Definition group (m : mstate) : string := text (default [] (group1 m)).

(** [p.search(s)]: the match at the leftmost position that has one. *)
Fixpoint search_from (p : pattern) (pv : option ascii) (l : list ascii) : option mstate :=
  match match_at p pv l with
  | Some m => Some m
  | None =>
      match l with
      | [] => None
      | c :: l' => search_from p (Some c) l'
      end
  end.

Definition search (p : pattern) (s : string) : option mstate := search_from p None (chars s).

(** [p.findall(s)] and [p.sub(repl, s)] for a pattern that matches no
    empty text: the matches from left to right, without overlap. [skip]
    counts the characters of the last match still to be passed. The
    reported text is group 1 when the pattern has a group, the whole
    match otherwise. *)
Definition reported (l : list ascii) (m : mstate) : list ascii :=
  match group1 m with
  | Some g => g
  | None => take (length l - length (rest m)) l
  end.

Fixpoint findall_from (p : pattern) (skip : nat) (pv : option ascii) (l : list ascii)
    : list (list ascii) :=
  match skip with
  | S k =>
      match l with
      | [] => []
      | c :: l' => findall_from p k (Some c) l'
      end
  | O =>
      match match_at p pv l with
      | Some m =>
          reported l m ::
          match l with
          | [] => []
          | c :: l' => findall_from p (length l - length (rest m) - 1) (Some c) l'
          end
      | None =>
          match l with
          | [] => []
          | c :: l' => findall_from p 0 (Some c) l'
          end
      end
  end.

Definition findall (p : pattern) (s : string) : list string :=
  text <$> findall_from p 0 None (chars s).

Fixpoint sub_from (p : pattern) (repl : list ascii) (skip : nat) (pv : option ascii)
    (l : list ascii) : list ascii :=
  match skip with
  | S k =>
      match l with
      | [] => []
      | c :: l' => sub_from p repl k (Some c) l'
      end
  | O =>
      match match_at p pv l with
      | Some m =>
          repl ++
          match l with
          | [] => []
          | c :: l' =>
              match length l - length (rest m) with
              | O => c :: sub_from p repl 0 (Some c) l'
              | S k => sub_from p repl k (Some c) l'
              end
          end
      | None =>
          match l with
          | [] => []
          | c :: l' => c :: sub_from p repl 0 (Some c) l'
          end
      end
  end.

Definition sub (p : pattern) (repl s : string) : string :=
  text (sub_from p (chars repl) 0 None (chars s)).

End Re.

(** ** Python values, exceptions and JSON *)

#[warnings="-register-all"]
Inductive pyval : Type :=
| PNone
| PBool (b : bool)
| PInt (n : Z)
| PFloat (x : Q)
| PStr (s : string)
| PList (l : list pyval)
| PDict (kv : list (string * pyval)).

(** An exception: its class name and [str(error)]. *)
Record exn : Type := Exn { exn_class : string; exn_str : string }.

Definition result (A : Type) : Type := exn + A.

Definition ebind {A B} (m : result A) (k : A -> result B) : result B :=
  match m with
  | inl e => inl e
  | inr a => k a
  end.

Notation "'do' x <- m ; k" := (ebind m (fun x => k))
  (at level 10, x name, m at level 100, k at level 200,
   format "'[v' 'do'  x  <-  m ; '/' k ']'").

Module Dyn.
Import Py.

Definition type_name (v : pyval) : string :=
  match v with
  | PNone => "NoneType"
  | PBool _ => "bool"
  | PInt _ => "int"
  | PFloat _ => "float"
  | PStr _ => "str"
  | PList _ => "list"
  | PDict _ => "dict"
  end.

Definition no_attribute (v : pyval) (attr : string) : exn :=
  Exn "AttributeError" ("'" +:+ type_name v +:+ "' object has no attribute '" +:+ attr +:+ "'").

Definition not_subscriptable (v : pyval) : exn :=
  Exn "TypeError" ("'" +:+ type_name v +:+ "' object is not subscriptable").

(** Truth value of an object, as [if v] and [not v] take it. *)
Definition truthy (v : pyval) : bool :=
  match v with
  | PNone => false
  | PBool b => b
  | PInt n => negb (n =? 0)%Z
  | PFloat x => negb (Qeq_bool x 0)
  | PStr s => negb (String.eqb s "")
  | PList l => if l is [] then false else true
  | PDict kv => if kv is [] then false else true
  end.

(** Lookup of a key in the items of a dict. *)
Fixpoint assoc (k : string) (kv : list (string * pyval)) : option pyval :=
  match kv with
  | [] => None
  | (k', v) :: kv' => if String.eqb k k' then Some v else assoc k kv'
  end.

(** [d[k] = v]: in place when the key is there, at the end otherwise. *)
Fixpoint setitem (k : string) (v : pyval) (kv : list (string * pyval)) : list (string * pyval) :=
  match kv with
  | [] => [(k, v)]
  | (k', v') :: kv' => if String.eqb k k' then (k, v) :: kv' else (k', v') :: setitem k v kv'
  end.

(** [v.get(k, d)]. *)
Definition get (v : pyval) (k : string) (d : pyval) : result pyval :=
  match v with
  | PDict kv => inr (default d (assoc k kv))
  | _ => inl (no_attribute v "get")
  end.

(** [k in v] for a dict [v]. *)
Definition has_key (k : string) (v : pyval) : bool :=
  match v with
  | PDict kv => bool_decide (is_Some (assoc k kv))
  | _ => false
  end.

(** [v.items()]. *)
Definition items (v : pyval) : result (list (string * pyval)) :=
  match v with
  | PDict kv => inr kv
  | _ => inl (no_attribute v "items")
  end.

(** The elements visited by [for x in v[:n]]; a dict takes the slice
    for a key, which cannot be hashed. *)
Definition iter_slice_to (n : Z) (v : pyval) : result (list pyval) :=
  match v with
  | PList l => inr (slice_to n l)
  | PStr s => inr ((fun c => PStr (String c "")) <$> slice_to n (chars s))
  | PDict _ => inl (Exn "TypeError" "unhashable type: 'slice'")
  | _ => inl (not_subscriptable v)
  end.

(** [v.lower()]. *)
Definition lower (v : pyval) : result string :=
  match v with
  | PStr s => inr (Py.lower s)
  | _ => inl (no_attribute v "lower")
  end.

End Dyn.

Module Json.
Import Py.

Definition hex_digit (n : N) : ascii :=
  if (n <? 10)%N then chr (48 + n) else chr (87 + n).

(** One character of a JSON string under [ensure_ascii=False]. *)
Definition escape_char (c : ascii) : list ascii :=
  let n := ord c in
  if (n =? 34)%N then [chr 92; chr 34]
  else if (n =? 92)%N then chars "\\"
  else if (n =? 10)%N then chars "\n"
  else if (n =? 13)%N then chars "\r"
  else if (n =? 9)%N then chars "\t"
  else if (n =? 8)%N then chars "\b"
  else if (n =? 12)%N then chars "\f"
  else if (n <? 32)%N then chars "\u00" ++ [hex_digit (n / 16); hex_digit (n mod 16)]
  else [c].

Definition quote (s : string) : string :=
  text ([chr 34] ++ (chars s ≫= escape_char) ++ [chr 34]).

Section Dumps.
(** [float.__repr__], which JSON uses for a float. *)
Variable float_repr : Q -> string.

(** [json.dumps(v, ensure_ascii=False)]. *)
Fixpoint dumps (v : pyval) : string :=
  match v with
  | PNone => "null"
  | PBool true => "true"
  | PBool false => "false"
  | PInt n => str_of_int n
  | PFloat x => float_repr x
  | PStr s => quote s
  | PList l => "[" +:+ join ", " (map dumps l) +:+ "]"
  | PDict kv => "{" +:+ join ", " (map (fun '(k, x) => quote k +:+ ": " +:+ dumps x) kv) +:+ "}"
  end.
End Dumps.

End Json.

(** ** The engine: data *)

Record QueryEvidence : Type := {
  query : string;
  query_type : string;
  preview : string;
  score : Q;
  error : option string
}.

(** The fields of a [SelfQueryLLM] object. The two schema caches are the
    only fields written after construction. *)
Record SelfQueryLLM : Type := {
  endpoint : string;
  top_k : Z;
  query_candidates : Z;
  timeout_sec : Z;
  max_rows : Z;
  max_triples : Z;
  planner_timeout_sec : Z;
  planner_max_tokens : Z;
  schema_graph_uri : string;
  include_full_schema_ttl : bool;
  schema_ttl_max_chars : Z;
  allow_describe : bool;
  enable_lexical_search : bool;
  lexical_match_literals : bool;
  lexical_match_labels : bool;
  lexical_match_iri_local_names : bool;
  lexical_match_predicates : bool;
  lexical_max_tokens : Z;
  lexical_max_candidates : Z;
  max_iterations : Z;
  min_iterations_before_early_stop : Z;
  min_score_improvement : Q;
  global_time_budget_sec : Z;
  max_query_chars : Z;
  _schema_metadata_cache : option string;
  _schema_ttl_cache : option string;
  _endpoint_candidates_cache : list string
}.

Definition set_schema_metadata_cache (self : SelfQueryLLM) (v : option string) : SelfQueryLLM :=
  {| endpoint := endpoint self; top_k := top_k self;
     query_candidates := query_candidates self; timeout_sec := timeout_sec self;
     max_rows := max_rows self; max_triples := max_triples self;
     planner_timeout_sec := planner_timeout_sec self;
     planner_max_tokens := planner_max_tokens self;
     schema_graph_uri := schema_graph_uri self;
     include_full_schema_ttl := include_full_schema_ttl self;
     schema_ttl_max_chars := schema_ttl_max_chars self;
     allow_describe := allow_describe self;
     enable_lexical_search := enable_lexical_search self;
     lexical_match_literals := lexical_match_literals self;
     lexical_match_labels := lexical_match_labels self;
     lexical_match_iri_local_names := lexical_match_iri_local_names self;
     lexical_match_predicates := lexical_match_predicates self;
     lexical_max_tokens := lexical_max_tokens self;
     lexical_max_candidates := lexical_max_candidates self;
     max_iterations := max_iterations self;
     min_iterations_before_early_stop := min_iterations_before_early_stop self;
     min_score_improvement := min_score_improvement self;
     global_time_budget_sec := global_time_budget_sec self;
     max_query_chars := max_query_chars self;
     _schema_metadata_cache := v;
     _schema_ttl_cache := _schema_ttl_cache self;
     _endpoint_candidates_cache := _endpoint_candidates_cache self |}.

Definition set_schema_ttl_cache (self : SelfQueryLLM) (v : option string) : SelfQueryLLM :=
  {| endpoint := endpoint self; top_k := top_k self;
     query_candidates := query_candidates self; timeout_sec := timeout_sec self;
     max_rows := max_rows self; max_triples := max_triples self;
     planner_timeout_sec := planner_timeout_sec self;
     planner_max_tokens := planner_max_tokens self;
     schema_graph_uri := schema_graph_uri self;
     include_full_schema_ttl := include_full_schema_ttl self;
     schema_ttl_max_chars := schema_ttl_max_chars self;
     allow_describe := allow_describe self;
     enable_lexical_search := enable_lexical_search self;
     lexical_match_literals := lexical_match_literals self;
     lexical_match_labels := lexical_match_labels self;
     lexical_match_iri_local_names := lexical_match_iri_local_names self;
     lexical_match_predicates := lexical_match_predicates self;
     lexical_max_tokens := lexical_max_tokens self;
     lexical_max_candidates := lexical_max_candidates self;
     max_iterations := max_iterations self;
     min_iterations_before_early_stop := min_iterations_before_early_stop self;
     min_score_improvement := min_score_improvement self;
     global_time_budget_sec := global_time_budget_sec self;
     max_query_chars := max_query_chars self;
     _schema_metadata_cache := _schema_metadata_cache self;
     _schema_ttl_cache := v;
     _endpoint_candidates_cache := _endpoint_candidates_cache self |}.

(** Python's [min(a, b)] and [max(a, b)] on floats: the first argument
    unless the second is strictly smaller (larger). *)
Definition fmin (a b : Q) : Q := if Qlt_le_dec b a then b else a.
Definition fmax (a b : Q) : Q := if Qlt_le_dec a b then b else a.

(** ** The patterns of the module *)

Import Py Re.

Fixpoint Alts (r : regex) (rs : list regex) : regex :=
  match rs with
  | [] => r
  | r' :: rs' => Alt r (Alts r' rs')
  end.

(** [^\s*(SELECT|ASK|CONSTRUCT|DESCRIBE)\b], IGNORECASE. *)
Definition QUERY_TYPE_RE : pattern :=
  Pattern
    (Cat Bos (Cat Spaces
      (Cat (Group (Alts (Word "SELECT") [Word "ASK"; Word "CONSTRUCT"; Word "DESCRIBE"]))
           Boundary)))
    true.

(** [VALUES\s*\{\s*<http]. *)
Definition values_http : regex :=
  Cat (Word "VALUES") (Cat Spaces (Cat (Word "{") (Cat Spaces (Word "<http")))).

(** [\b(INSERT|DELETE|DROP|CLEAR|CREATE|LOAD|COPY|MOVE|ADD|SERVICE|WITH|USING|VALUES\s*\{\s*<http)\b],
    IGNORECASE. *)
Definition FORBIDDEN_QUERY_RE : pattern :=
  Pattern
    (Cat Boundary
      (Cat (Group (Alts (Word "INSERT")
                     [Word "DELETE"; Word "DROP"; Word "CLEAR"; Word "CREATE"; Word "LOAD";
                      Word "COPY"; Word "MOVE"; Word "ADD"; Word "SERVICE"; Word "WITH";
                      Word "USING"; values_http]))
           Boundary))
    true.

(** [[a-zA-Z0-9_]+] and [[a-zA-Z0-9_\-]{2,}]. *)
Definition TEXT_TOKEN_RE : pattern := Pattern (Rep true 1 istoken) false.
Definition USER_QUERY_TOKEN_RE : pattern := Pattern (Rep true 2 isusertoken) false.

Definition nl : string := String (chr 10) EmptyString.

(** ** The engine: methods that touch neither the caches nor the world *)

Definition _build_endpoint_candidates (endpoint : string) : list string :=
  let candidates :=
    [endpoint] ++
    (if contains "host.docker.internal" endpoint
     then [replace "host.docker.internal" "172.17.0.1" endpoint] else []) in
  (fix unique (cs : list string) (seen : gset string) : list string :=
     match cs with
     | [] => []
     | ep :: cs' =>
         if decide (ep ∈ seen) then unique cs' seen else ep :: unique cs' ({[ep]} ∪ seen)
     end) candidates ∅.

Definition __init__
    (endpoint : string) (top_k query_candidates timeout_sec max_rows max_triples
      planner_timeout_sec planner_max_tokens : Z)
    (schema_graph_uri : string) (include_full_schema_ttl : bool) (schema_ttl_max_chars : Z)
    (allow_describe enable_lexical_search lexical_match_literals lexical_match_labels
      lexical_match_iri_local_names lexical_match_predicates : bool)
    (lexical_max_tokens lexical_max_candidates max_iterations
      min_iterations_before_early_stop : Z)
    (min_score_improvement : Q) (global_time_budget_sec max_query_chars : Z) : SelfQueryLLM :=
  {| endpoint := endpoint; top_k := top_k; query_candidates := query_candidates;
     timeout_sec := timeout_sec; max_rows := max_rows; max_triples := max_triples;
     planner_timeout_sec := planner_timeout_sec; planner_max_tokens := planner_max_tokens;
     schema_graph_uri := schema_graph_uri;
     include_full_schema_ttl := include_full_schema_ttl;
     schema_ttl_max_chars := schema_ttl_max_chars;
     allow_describe := allow_describe;
     enable_lexical_search := enable_lexical_search;
     lexical_match_literals := lexical_match_literals;
     lexical_match_labels := lexical_match_labels;
     lexical_match_iri_local_names := lexical_match_iri_local_names;
     lexical_match_predicates := lexical_match_predicates;
     lexical_max_tokens := Z.max 1 lexical_max_tokens;
     lexical_max_candidates := Z.max 1 lexical_max_candidates;
     max_iterations := Z.max 1 max_iterations;
     min_iterations_before_early_stop :=
       Z.max 1 (Z.min min_iterations_before_early_stop (Z.max 1 max_iterations));
     min_score_improvement := fmax 0 min_score_improvement;
     global_time_budget_sec := Z.max 1 global_time_budget_sec;
     max_query_chars := Z.max 256 max_query_chars;
     _schema_metadata_cache := None;
     _schema_ttl_cache := None;
     _endpoint_candidates_cache := _build_endpoint_candidates endpoint |}.

Definition _endpoint_candidates (self : SelfQueryLLM) : list string :=
  _endpoint_candidates_cache self.

Definition _query_type (query : string) : string :=
  match match_ QUERY_TYPE_RE query with
  | Some m => upper (group m)
  | None => "UNKNOWN"
  end.

Definition _validate_query (self : SelfQueryLLM) (query : string) (query_type : option string)
    : bool * option string :=
  if (len query >? max_query_chars self)%Z then
    (false, Some ("Query exceeds max_query_chars (" +:+ str_of_int (max_query_chars self) +:+ ")"))
  else
    let query_type :=
      match query_type with
      | Some t => if String.eqb t EmptyString then _query_type query else t
      | None => _query_type query
      end in
    let allowed_types : gset string := {[ "SELECT"; "ASK"; "CONSTRUCT" ]} in
    let allowed_types :=
      if allow_describe self then allowed_types ∪ {[ "DESCRIBE" ]} else allowed_types in
    if negb (bool_decide (query_type ∈ allowed_types)) then
      (false, Some ("Only " +:+ join ", " (sorted (elements allowed_types)) +:+ " are allowed"))
    else if bool_decide (is_Some (search FORBIDDEN_QUERY_RE query)) then
      (false, Some "Query contains forbidden operation")
    else if bool_decide (query_type ∈ ({[ "SELECT"; "CONSTRUCT" ]} : gset string))
            && negb (contains "limit" (lower query)) then
      (false, Some "Row/graph returning query must include LIMIT")
    else (true, None).

Definition _escape_literal (raw : string) : string :=
  replace "'" "\'" (replace "\" "\\" raw).

Definition _fallback_query (self : SelfQueryLLM) (user_query : string) : string :=
  let escaped := _escape_literal user_query in
  "SELECT ?s ?p ?o WHERE { " +:+
  "?s ?p ?o . " +:+
  "FILTER(CONTAINS(LCASE(STR(?s)), LCASE('" +:+ escaped +:+
    "')) || CONTAINS(LCASE(STR(?o)), LCASE('" +:+ escaped +:+ "'))) " +:+
  "} LIMIT " +:+ str_of_int (max_rows self).

Definition _normalize_query (query : string) : string :=
  lower (strip (join " " (split query))).

Definition _tokenize_user_query (self : SelfQueryLLM) (user_query : string) : list string :=
  (fix loop (found : list string) (seen : gset string) (tokens : list string) : list string :=
     match found with
     | [] => tokens
     | token :: found' =>
         if decide (token ∈ seen) then loop found' seen tokens
         else
           let tokens := tokens ++ [token] in
           if (Z.of_nat (length tokens) >=? lexical_max_tokens self)%Z then tokens
           else loop found' ({[token]} ∪ seen) tokens
     end) (findall USER_QUERY_TOKEN_RE (lower user_query)) ∅ [].

Definition _build_lexical_candidates (self : SelfQueryLLM) (user_query : string) : list string :=
  let tokens := _tokenize_user_query self user_query in
  if tokens is [] then [] else
  let filters :=
    tokens ≫= (fun token =>
      let escaped := _escape_literal token in
      (if lexical_match_literals self
       then ["CONTAINS(LCASE(STR(?o)), LCASE('" +:+ escaped +:+ "'))"] else []) ++
      (if lexical_match_labels self
       then ["CONTAINS(LCASE(STR(?label)), LCASE('" +:+ escaped +:+ "'))"] else []) ++
      (if lexical_match_iri_local_names self
       then ["CONTAINS(LCASE(REPLACE(STR(?s), '^.*[#/]', '')), LCASE('" +:+ escaped +:+ "'))";
             "CONTAINS(LCASE(REPLACE(STR(?o), '^.*[#/]', '')), LCASE('" +:+ escaped +:+ "'))"]
       else []) ++
      (if lexical_match_predicates self
       then ["CONTAINS(LCASE(REPLACE(STR(?p), '^.*[#/]', '')), LCASE('" +:+ escaped +:+ "'))"]
       else [])) in
  if filters is [] then [] else
  let where_ := join " || " filters in
  let queries :=
    [ "SELECT ?s ?p ?o ?label WHERE { " +:+
      "?s ?p ?o . " +:+
      "OPTIONAL { ?s <http://www.w3.org/2000/01/rdf-schema#label> ?label } " +:+
      "OPTIONAL { ?s <http://www.w3.org/2004/02/skos/core#prefLabel> ?label } " +:+
      "FILTER(" +:+ where_ +:+ ") " +:+
      "} LIMIT " +:+ str_of_int (max_rows self);
      "SELECT ?s ?label WHERE { " +:+
      "?s a ?type . " +:+
      "OPTIONAL { ?s <http://www.w3.org/2000/01/rdf-schema#label> ?label } " +:+
      "OPTIONAL { ?s <http://www.w3.org/2004/02/skos/core#prefLabel> ?label } " +:+
      "FILTER(" +:+ where_ +:+ ") " +:+
      "} LIMIT " +:+ str_of_int (max_rows self) ] in
  slice_to (lexical_max_candidates self) queries.

(** [set(TEXT_TOKEN_RE.findall(s))]. *)
Definition token_set (s : string) : gset string := list_to_set (findall TEXT_TOKEN_RE s).

(** [min(1.0, (count / max(1, cap)) + (lexical_hits * 0.03))]. *)
Definition bounded_score (count : nat) (cap : Z) (lexical_hits : nat) : Q :=
  fmin 1 (inject_Z (Z.of_nat count) / inject_Z (Z.max 1 cap)
          + inject_Z (Z.of_nat lexical_hits) * (3 # 100)).

Definition _score_construct_payload (self : SelfQueryLLM) (turtle_payload user_query : string)
    : string * Q :=
  let query_tokens := token_set (lower user_query) in
  let lines :=
    omap (fun line =>
            let stripped := strip line in
            if negb (String.eqb stripped EmptyString) && negb (startswith "@prefix" stripped)
            then Some stripped else None)
         (splitlines turtle_payload) in
  let lines := slice_to (max_triples self) lines in
  let lexical_hits :=
    foldl (fun hits line => hits + size (query_tokens ∩ token_set (lower line))) 0 lines in
  let preview := if lines is [] then "No triples returned" else join nl lines in
  let score := bounded_score (length lines) (max_triples self) lexical_hits in
  (preview, score).

Definition rank_and_pack_context (evidence : list QueryEvidence) : string :=
  let chunks :=
    imap (fun i item =>
            let block :=
              [ "Evidence #" +:+ str_of_int (Z.of_nat (S i));
                "QueryType: " +:+ query_type item;
                "Query:";
                query item ] in
            let block :=
              match error item with
              | Some e =>
                  if String.eqb e EmptyString
                  then block ++ ["Top bindings/subgraph:"; preview item]
                  else block ++ ["Error: " +:+ e]
              | None => block ++ ["Top bindings/subgraph:"; preview item]
              end in
            join nl block)
         evidence in
  join (nl +:+ nl) chunks.

Definition build_query_prompt (self : SelfQueryLLM)
    (user_query schema_metadata schema_ttl loop_context : string) (iteration : Z) : string :=
  let allowed_types :=
    "SELECT, ASK, CONSTRUCT" +:+ (if allow_describe self then ", DESCRIBE" else EmptyString) in
  let prompt :=
    "You are a SPARQL planner. Generate read-only SPARQL queries that can help answer the user question." +:+ nl +:+
    "Rules:" +:+ nl +:+
    "1. Generate up to " +:+ str_of_int (query_candidates self) +:+ " queries." +:+ nl +:+
    "2. Query types allowed: " +:+ allowed_types +:+ "." +:+ nl +:+
    "3. Keep every query bounded with LIMIT " +:+ str_of_int (max_rows self) +:+
      " for SELECT and LIMIT " +:+ str_of_int (max_triples self) +:+
      " for CONSTRUCT when applicable." +:+ nl +:+
    "4. Output STRICT JSON object with key 'queries' and value as string array. No markdown." +:+ nl +:+ nl +:+
    "Iteration: " +:+ str_of_int iteration +:+ "." +:+ nl +:+
    "Schema metadata:" +:+ nl +:+ schema_metadata +:+ nl +:+ nl +:+
    "User question:" +:+ nl +:+ user_query in
  let prompt :=
    if (iteration <? min_iterations_before_early_stop self)%Z then
      prompt +:+ nl +:+ nl +:+ "Planning guidance:" +:+ nl +:+
      "- Continue exploration for this round." +:+ nl +:+
      "- Prefer focused follow-up read-only queries that test missing entities/relations." +:+ nl +:+
      "- Only return an empty queries list if no safe useful query can be formed."
    else prompt in
  let prompt :=
    if negb (String.eqb loop_context EmptyString) then
      prompt +:+ nl +:+ nl +:+ "Previous evidence summary:" +:+ nl +:+
      loop_context +:+
      nl +:+ nl +:+ "If evidence is already strong, return an empty 'queries' list."
    else prompt in
  if negb (String.eqb schema_ttl EmptyString) then
    prompt +:+ nl +:+ nl +:+ "Schema TTL (verbatim):" +:+ nl +:+ schema_ttl
  else prompt.

(** [sorted(evidence, key=lambda item: item.score, reverse=True)]: stable,
    records of equal score keep their order. *)
Fixpoint insert_by_score (x : QueryEvidence) (l : list QueryEvidence) : list QueryEvidence :=
  match l with
  | [] => [x]
  | y :: l' => if Qlt_le_dec (score x) (score y) then y :: insert_by_score x l' else x :: l
  end.

Definition sorted_by_score (l : list QueryEvidence) : list QueryEvidence :=
  foldr insert_by_score [] l.

(** ** The world outside the engine

    What the engine calls and does not define: the built-ins [repr],
    [float] of a string and [json.loads], the SPARQL endpoint behind
    [SPARQLWrapper], the planner model behind [client.chat_json] under
    its deadline, and the clock. *)

Inductive return_format : Type := JSON | TURTLE.

Record request : Type := {
  req_endpoint : string;
  req_query : string;
  req_format : return_format;
  req_timeout : Z
}.

Inductive planner_outcome : Type :=
| PlannerTimeout
| PlannerRaised (e : exn)
| PlannerReturned (content : string).

Record Host : Type := {
  World : Type;
  repr : pyval -> string;
  float_of_str : string -> result Q;
  json_loads : string -> result pyval;
  sparql : request -> World -> result pyval * World;
  chat_json : string -> string -> Z -> Z -> World -> planner_outcome * World;
  monotonic : World -> Q * World
}.

Definition CLASSES_BODY : string := "
            SELECT ?class (COUNT(?instance) AS ?instanceCount)
            WHERE {
                ?class a owl:Class .
                OPTIONAL { ?instance a ?class }
            }
            GROUP BY ?class
            ORDER BY DESC(?instanceCount)
            LIMIT 25
            ".

Definition CLASSES_PREFIX : string := "
            PREFIX owl: <http://www.w3.org/2002/07/owl#>
            ".

Definition PROPERTIES_BODY : string := "
            SELECT ?prop ?domain ?range
            WHERE {
                ?prop a rdf:Property .
                OPTIONAL { ?prop rdfs:domain ?domain }
                OPTIONAL { ?prop rdfs:range ?range }
            }
            LIMIT 30
            ".

Definition PROPERTIES_PREFIX : string := "
            PREFIX rdf: <http://www.w3.org/1999/02/22-rdf-syntax-ns#>
            PREFIX rdfs: <http://www.w3.org/2000/01/rdf-schema#>
            ".

(** The fenced-code markers and the query-snippet pattern of
    [_extract_queries]:
    [^```(?:json)?], [```$] and
    [(?is)((?:SELECT|ASK|CONSTRUCT)\s+.*?)(?=(?:\n\s*(?:SELECT|ASK|CONSTRUCT)\s)|\Z)]. *)
Definition FENCE_OPEN_RE : pattern :=
  Pattern (Cat Bos (Cat (Word "```") (Opt (Word "json")))) false.
Definition FENCE_CLOSE_RE : pattern := Pattern (Cat (Word "```") Dollar) false.
Definition read_keyword : regex := Alts (Word "SELECT") [Word "ASK"; Word "CONSTRUCT"].
Definition SNIPPET_RE : pattern :=
  Pattern
    (Cat (Group (Cat read_keyword (Cat Spaces1 LazyAny)))
         (Ahead (Alt (Cat (Lit (chr 10)) (Cat Spaces (Cat read_keyword (Class isspace)))) Eos)))
    true.

(** The loop of a monadic fold over a list, for code that may raise. *)
Fixpoint efold {A B} (f : B -> A -> result B) (l : list A) (b : B) : result B :=
  match l with
  | [] => inr b
  | a :: l' => do b' <- f b a; efold f l' b'
  end.

Section Engine.
Variable H : Host.

(** [str(v)] and [float(v)]. *)
Definition str (v : pyval) : string :=
  match v with
  | PStr s => s
  | PNone => "None"
  | PBool true => "True"
  | PBool false => "False"
  | PInt n => str_of_int n
  | _ => repr H v
  end.

Definition float (v : pyval) : result Q :=
  match v with
  | PFloat x => inr x
  | PInt n => inr (inject_Z n)
  | PBool b => inr (if b then 1 else 0)%Q
  | PStr s => float_of_str H s
  | _ => inl (Exn "TypeError"
                ("float() argument must be a string or a real number, not '"
                 +:+ Dyn.type_name v +:+ "'"))
  end.

Definition dumps (v : pyval) : string := Json.dumps (fun x => repr H (PFloat x)) v.

Definition _extract_queries (content : string) : list string :=
  let content := strip content in
  let content :=
    if startswith "```" content then
      let content := strip (sub FENCE_OPEN_RE EmptyString content) in
      strip (sub FENCE_CLOSE_RE EmptyString content)
    else content in
  let nonblank (items : list string) : list string :=
    omap (fun item =>
            let t := strip item in if String.eqb t EmptyString then None else Some t) items in
  let from_json : option (list string) :=
    match (do payload <- json_loads H content; Dyn.get payload "queries" (PList [])) with
    | inr (PList queries) => Some (nonblank (str <$> queries))
    | _ => None
    end in
  match from_json with
  | Some queries => queries
  | None => nonblank (findall SNIPPET_RE content)
  end.

Definition _score_json_payload (self : SelfQueryLLM) (payload : pyval) (user_query : string)
    : result (string * Q) :=
  let query_tokens := token_set (lower user_query) in
  do results <- Dyn.get payload "results" (PDict []);
  do bindings <- Dyn.get results "bindings" (PList []);
  if negb (Dyn.truthy bindings) && Dyn.has_key "boolean" payload then
    do boolean <- Dyn.get payload "boolean" PNone;
    let answer := str boolean in
    let score := (if Dyn.truthy boolean then 1 else 2 # 10)%Q in
    inr ("ASK result: " +:+ answer, score)
  else
    do rows <- Dyn.iter_slice_to (max_rows self) bindings;
    do scanned <-
      efold (fun '(lines, lexical_hits) row =>
               do fields <- Dyn.items row;
               do filled <-
                 efold (fun '(compact, lexical_hits) '(key, value) =>
                          do text <- Dyn.get value "value" (PStr EmptyString);
                          let compact := Dyn.setitem key text compact in
                          do lowered <- Dyn.lower text;
                          let tokenized := token_set lowered in
                          inr (compact, lexical_hits + size (query_tokens ∩ tokenized)))
                       fields ([], lexical_hits);
               let '(compact, lexical_hits) := filled in
               inr (lines ++ [dumps (PDict compact)], lexical_hits))
            rows ([], 0);
    let '(lines, lexical_hits) := scanned in
    let preview := if lines is [] then "No rows returned" else join nl lines in
    let score := bounded_score (length lines) (max_rows self) lexical_hits in
    if Dyn.has_key "_describe_score" payload then
      do describe_score <- Dyn.get payload "_describe_score" (PFloat 0);
      do describe_score <- float describe_score;
      inr (preview, fmax score describe_score)
    else inr (preview, score).

(** The world together with the requests sent to the endpoint so far;
    the record of requests is kept for the statements only. *)
Record env : Type := { world : World H; requests : list request }.

(** [run_query(sparql)] reaching the endpoint: one HTTP request. *)
Definition send (req : request) (e : env) : result pyval * env :=
  let '(reply, w) := sparql H req (world e) in
  (reply, {| world := w; requests := requests e ++ [req] |}).

Fixpoint _run_with_endpoint_retry_loop {A} (query : string) (fmt : return_format)
    (timeout : Z) (run_query : request -> env -> result A * env)
    (endpoints : list string) (errors : list exn) (e : env) : result A * env :=
  match endpoints with
  | [] =>
      match last errors with
      | Some err => (inl err, e)
      | None => (inl (Exn "RuntimeError" "No SPARQL endpoint candidates available"), e)
      end
  | endpoint :: endpoints' =>
      let req := {| req_endpoint := endpoint; req_query := query;
                    req_format := fmt; req_timeout := timeout |} in
      match run_query req e with
      | (inr v, e') => (inr v, e')
      | (inl err, e') =>
          _run_with_endpoint_retry_loop query fmt timeout run_query endpoints'
            (errors ++ [err]) e'
      end
  end.

Definition _run_with_endpoint_retry {A} (self : SelfQueryLLM) (query : string)
    (fmt : return_format) (run_query : request -> env -> result A * env) (e : env)
    : result A * env :=
  _run_with_endpoint_retry_loop query fmt (timeout_sec self) run_query
    (_endpoint_candidates self) [] e.

(** The JSON-shaped result that [_run_raw_json] makes of the Turtle text a
    DESCRIBE query returned. *)
Definition describe_payload (self : SelfQueryLLM) (turtle : string) : pyval :=
  let '(preview, score) := _score_construct_payload self turtle EmptyString in
  PDict
    [("results",
      PDict [("bindings",
              PList [PDict [("describe",
                             PDict [("type", PStr "literal"); ("value", PStr preview)])]])]);
     ("_describe_score", PFloat score)].

Definition _run_raw_json (self : SelfQueryLLM) (query : string) (e : env)
    : result pyval * env :=
  let query_type := _query_type query in
  let fmt := if String.eqb query_type "DESCRIBE" then TURTLE else JSON in
  let _runner (req : request) (e : env) : result pyval * env :=
    if String.eqb query_type "DESCRIBE" then
      match send req e with
      | (inr reply, e') => (inr (describe_payload self (str reply)), e')
      | (inl err, e') => (inl err, e')
      end
    else send req e in
  _run_with_endpoint_retry self query fmt _runner e.

Definition _run_construct (self : SelfQueryLLM) (query : string) (e : env)
    : result string * env :=
  let _runner (req : request) (e : env) : result string * env :=
    match send req e with
    | (inr reply, e') => (inr (str reply), e')
    | (inl err, e') => (inl err, e')
    end in
  _run_with_endpoint_retry self query TURTLE _runner e.

Definition _run_select (self : SelfQueryLLM) (body prefix : string) (e : env)
    : result (list pyval) * env :=
  let query := prefix +:+ nl +:+ body in
  match _run_raw_json self query e with
  | (inl err, e') => (inl err, e')
  | (inr payload, e') =>
      (do results <- Dyn.get payload "results" (PDict []);
       do bindings <- Dyn.get results "bindings" (PList []);
       do found <- Dyn.iter_slice_to (max_rows self) bindings;
       efold (fun rows binding =>
                do fields <- Dyn.items binding;
                do row <-
                  efold (fun row '(key, value) =>
                           do text <- Dyn.get value "value" (PStr EmptyString);
                           inr (Dyn.setitem key text row))
                        fields [];
                inr (rows ++ [PDict row]))
             found [],
       e')
  end.

Definition get_schema_metadata (self : SelfQueryLLM) (e : env)
    : result string * SelfQueryLLM * env :=
  match _schema_metadata_cache self with
  | Some cached => (inr cached, self, e)
  | None =>
      match _run_select self CLASSES_BODY CLASSES_PREFIX e with
      | (inl err, e1) => (inl err, self, e1)
      | (inr classes, e1) =>
          match _run_select self PROPERTIES_BODY PROPERTIES_PREFIX e1 with
          | (inl err, e2) => (inl err, self, e2)
          | (inr properties, e2) =>
              let payload :=
                PDict [("classes", PList classes); ("properties", PList properties)] in
              let self := set_schema_metadata_cache self (Some (dumps payload)) in
              (inr (default EmptyString (_schema_metadata_cache self)), self, e2)
          end
      end
  end.

Definition get_schema_ttl (self : SelfQueryLLM) (e : env)
    : result string * SelfQueryLLM * env :=
  match _schema_ttl_cache self with
  | Some cached => (inr cached, self, e)
  | None =>
      let query :=
        if String.eqb (strip (schema_graph_uri self)) EmptyString
        then "CONSTRUCT { ?s ?p ?o } WHERE { ?s ?p ?o }"
        else "CONSTRUCT { ?s ?p ?o } WHERE { " +:+
             "GRAPH <" +:+ schema_graph_uri self +:+ "> { ?s ?p ?o } " +:+
             "}" in
      match _run_construct self query e with
      | (inl err, e') => (inl err, self, e')
      | (inr ttl, e') =>
          let ttl :=
            if (schema_ttl_max_chars self >? 0)%Z && (len ttl >? schema_ttl_max_chars self)%Z
            then str_slice_to (schema_ttl_max_chars self) ttl else ttl in
          let self := set_schema_ttl_cache self (Some ttl) in
          (inr (default EmptyString (_schema_ttl_cache self)), self, e')
      end
  end.

(** The planner call under its deadline: what [pool.submit(...).result]
    gives back. *)
Definition call_planner (self : SelfQueryLLM) (model_id prompt : string) (e : env)
    : planner_outcome * env :=
  let '(outcome, w) :=
    chat_json H model_id prompt (planner_max_tokens self) (planner_timeout_sec self)
      (world e) in
  (outcome, {| world := w; requests := requests e |}).

(** What [generate_sparql_candidates] returns for an outcome of the
    planner call. *)
Definition candidates_of_outcome (self : SelfQueryLLM) (user_query : string)
    (iteration : Z) (outcome : planner_outcome) : list string :=
  match outcome with
  | PlannerTimeout =>
      if (iteration =? 1)%Z then [_fallback_query self user_query] else []
  | PlannerRaised _ =>
      if (iteration =? 1)%Z then [_fallback_query self user_query] else []
  | PlannerReturned content =>
      let parsed := _extract_queries content in
      if parsed is [] then
        if (iteration =? 1)%Z then [_fallback_query self user_query] else []
      else slice_to (query_candidates self) parsed
  end.

Definition generate_sparql_candidates (self : SelfQueryLLM)
    (model_id user_query schema_metadata schema_ttl loop_context : string)
    (iteration : Z) (e : env) : list string * env :=
  let prompt :=
    build_query_prompt self user_query schema_metadata schema_ttl loop_context iteration in
  let '(outcome, e') := call_planner self model_id prompt e in
  (candidates_of_outcome self user_query iteration outcome, e').

(** One round of the loop of [execute_sparql_batch]: the evidence
    appended for one candidate. *)
Definition execute_candidate (self : SelfQueryLLM) (user_query query : string) (e : env)
    : QueryEvidence * env :=
  let query_type := _query_type query in
  let '(safe, reason) := _validate_query self query (Some query_type) in
  if negb safe then
    ({| query := query; query_type := query_type; preview := EmptyString;
        score := 0; error := reason |}, e)
  else
    let '(outcome, e') :=
      if bool_decide (query_type ∈ ({[ "SELECT"; "ASK"; "DESCRIBE" ]} : gset string)) then
        match _run_raw_json self query e with
        | (inr payload, e') => (_score_json_payload self payload user_query, e')
        | (inl err, e') => (inl err, e')
        end
      else
        match _run_construct self query e with
        | (inr payload, e') => (inr (_score_construct_payload self payload user_query), e')
        | (inl err, e') => (inl err, e')
        end in
    match outcome with
    | inr (preview, score) =>
        ({| query := query; query_type := query_type; preview := preview;
            score := score; error := None |}, e')
    | inl err =>
        ({| query := query; query_type := query_type; preview := EmptyString;
            score := 0; error := Some (exn_str err) |}, e')
    end.

Fixpoint execute_sparql_batch_loop (self : SelfQueryLLM) (user_query : string)
    (candidates : list string) (evidence : list QueryEvidence) (e : env)
    : list QueryEvidence * env :=
  match candidates with
  | [] => (evidence, e)
  | query :: candidates' =>
      let '(item, e') := execute_candidate self user_query query e in
      execute_sparql_batch_loop self user_query candidates' (evidence ++ [item]) e'
  end.

Definition execute_sparql_batch (self : SelfQueryLLM) (candidates : list string)
    (user_query : string) (e : env) : list QueryEvidence * env :=
  execute_sparql_batch_loop self user_query candidates [] e.

Definition _load_schema_context (self : SelfQueryLLM) (e : env)
    : (string * string) * SelfQueryLLM * env :=
  let '(fetched, self, e) := get_schema_metadata self e in
  let schema_metadata :=
    match fetched with
    | inr schema_metadata => schema_metadata
    | inl err =>
        dumps (PDict [("classes", PList []); ("properties", PList []);
                      ("warning", PStr (exn_str err))])
    end in
  if include_full_schema_ttl self then
    let '(fetched, self, e) := get_schema_ttl self e in
    let schema_ttl :=
      match fetched with
      | inr schema_ttl => schema_ttl
      | inl _ => EmptyString
      end in
    ((schema_metadata, schema_ttl), self, e)
  else ((schema_metadata, EmptyString), self, e).

(** [time.monotonic()]. *)
Definition now (e : env) : Q * env :=
  let '(t, w) := monotonic H (world e) in
  (t, {| world := w; requests := requests e |}).

Definition _global_budget_reached (self : SelfQueryLLM) (start : Q) (iteration : Z) (e : env)
    : bool * env :=
  let '(t, e) := now e in
  let elapsed := (t - start)%Q in
  if Qlt_le_dec elapsed (inject_Z (global_time_budget_sec self)) then (false, e) else (true, e).

(** The two merge loops of [_plan_iteration_candidates]: the candidates
    whose normal form is new, and the seen-set they were added to. *)
Fixpoint merge_new (candidates : list string) (seen_queries : gset string)
    (merged : list string) : list string * gset string :=
  match candidates with
  | [] => (merged, seen_queries)
  | query :: candidates' =>
      let normalized := _normalize_query query in
      if decide (normalized ∈ seen_queries) then merge_new candidates' seen_queries merged
      else merge_new candidates' ({[normalized]} ∪ seen_queries) (merged ++ [query])
  end.

Definition _plan_iteration_candidates (self : SelfQueryLLM)
    (model_id user_query schema_metadata schema_ttl : string)
    (all_evidence : list QueryEvidence) (seen_queries : gset string) (iteration : Z)
    (e : env) : (list string * nat * nat) * gset string * env :=
  let loop_context :=
    rank_and_pack_context (slice_to (top_k self) (sorted_by_score all_evidence)) in
  let '(planner_candidates, e) :=
    generate_sparql_candidates self model_id user_query schema_metadata schema_ttl
      (if all_evidence is [] then EmptyString else loop_context) iteration e in
  let lexical_candidates :=
    if enable_lexical_search self then _build_lexical_candidates self user_query else [] in
  let '(merged, seen_queries) := merge_new planner_candidates seen_queries [] in
  let '(merged, seen_queries) := merge_new lexical_candidates seen_queries merged in
  ((merged, length planner_candidates, length lexical_candidates), seen_queries, e).

Definition _execute_iteration_candidates (self : SelfQueryLLM) (merged : list string)
    (user_query : string) (iteration : Z) (e : env) : list QueryEvidence * env :=
  execute_sparql_batch self merged user_query e.

(** [max((item.score for item in all_evidence), default=0.0)]. *)
Definition max_score (all_evidence : list QueryEvidence) : Q :=
  match all_evidence with
  | [] => 0
  | item :: items => foldl (fun best x => fmax best (score x)) (score item) items
  end.

Definition _evaluate_early_stop (self : SelfQueryLLM) (all_evidence : list QueryEvidence)
    (current_best_score : Q) (iteration : Z) : bool * Q :=
  let next_best_score := max_score all_evidence in
  let improvement := (next_best_score - current_best_score)%Q in
  let can_early_stop := (iteration >=? min_iterations_before_early_stop self)%Z in
  if (iteration <? max_iterations self)%Z && can_early_stop
     && (if Qlt_le_dec improvement (min_score_improvement self) then true else false)
  then (true, next_best_score)
  else (false, next_best_score).

(** The object [process] returns. *)
Record retrieval : Type := {
  schema_metadata : string;
  queries : list string;
  evidence : list QueryEvidence;
  context : string;
  iterations_used : Z;
  stop_reason : string
}.

Definition _build_process_result (self : SelfQueryLLM) (schema_metadata : string)
    (all_candidates : list string) (all_evidence : list QueryEvidence)
    (stop_reason : string) (iterations_used : Z) : retrieval :=
  let evidence_sorted := sorted_by_score all_evidence in
  let best := slice_to (top_k self) evidence_sorted in
  let context := rank_and_pack_context best in
  {| schema_metadata := schema_metadata;
     queries := all_candidates;
     evidence := best;
     context := context;
     iterations_used := iterations_used;
     stop_reason := stop_reason |}.

(** The local variables of [process] that the loop updates. *)
Record locals : Type := {
  all_candidates : list string;
  all_evidence : list QueryEvidence;
  seen_queries : gset string;
  best_score : Q;
  loop_stop_reason : string;
  loop_iterations_used : Z
}.

(** The [for iteration in range(1, self.max_iterations + 1)] loop of
    [process], over the iterations still to run. *)
Fixpoint process_loop (self : SelfQueryLLM) (model_id user_query : string)
    (schema_metadata schema_ttl : string) (start : Q)
    (iterations : list Z) (v : locals) (e : env) : locals * env :=
  match iterations with
  | [] => (v, e)
  | iteration :: iterations' =>
      let '(reached, e) := _global_budget_reached self start iteration e in
      if reached then
        ({| all_candidates := all_candidates v; all_evidence := all_evidence v;
            seen_queries := seen_queries v; best_score := best_score v;
            loop_stop_reason := "global_time_budget";
            loop_iterations_used := iteration |}, e)
      else
        let '((merged, planner_count, lexical_count), seen, e) :=
          _plan_iteration_candidates self model_id user_query schema_metadata schema_ttl
            (all_evidence v) (seen_queries v) iteration e in
        let candidates := all_candidates v ++ merged in
        if merged is [] then
          ({| all_candidates := candidates; all_evidence := all_evidence v;
              seen_queries := seen; best_score := best_score v;
              loop_stop_reason := "no_new_candidates";
              loop_iterations_used := iteration |}, e)
        else
          let '(found, e) := _execute_iteration_candidates self merged user_query iteration e in
          let gathered := all_evidence v ++ found in
          let '(should_stop, best) :=
            _evaluate_early_stop self gathered (best_score v) iteration in
          if should_stop then
            ({| all_candidates := candidates; all_evidence := gathered;
                seen_queries := seen; best_score := best;
                loop_stop_reason := "no_meaningful_improvement";
                loop_iterations_used := iteration |}, e)
          else
            process_loop self model_id user_query schema_metadata schema_ttl start
              iterations'
              {| all_candidates := candidates; all_evidence := gathered;
                 seen_queries := seen; best_score := best;
                 loop_stop_reason := loop_stop_reason v;
                 loop_iterations_used := iteration |} e
  end.

Definition process (self : SelfQueryLLM) (model_id user_query : string) (e : env)
    : retrieval * SelfQueryLLM * env :=
  let '(start, e) := now e in
  let '((schema_metadata, schema_ttl), self, e) := _load_schema_context self e in
  let '(v, e) :=
    process_loop self model_id user_query schema_metadata schema_ttl start
      (seqZ 1 (max_iterations self))
      {| all_candidates := []; all_evidence := []; seen_queries := ∅; best_score := 0;
         loop_stop_reason := "max_iterations"; loop_iterations_used := 0 |} e in
  (_build_process_result self schema_metadata (all_candidates v) (all_evidence v)
     (loop_stop_reason v) (loop_iterations_used v), self, e).

End Engine.

(** * The vocabulary of the statements *)

(** ** The texts a pattern matches *)

Module Lang.
Import Py Re.

(** After [m] is read, the character before the position. *)
Definition last_or (pv : option ascii) (m : list ascii) : option ascii :=
  match last m with
  | Some c => Some c
  | None => pv
  end.

(** [st'] is [st] moved over the text [m]; group 1 is as it was. *)
Definition moved (st : mstate) (m : list ascii) (st' : mstate) : Prop :=
  rest st = m ++ rest st' ∧ prev st' = last_or (prev st) m ∧ group1 st' = group1 st.

(** The texts an expression without assertion or group matches. *)
Fixpoint lang (ic : bool) (r : regex) (m : list ascii) : Prop :=
  match r with
  | Eps => m = []
  | Lit c => ∃ x, m = [x] ∧ same_char ic c x = true
  | Class p => ∃ x, m = [x] ∧ p x = true
  | Rep _ least p => Forall (λ x, p x = true) m ∧ least ≤ length m
  | Cat r1 r2 => ∃ m1 m2, m = m1 ++ m2 ∧ lang ic r1 m1 ∧ lang ic r2 m2
  | Alt r1 r2 => lang ic r1 m ∨ lang ic r2 m
  | _ => False
  end.

(** An expression without assertion or group. *)
Fixpoint plain (r : regex) : Prop :=
  match r with
  | Eps | Lit _ | Class _ | Rep _ _ _ => True
  | Cat r1 r2 | Alt r1 r2 => plain r1 ∧ plain r2
  | _ => False
  end.

(** Whether the character next to a position, if any, is a word character. *)
Definition isw (o : option ascii) : bool := from_option isword false o.

(** An alternation between two word boundaries, as in
    [FORBIDDEN_QUERY_RE]. *)
Definition bounded (r : regex) : regex := Cat Boundary (Cat (Group r) Boundary).

(** When every text of the alternation begins and ends with a word
    character, the two boundaries speak of the neighbours alone. *)
Definition wordy (ic : bool) (r : regex) : Prop :=
  ∀ m, lang ic r m → isw (head m) = true ∧ isw (last m) = true.

(** The letters [A-Za-z]. *)
Definition ascii_letter (c : ascii) : bool :=
  between 65 90 (ord c) || between 97 122 (ord c).

(** A proof by cases over the 256 characters. *)
Ltac each_char c := destruct c as [[] [] [] [] [] [] [] []]; vm_compute.

End Lang.

(** ** What the validator's rules say about the text of a query *)

Module Rules.
Import Py Re Lang.

(** [m] is the word [w] up to the case of its letters. *)
Definition ci_eq (m : list ascii) (w : string) : Prop :=
  lower_char <$> m = lower_char <$> chars w.

(** A run of whitespace. *)
Definition spaces (ws : list ascii) : Prop := Forall (λ c, isspace c = true) ws.

(** A word boundary on the side of a text that faces an occurrence that
    begins and ends with a word character. *)
Definition no_word_before (pre : list ascii) : Prop :=
  from_option isword false (last pre) = false.
Definition no_word_after (post : list ascii) : Prop :=
  from_option isword false (head post) = false.

(** The first non-whitespace keyword of [q] is [K]. *)
Definition first_keyword (K q : string) : Prop :=
  ∃ ws kw post,
    chars q = ws ++ kw ++ post ∧ spaces ws ∧ ci_eq kw K ∧ no_word_after post.

(** The keywords [QUERY_TYPE_RE] knows, and those a configuration allows. *)
Definition QUERY_KEYWORDS : list string := ["SELECT"; "ASK"; "CONSTRUCT"; "DESCRIBE"].

Definition allowed_keywords (self : SelfQueryLLM) : list string :=
  ["SELECT"; "ASK"; "CONSTRUCT"] ++ (if allow_describe self then ["DESCRIBE"] else []).

(** The twelve words of [FORBIDDEN_QUERY_RE]. *)
Definition FORBIDDEN_WORDS : list string :=
  ["INSERT"; "DELETE"; "DROP"; "CLEAR"; "CREATE"; "LOAD"; "COPY"; "MOVE"; "ADD";
   "SERVICE"; "WITH"; "USING"].

(** [VALUES], then [{], then [<http], with any whitespace between them. *)
Definition values_fragment (m : list ascii) : Prop :=
  ∃ v w1 w2 h,
    m = v ++ w1 ++ chars "{" ++ w2 ++ h
    ∧ ci_eq v "VALUES" ∧ spaces w1 ∧ spaces w2 ∧ ci_eq h "<http".

(** [q] contains, between word boundaries, one of the words [ws] or a
    text of the shape [frag]. *)
Definition contains_bounded (ws : list string) (frag : list ascii → Prop) (q : string) : Prop :=
  ∃ pre m post,
    chars q = pre ++ m ++ post
    ∧ no_word_before pre
    ∧ ((∃ K, K ∈ ws ∧ ci_eq m K) ∨ frag m)
    ∧ no_word_after post.

(** [q] contains what [FORBIDDEN_QUERY_RE] looks for. *)
Definition contains_forbidden (q : string) : Prop :=
  contains_bounded FORBIDDEN_WORDS values_fragment q.

(** [q] contains the text [w] up to case, bounded or not. *)
Definition contains_ci (w q : string) : Prop :=
  ∃ pre m post, chars q = pre ++ m ++ post ∧ ci_eq m w.

(** The four rules of the validator as the code has them: the fragment
    is [VALUES], [{] and [<http] with any whitespace, or none, between
    them, and it ends at a word boundary like the twelve words. *)
Definition validator_rules (self : SelfQueryLLM) (q : string) : Prop :=
  (len q <= max_query_chars self)%Z
  ∧ (∃ K, K ∈ allowed_keywords self ∧ first_keyword K q)
  ∧ ¬ contains_forbidden q
  ∧ (first_keyword "SELECT" q ∨ first_keyword "CONSTRUCT" q → contains_ci "limit" q).

(** [q] contains the token [w]: the text [w] up to case, between word
    boundaries. *)
Definition contains_token (w q : string) : Prop :=
  ∃ pre m post,
    chars q = pre ++ m ++ post ∧ no_word_before pre ∧ ci_eq m w ∧ no_word_after post.

(** [q] contains the fragment, whatever stands next to it. *)
Definition contains_fragment (q : string) : Prop :=
  ∃ pre m post, chars q = pre ++ m ++ post ∧ values_fragment m.

(** The four rules as the specification words them, with the fragment
    taken as the literal text [VALUES { <http], in any case and with or
    without word boundaries around it. *)
Definition stated_rules (self : SelfQueryLLM) (q : string) : Prop :=
  (len q <= max_query_chars self)%Z
  ∧ (∃ K, K ∈ allowed_keywords self ∧ first_keyword K q)
  ∧ (¬ contains_bounded FORBIDDEN_WORDS (λ _, False) q
     ∧ ¬ contains_ci "VALUES { <http" q)
  ∧ (first_keyword "SELECT" q ∨ first_keyword "CONSTRUCT" q → contains_token "limit" q).

(** The four rules with the fragment read as the pattern has it:
    [VALUES], [{] and [<http] with any whitespace, or none, between
    them. *)
Definition spaced_rules (self : SelfQueryLLM) (q : string) : Prop :=
  (len q <= max_query_chars self)%Z
  ∧ (∃ K, K ∈ allowed_keywords self ∧ first_keyword K q)
  ∧ (¬ contains_bounded FORBIDDEN_WORDS (λ _, False) q ∧ ¬ contains_fragment q)
  ∧ (first_keyword "SELECT" q ∨ first_keyword "CONSTRUCT" q → contains_token "limit" q).

(** The fragment, when it occurs in [q], occurs between word boundaries
    at least once; the text [limit], when it occurs, occurs as a token at
    least once. *)
Definition fragment_is_bounded (q : string) : Prop :=
  contains_fragment q → contains_bounded [] values_fragment q.
Definition limit_is_a_token (q : string) : Prop :=
  contains_ci "limit" q → contains_token "limit" q.

(** A word in capital letters is what [upper] makes of any spelling of it. *)
Definition capitals (w : string) : Prop :=
  Forall (λ c, between 65 90 (ord c) = true) (chars w).

(** The alternation of [QUERY_TYPE_RE]. *)
Definition keyword_alternation : regex :=
  Alts (Word "SELECT") (Word <$> ["ASK"; "CONSTRUCT"; "DESCRIBE"]).

(** The alternation of [FORBIDDEN_QUERY_RE]. *)
Definition forbidden_alternation : regex :=
  Alts (Word "INSERT")
    ((Word <$> ["DELETE"; "DROP"; "CLEAR"; "CREATE"; "LOAD"; "COPY"; "MOVE"; "ADD";
                "SERVICE"; "WITH"; "USING"]) ++ [values_http]).

(** The twelve words alone, between word boundaries. *)
Definition forbidden_words_alternation : regex :=
  Alts (Word "INSERT")
    (Word <$> ["DELETE"; "DROP"; "CLEAR"; "CREATE"; "LOAD"; "COPY"; "MOVE"; "ADD";
               "SERVICE"; "WITH"; "USING"]).

End Rules.

(** ** Engines of the examples *)

Module Examples.

(** An engine built as the pipeline does from its default settings. *)
Definition engine (endpoint : string) (allow_describe : bool) : SelfQueryLLM :=
  __init__ endpoint 3 3 20 100 30 45 (-1)
    "http://example.com/output_hierarchy_materialflow_libraries_only-graph" true (-1)
    allow_describe true true true true true 6 4 5 3 (2 # 100) 90 8000.

(** An endpoint that refuses every connection and a planner that never
    answers in time. *)
Definition offline : Host :=
  {| World := unit;
     repr := λ _, "<object>";
     float_of_str := λ _, inl (Exn "ValueError" "could not convert string to float");
     json_loads := λ _, inl (Exn "JSONDecodeError" "Expecting value");
     sparql := λ _ w, (inl (Exn "URLError" "<urlopen error [Errno 111] Connection refused>"), w);
     chat_json := λ _ _ _ _ w, (PlannerTimeout, w);
     monotonic := λ w, (0%Q, w) |}.

(** An endpoint that refuses its first request and answers every later
    one with an empty result; the world is the number of requests so far. *)
Definition recovering : Host :=
  {| World := nat;
     repr := λ _, "<object>";
     float_of_str := λ _, inl (Exn "ValueError" "could not convert string to float");
     json_loads := λ _, inl (Exn "JSONDecodeError" "Expecting value");
     sparql := λ req w,
       (match w with
        | O => inl (Exn "URLError" "<urlopen error [Errno 111] Connection refused>")
        | S _ =>
            match req_format req with
            | JSON => inr (PDict [("head", PDict [("vars", PList [])]);
                                  ("results", PDict [("bindings", PList [])])])
            | TURTLE => inr (PStr EmptyString)
            end
        end, S w);
     chat_json := λ _ _ _ _ w, (PlannerTimeout, w);
     monotonic := λ w, (0%Q, w) |}.

(** An engine with the lexical search and the schema TTL switched off,
    which may not stop early before its last iteration. *)
Definition plain_engine (max_iterations : Z) : SelfQueryLLM :=
  __init__ "http://localhost:7200/repositories/plant" 3 3 20 100 30 45 (-1)
    EmptyString false (-1) true false true true true true 6 4 max_iterations
    max_iterations (2 # 100) 90 8000.

(** An endpoint that answers every JSON request with a true ASK result,
    and a planner that proposes the one ASK query as plain text; the
    world is the number of planner calls so far. *)
Definition asking : Host :=
  {| World := nat;
     repr := λ _, "<object>";
     float_of_str := λ _, inl (Exn "ValueError" "could not convert string to float");
     json_loads := λ _, inl (Exn "JSONDecodeError" "Expecting value");
     sparql := λ _ w, (inr (PDict [("head", PDict []); ("boolean", PBool true)]), w);
     chat_json := λ _ _ _ _ w, (PlannerReturned "ASK WHERE { ?s ?p ?o }", S w);
     monotonic := λ w, (0%Q, w) |}.

(** A planner that proposes the same query twice, the second time in
    lower case and with more whitespace. *)
Definition repeating : Host :=
  {| World := nat;
     repr := λ _, "<object>";
     float_of_str := λ _, inl (Exn "ValueError" "could not convert string to float");
     json_loads := λ _, inl (Exn "JSONDecodeError" "Expecting value");
     sparql := λ _ w,
       (inr (PDict [("head", PDict [("vars", PList [PStr "s"])]);
                    ("results", PDict [("bindings", PList [])])]), w);
     chat_json := λ _ _ _ _ w,
       (PlannerReturned
          (match w with
           | O => "SELECT ?s WHERE { ?s ?p ?o } LIMIT 10"
           | S _ => "select  ?s  where { ?s ?p ?o }   limit 10"
           end), S w);
     monotonic := λ w, (0%Q, w) |}.

End Examples.

(** ** Runs of the engine *)

Module Runs.

(** The requests a step adds to the record: all of them carry [q]. *)
Definition sends_only (H : Host) (q : string) (e e' : env H) : Prop :=
  ∃ sent, requests H e' = requests H e ++ sent ∧ Forall (λ r, req_query r = q) sent.

(** Every record of a batch is what [execute_candidate] appends for one
    of the candidates. *)
Definition from_candidate (H : Host) (self : SelfQueryLLM) (uq : string) (cs : list string)
    (item : QueryEvidence) : Prop :=
  ∃ q e, q ∈ cs ∧ item = (execute_candidate H self uq q e).1.

(** [item] is what [execute_candidate] appends for some candidate, under
    some state of the caches and of the world. *)
Definition gathered (H : Host) (uq : string) (item : QueryEvidence) : Prop :=
  ∃ self q e, item = (execute_candidate H self uq q e).1.

(** What the loop keeps true of its variables. *)
Definition loop_inv (H : Host) (uq : string) (v : locals) : Prop :=
  Forall (gathered H uq) (all_evidence v)
  ∧ NoDup (_normalize_query <$> all_candidates v)
  ∧ (∀ q, q ∈ all_candidates v → _normalize_query q ∈ seen_queries v)
  ∧ query <$> all_evidence v = all_candidates v.

(** The planner call gave nothing to execute: it timed out, it raised,
    or no query could be read off its answer. *)
Definition planner_failed (H : Host) (outcome : planner_outcome) : Prop :=
  match outcome with
  | PlannerTimeout => True
  | PlannerRaised _ => True
  | PlannerReturned content => _extract_queries H content = []
  end.

(** A score between 0 and 1. *)
Definition unit_interval (s : Q) : Prop := (0 <= s)%Q ∧ (s <= 1)%Q.

(** The [_describe_score] of the payload, when it has one, reads as a
    number between 0 and 1. *)
Definition rated (H : Host) (payload : pyval) : Prop :=
  ∀ d x,
    Dyn.has_key "_describe_score" payload = true →
    Dyn.get payload "_describe_score" (PFloat 0) = inr d → float H d = inr x →
    unit_interval x.

(** The endpoint answers a JSON request with such a payload. *)
Definition rated_replies (H : Host) : Prop :=
  ∀ req w payload w',
    req_format req = JSON → sparql H req w = (inr payload, w') → rated H payload.

(** The payload is an object whose [boolean] field is [b]. *)
Definition has_boolean (payload : pyval) (b : bool) : Prop :=
  ∃ kv, payload = PDict kv ∧ Dyn.assoc "boolean" kv = Some (PBool b).

(** The payload has no binding: [results] is absent or an object, and
    its [bindings] are absent or empty. *)
Definition no_bindings (payload : pyval) : Prop :=
  ∃ results bindings,
    Dyn.get payload "results" (PDict []) = inr results
    ∧ Dyn.get results "bindings" (PList []) = inr bindings
    ∧ Dyn.truthy bindings = false.

End Runs.

Import Py Re Lang Rules Runs.

(** ** More vocabulary: the endpoint driver, the ranking, the loop *)

Module Traces.

(** The request the retry loop builds for one endpoint candidate. *)
Definition request_to (q : string) (fmt : return_format) (timeout : Z) (ep : string)
    : request :=
  {| req_endpoint := ep; req_query := q; req_format := fmt; req_timeout := timeout |}.

(** A runner that sends the request it is given, once. *)
Definition sends_once (H : Host) {A} (run_query : request → env H → result A * env H) : Prop :=
  ∀ req e, requests H (run_query req e).2 = requests H e ++ [req].

(** The requests of a step: at most [k] rounds over the endpoint
    candidates, each request with one of the queries [qs]. *)
Definition costs (H : Host) (self : SelfQueryLLM) (qs : list string) (k : nat)
    (e e' : env H) : Prop :=
  ∃ sent, requests H e' = requests H e ++ sent
          ∧ length sent ≤ k * length (_endpoint_candidates self)
          ∧ Forall (λ r, req_query r ∈ qs) sent.

(** The format [execute_sparql_batch] asks for: JSON for the queries
    that return rows or a boolean, Turtle for those that return a graph. *)
Definition format_of (q : string) : return_format :=
  if bool_decide (_query_type q ∈ ({[ "SELECT"; "ASK" ]} : gset string)) then JSON else TURTLE.

(** The requests of one run of the query [q] over the endpoint
    candidates that stops after [n] of them: one request for each of the
    first [n] candidates, in their order. *)
Definition run_requests (self : SelfQueryLLM) (q : string) (fmt : return_format) (n : nat)
    : list request :=
  request_to q fmt (timeout_sec self) <$> take n (_endpoint_candidates self).

(** The same for a candidate of a batch, in the format of its type. *)
Definition candidate_requests (self : SelfQueryLLM) (q : string) (n : nat) : list request :=
  run_requests self q (format_of q) n.

(** The runs of [run_query] over the candidates [endpoints], one after
    the other from the state [e]: the state they leave when every one of
    them fails, nothing when one of them answers. *)
Fixpoint failed_runs (H : Host) {A} (run_query : request → env H → result A * env H)
    (q : string) (fmt : return_format) (timeout : Z) (endpoints : list string) (e : env H)
    : option (env H) :=
  match endpoints with
  | [] => Some e
  | ep :: endpoints' =>
      match run_query (request_to q fmt timeout ep) e with
      | (inl _, e') => failed_runs H run_query q fmt timeout endpoints' e'
      | (inr _, _) => None
      end
  end.

(** Scores that do not go up along the list. *)
Definition descending (l : list QueryEvidence) : Prop :=
  ∀ i j a b, i < j → l !! i = Some a → l !! j = Some b → (score b <= score a)%Q.

(** Every record scores at least as much as all the records after it. *)
Fixpoint ranked (l : list QueryEvidence) : Prop :=
  match l with
  | [] => True
  | x :: l' => Forall (λ y, (score y <= score x)%Q) l' ∧ ranked l'
  end.

(** [best] is a choice of the best of [all]: what is left out scores no
    more than anything chosen. *)
Definition best_of (best all : list QueryEvidence) : Prop :=
  ∃ rest, best ++ rest ≡ₚ all
          ∧ ∀ a b, a ∈ best → b ∈ rest → (score b <= score a)%Q.

(** The four values of [stop_reason]. *)
Definition STOP_REASONS : list string :=
  ["max_iterations"; "global_time_budget"; "no_new_candidates"; "no_meaningful_improvement"].

(** The query [get_schema_ttl] sends. *)
Definition schema_ttl_query (self : SelfQueryLLM) : string :=
  if String.eqb (strip (schema_graph_uri self)) EmptyString
  then "CONSTRUCT { ?s ?p ?o } WHERE { ?s ?p ?o }"
  else "CONSTRUCT { ?s ?p ?o } WHERE { " +:+
       "GRAPH <" +:+ schema_graph_uri self +:+ "> { ?s ?p ?o } " +:+
       "}".

(** The three queries of the schema loader. *)
Definition schema_queries (self : SelfQueryLLM) : list string :=
  [CLASSES_PREFIX +:+ nl +:+ CLASSES_BODY; PROPERTIES_PREFIX +:+ nl +:+ PROPERTIES_BODY;
   schema_ttl_query self].

(** The requests of the schema loader: a run of each of its three
    queries, stopped after [n1], [n2] and [n3] endpoint candidates. *)
Definition schema_requests (self : SelfQueryLLM) (n1 n2 n3 : nat) : list request :=
  run_requests self (CLASSES_PREFIX +:+ nl +:+ CLASSES_BODY) JSON n1
  ++ run_requests self (PROPERTIES_PREFIX +:+ nl +:+ PROPERTIES_BODY) JSON n2
  ++ run_requests self (schema_ttl_query self) TURTLE n3.


(** What the loop of [process] keeps true of the reason and the round
    it stops with, over the rounds [first .. first + n - 1]. *)
Definition stopped_within (self : SelfQueryLLM) (first last : Z) (v : locals) : Prop :=
  (loop_stop_reason v = "max_iterations" ∧ loop_iterations_used v = last)
  ∨ (loop_stop_reason v ∈ ["global_time_budget"; "no_new_candidates"]
     ∧ (first <= loop_iterations_used v <= last)%Z)
  ∨ (loop_stop_reason v = "no_meaningful_improvement"
     ∧ (first <= loop_iterations_used v <= last)%Z
     ∧ (min_iterations_before_early_stop self <= loop_iterations_used v)%Z
     ∧ (loop_iterations_used v < max_iterations self)%Z).

End Traces.

(** ** More vocabulary: texts *)

Module Texts.
Import Py.

(** Neither the first nor the last character is whitespace. *)
Definition trimmed (l : list ascii) : Prop :=
  from_option isspace false (head l) = false ∧ from_option isspace false (last l) = false.

(** A word of [str.split]: not empty, no whitespace in it. *)
Definition word (w : list ascii) : Prop := w ≠ [] ∧ Forall (λ c, isspace c = false) w.

(** The words with one space between them. *)
Fixpoint glue (ws : list (list ascii)) : list ascii :=
  match ws with
  | [] => []
  | w :: ws' =>
      match ws' with
      | [] => w
      | _ :: _ => w ++ chr 32 :: glue ws'
      end
  end.

(** The two characters [_escape_literal] escapes. *)
Definition backslash : ascii := chr 92.
Definition quote : ascii := chr 39.

(** Neither a backslash nor a quote. *)
Definition unquoted (c : ascii) : Prop := c ≠ backslash ∧ c ≠ quote.

(** What [_escape_literal] makes of one character. *)
Definition escaped_char (c : ascii) : list ascii :=
  if decide (c = backslash) then [backslash; backslash]
  else if decide (c = quote) then [backslash; quote]
  else [c].

(** The text a single-quoted SPARQL literal with the body [l] stands for,
    as far as the backslash goes: a backslash gives the character after
    it. *)
Fixpoint unescape (l : list ascii) : list ascii :=
  match l with
  | [] => []
  | c :: l' =>
      if decide (c = backslash) then
        match l' with
        | d :: l'' => d :: unescape l''
        | [] => [c]
        end
      else c :: unescape l'
  end.

(** Whether a quote that no backslash escapes occurs in [l]: such a quote
    would end the literal [l] is the body of. *)
Fixpoint closes_literal (l : list ascii) : bool :=
  match l with
  | [] => false
  | c :: l' =>
      if decide (c = backslash) then
        match l' with
        | _ :: l'' => closes_literal l''
        | [] => false
        end
      else if decide (c = quote) then true
      else closes_literal l'
  end.

(** The filters [_build_lexical_candidates] makes of the tokens, and the
    two queries it makes of the joined filters. *)
Definition lexical_filters (self : SelfQueryLLM) (tokens : list string) : list string :=
  tokens ≫= (fun token =>
    let escaped := _escape_literal token in
    (if lexical_match_literals self
     then ["CONTAINS(LCASE(STR(?o)), LCASE('" +:+ escaped +:+ "'))"] else []) ++
    (if lexical_match_labels self
     then ["CONTAINS(LCASE(STR(?label)), LCASE('" +:+ escaped +:+ "'))"] else []) ++
    (if lexical_match_iri_local_names self
     then ["CONTAINS(LCASE(REPLACE(STR(?s), '^.*[#/]', '')), LCASE('" +:+ escaped +:+ "'))";
           "CONTAINS(LCASE(REPLACE(STR(?o), '^.*[#/]', '')), LCASE('" +:+ escaped +:+ "'))"]
     else []) ++
    (if lexical_match_predicates self
     then ["CONTAINS(LCASE(REPLACE(STR(?p), '^.*[#/]', '')), LCASE('" +:+ escaped +:+ "'))"]
     else [])).

Definition lexical_queries (self : SelfQueryLLM) (where_ : string) : list string :=
  [ "SELECT ?s ?p ?o ?label WHERE { " +:+
    "?s ?p ?o . " +:+
    "OPTIONAL { ?s <http://www.w3.org/2000/01/rdf-schema#label> ?label } " +:+
    "OPTIONAL { ?s <http://www.w3.org/2004/02/skos/core#prefLabel> ?label } " +:+
    "FILTER(" +:+ where_ +:+ ") " +:+
    "} LIMIT " +:+ str_of_int (max_rows self);
    "SELECT ?s ?label WHERE { " +:+
    "?s a ?type . " +:+
    "OPTIONAL { ?s <http://www.w3.org/2000/01/rdf-schema#label> ?label } " +:+
    "OPTIONAL { ?s <http://www.w3.org/2004/02/skos/core#prefLabel> ?label } " +:+
    "FILTER(" +:+ where_ +:+ ") " +:+
    "} LIMIT " +:+ str_of_int (max_rows self) ].

End Texts.

(** ** More engines and endpoints of the examples *)

Module Cases.

(** An engine for a repository on the docker host that keeps two records,
    asks the planner for two queries, reads two rows and cuts the schema
    TTL after 20 characters. *)
Definition small_engine : SelfQueryLLM :=
  __init__ "http://host.docker.internal:7200/repositories/plant" 2 2 20 2 30 45 (-1)
    EmptyString true 20 true true true true true true 6 4 5 3 (2 # 100) 90 8000.

(** An endpoint that answers every JSON request with three rows and
    every Turtle request with three triples, and a planner whose answer
    holds four entries, one of them blank; the world counts the requests. *)
Definition stocked : Host :=
  {| World := nat;
     repr := λ _, "<object>";
     float_of_str := λ _, inl (Exn "ValueError" "could not convert string to float");
     json_loads := λ _,
       inr (PDict [("queries",
                    PList [PStr "SELECT ?s WHERE { ?s a <http://example.org/Pump> } LIMIT 5";
                           PStr "   ";
                           PStr " ASK { ?s ?p ?o } ";
                           PStr "SELECT ?o WHERE { ?s ?p ?o } LIMIT 5"])]);
     sparql := λ req w,
       (match req_format req with
        | JSON =>
            inr (PDict
                   [("results",
                     PDict [("bindings",
                             PList [PDict [("s", PDict [("type", PStr "uri");
                                                        ("value", PStr "http://example.org/pump1")])];
                                    PDict [("s", PDict [("type", PStr "uri");
                                                        ("value", PStr "http://example.org/pump2")])];
                                    PDict [("s", PDict [("type", PStr "uri");
                                                        ("value", PStr "http://example.org/pump3")])]])])])
        | TURTLE =>
            inr (PStr "ex:pump1 a ex:Pump . ex:pump2 a ex:Pump . ex:pump3 a ex:Pump .")
        end, S w);
     chat_json := λ _ _ _ _ w, (PlannerReturned "{}", w);
     monotonic := λ w, (0%Q, w) |}.

(** An endpoint whose JSON answers carry a [_describe_score] of their
    own, 5. *)
Definition overrating : Host :=
  {| World := unit;
     repr := λ _, "<object>";
     float_of_str := λ _, inl (Exn "ValueError" "could not convert string to float");
     json_loads := λ _, inl (Exn "JSONDecodeError" "Expecting value");
     sparql := λ _ w,
       (inr (PDict [("head", PDict [("vars", PList [PStr "s"])]);
                    ("results", PDict [("bindings", PList [])]);
                    ("_describe_score", PInt 5)]), w);
     chat_json := λ _ _ _ _ w, (PlannerTimeout, w);
     monotonic := λ w, (0%Q, w) |}.

End Cases.

Import Traces Texts.

(** * Around the engine

    The one helper of [SelfQueryLLM] left, the part of the pipeline
    (pipelines/selfquery_llm.py) that turns the result of [process] into
    the prompt, and the message helpers of prototypes/utils/main.py that
    the pipeline puts the prompt in place with. *)

(** [SelfQueryLLM._short]: the words of the text on one line, cut after
    [max_len] characters. *)
Definition _short (value : string) (max_len : Z) : string :=
  let compact := join " " (split value) in
  if (len compact <=? max_len)%Z then compact
  else str_slice_to max_len compact +:+ "...".

Module Pipeline.

(** [Pipeline._resolve_progress_mode], of the valve [progress_output_mode]:
    whether to emit status events, and whether to emit text lines. *)
Definition _resolve_progress_mode (progress_output_mode : string) : bool * bool :=
  let progress_mode := lower (strip progress_output_mode) in
  let progress_mode :=
    if bool_decide (progress_mode ∈ ({[ "events"; "text"; "both" ]} : gset string))
    then progress_mode else "events" in
  (bool_decide (progress_mode ∈ ({[ "events"; "both" ]} : gset string)),
   bool_decide (progress_mode ∈ ({[ "text"; "both" ]} : gset string))).

(** [Pipeline._build_prompt_with_retrieval]. The retrieval is the object
    [process] returned, or [None] for the empty dict that stands for a
    retrieval that failed; the error is [None] or the text of the
    failure. *)
Definition _build_prompt_with_retrieval (retrieval : option retrieval)
    (retrieval_error : option string) (user_message : string)
    : string * list QueryEvidence * string :=
  let context := match retrieval with Some r => context r | None => EmptyString end in
  let evidence := match retrieval with Some r => evidence r | None => [] end in
  let msg := "Use ontology-grounded SPARQL evidence to answer the user." +:+ nl in
  let msg := msg +:+ ("If evidence is weak, state uncertainty explicitly." +:+ nl +:+ nl) in
  let msg := msg +:+ ("SPARQL EVIDENCE:" +:+ nl) in
  let without_error :=
    msg +:+ (if negb (String.eqb context EmptyString) then context
             else "NO RELEVANT EVIDENCE" +:+ nl) in
  let msg :=
    match retrieval_error with
    | Some err =>
        if negb (String.eqb err EmptyString) then
          (msg +:+ ("SPARQL RETRIEVAL UNAVAILABLE: " +:+ err +:+ nl))
          +:+ ("Proceed with best-effort answer and clearly mark uncertainty." +:+ nl)
        else without_error
    | None => without_error
    end in
  let msg := msg +:+ (nl +:+ nl) in
  let msg := msg +:+ ("USER QUESTION:" +:+ nl +:+ user_message +:+ nl +:+ nl) in
  let msg :=
    msg +:+ ("Please include a short 'Evidence Used' section with query references." +:+ nl) in
  (msg, evidence, context).

End Pipeline.

Module Utils.

(** A message: a dict, as the items of its keys. *)
Definition message : Type := list (string * pyval).

(** [v[k]] for a string key; [None] when it raises: the key is not in
    the dict, or [v] is no dict. *)
Definition subscript (v : pyval) (k : string) : option pyval :=
  match v with
  | PDict kv => Dyn.assoc k kv
  | _ => None
  end.

(** [v == s] for a string [s]. *)
Definition is_str (v : pyval) (s : string) : bool :=
  match v with
  | PStr t => String.eqb t s
  | _ => false
  end.

(** The loop over the items of a content list in [get_last_message]:
    [None] when it raises, [Some None] when it ends without a text item,
    [Some (Some t)] when it returns [t]. *)
Fixpoint first_text (items : list pyval) : option (option pyval) :=
  match items with
  | [] => Some None
  | item :: items' =>
      match subscript item "type" with
      | None => None
      | Some type =>
          if is_str type "text" then
            match subscript item "text" with
            | Some t => Some (Some t)
            | None => None
            end
          else first_text items'
      end
  end.

(** The same loop in [set_last_message]: the items after the
    assignment, when there is a text item. *)
Fixpoint set_first_text (items : list pyval) (msg : string) : option (option (list pyval)) :=
  match items with
  | [] => Some None
  | item :: items' =>
      match subscript item "type" with
      | None => None
      | Some type =>
          if is_str type "text" then
            match item with
            | PDict kv => Some (Some (PDict (Dyn.setitem "text" (PStr msg) kv) :: items'))
            | _ => None
            end
          else
            match set_first_text items' msg with
            | None => None
            | Some None => Some None
            | Some (Some items'') => Some (Some (item :: items''))
            end
      end
  end.

(** [get_last_message] over the messages from the last to the first;
    [None] when it raises, [Some PNone] when it returns [None]. *)
Fixpoint get_last_message_loop (role : string) (reversed : list message) : option pyval :=
  match reversed with
  | [] => Some PNone
  | message :: reversed' =>
      match Dyn.assoc "role" message with
      | None => None
      | Some r =>
          if is_str r role then
            match Dyn.assoc "content" message with
            | None => None
            | Some (PList items) =>
                match first_text items with
                | None => None
                | Some (Some t) => Some t
                | Some None => Some (PList items)
                end
            | Some content => Some content
            end
          else get_last_message_loop role reversed'
      end
  end.

Definition get_last_message (role : string) (messages : list message) : option pyval :=
  get_last_message_loop role (reverse messages).

(** [set_last_message] over the messages from the last to the first: the
    messages, in that order, after the call; [None] when it raises. *)
Fixpoint set_last_message_loop (role : string) (reversed : list message) (msg : string)
    : option (list message) :=
  match reversed with
  | [] => Some []
  | message :: reversed' =>
      match Dyn.assoc "role" message with
      | None => None
      | Some r =>
          if is_str r role then
            match Dyn.assoc "content" message with
            | None => None
            | Some (PList items) =>
                match set_first_text items msg with
                | None => None
                | Some (Some items') =>
                    Some (Dyn.setitem "content" (PList items') message :: reversed')
                | Some None => Some (Dyn.setitem "content" (PStr msg) message :: reversed')
                end
            | Some _ => Some (Dyn.setitem "content" (PStr msg) message :: reversed')
            end
          else
            match set_last_message_loop role reversed' msg with
            | None => None
            | Some rest => Some (message :: rest)
            end
      end
  end.

Definition set_last_message (role : string) (messages : list message) (msg : string)
    : option (list message) :=
  reverse <$> set_last_message_loop role (reverse messages) msg.

(** A message with the role, and a list with such a message. *)
Definition speaks (role : string) (m : message) : Prop :=
  ∃ r, Dyn.assoc "role" m = Some r ∧ is_str r role = true.

Definition has_role (role : string) (messages : list message) : Prop :=
  Exists (speaks role) messages.

End Utils.

(** * Properties *)

(** ** Requests sent by the endpoint driver *)

Section Driver.
Variable H : Host.


Lemma sends_only_refl q e : sends_only H q e e.
Proof. exists []. by rewrite app_nil_r. Qed.

Lemma sends_only_trans q e1 e2 e3 :
  sends_only H q e1 e2 → sends_only H q e2 e3 → sends_only H q e1 e3.
Proof.
  intros (s1 & E1 & F1) (s2 & E2 & F2). exists (s1 ++ s2).
  rewrite E2, E1, app_assoc. split; [done | by apply Forall_app].
Qed.

Lemma send_sends req e r e' :
  send H req e = (r, e') → sends_only H (req_query req) e e'.
Proof.
  unfold send. destruct (sparql H req (world H e)) as [reply w].
  intros [= <- <-]. exists [req]. split; [done | by constructor].
Qed.

Lemma retry_loop_sends {A} q fmt t (run_query : request → env H → result A * env H)
    endpoints errors e r e' :
  (∀ req e0 r0 e1, req_query req = q → run_query req e0 = (r0, e1) → sends_only H q e0 e1) →
  _run_with_endpoint_retry_loop H q fmt t run_query endpoints errors e = (r, e') →
  sends_only H q e e'.
Proof.
  intros Hrun. revert errors e.
  induction endpoints as [|ep eps IH]; intros errors e; simpl.
  - destruct (last errors); intros [= <- <-]; apply sends_only_refl.
  - destruct (run_query _ e) as [[err|v] e1] eqn:E; intros Hl.
    + eapply sends_only_trans; [eapply Hrun; [|exact E]; done | eapply IH, Hl].
    + injection Hl as <- <-. eapply Hrun; [|exact E]; done.
Qed.

Lemma _run_raw_json_sends self q e r e' :
  _run_raw_json H self q e = (r, e') → sends_only H q e e'.
Proof.
  unfold _run_raw_json, _run_with_endpoint_retry. apply retry_loop_sends.
  intros req e0 r0 e1 <-.
  destruct (String.eqb (_query_type (req_query req)) "DESCRIBE").
  - destruct (send H req e0) as [[err|reply] e2] eqn:E.
    + intros [= <- <-]. by eapply send_sends.
    + intros [= <- <-]. by eapply send_sends.
  - apply send_sends.
Qed.

Lemma _run_construct_sends self q e r e' :
  _run_construct H self q e = (r, e') → sends_only H q e e'.
Proof.
  unfold _run_construct, _run_with_endpoint_retry. apply retry_loop_sends.
  intros req e0 r0 e1 <-.
  destruct (send H req e0) as [[err|reply] e2] eqn:E; intros [= <- <-]; by eapply send_sends.
Qed.

(** What [execute_candidate] appends, case by case. *)
Lemma execute_candidate_rejected self uq q e reason :
  _validate_query self q (Some (_query_type q)) = (false, reason) →
  execute_candidate H self uq q e =
    ({| query := q; query_type := _query_type q; preview := EmptyString;
        score := 0; error := reason |}, e).
Proof. intros Hv. unfold execute_candidate. by rewrite Hv. Qed.

Lemma execute_candidate_query self uq q e :
  query (execute_candidate H self uq q e).1 = q.
Proof.
  unfold execute_candidate.
  destruct (_validate_query _ _ _) as [[] reason]; simpl; [|done].
  match goal with |- context [let '(_, _) := ?X in _] => destruct X as [[err|[p s]] e'] end;
    done.
Qed.

Lemma execute_candidate_error self uq q e :
  error (execute_candidate H self uq q e).1 ≠ None →
  score (execute_candidate H self uq q e).1 = 0%Q
  ∧ preview (execute_candidate H self uq q e).1 = EmptyString.
Proof.
  unfold execute_candidate.
  destruct (_validate_query _ _ _) as [[] reason]; simpl; [|done].
  match goal with |- context [let '(_, _) := ?X in _] => destruct X as [[err|[p s]] e'] end;
    simpl; done.
Qed.

Lemma execute_candidate_sends self uq q e :
  sends_only H q e (execute_candidate H self uq q e).2
  ∧ ((execute_candidate H self uq q e).2 = e
     ∨ (_validate_query self q (Some (_query_type q))).1 = true).
Proof.
  unfold execute_candidate.
  destruct (_validate_query _ _ _) as [[] reason]; simpl.
  2: { split; [apply sends_only_refl | by left]. }
  split; [|by right].
  destruct (bool_decide _).
  - destruct (_run_raw_json H self q e) as [[err|payload] e1] eqn:E; simpl;
      [|destruct (_score_json_payload _ _ _ _) as [?|[??]]]; simpl;
      by eapply _run_raw_json_sends.
  - destruct (_run_construct H self q e) as [[err|payload] e1] eqn:E; simpl;
      [|destruct (_score_construct_payload self payload uq) as [??]]; simpl;
      by eapply _run_construct_sends.
Qed.

Lemma execute_sparql_batch_loop_acc self uq cs ev e :
  (execute_sparql_batch_loop H self uq cs ev e).1 =
    ev ++ (execute_sparql_batch_loop H self uq cs [] e).1
  ∧ (execute_sparql_batch_loop H self uq cs ev e).2 =
    (execute_sparql_batch_loop H self uq cs [] e).2.
Proof.
  revert ev e. induction cs as [|q cs IH]; intros ev e; simpl.
  - by rewrite app_nil_r.
  - destruct (execute_candidate H self uq q e) as [item e1].
    destruct (IH (ev ++ [item]) e1) as [-> ->].
    destruct (IH [item] e1) as [-> ->].
    by rewrite <- app_assoc.
Qed.

Lemma execute_sparql_batch_cons self q cs uq e :
  execute_sparql_batch H self (q :: cs) uq e =
    let '(item, e1) := execute_candidate H self uq q e in
    let '(items, e2) := execute_sparql_batch H self cs uq e1 in
    (item :: items, e2).
Proof.
  unfold execute_sparql_batch. simpl.
  destruct (execute_candidate H self uq q e) as [item e1].
  pose proof (execute_sparql_batch_loop_acc self uq cs [item] e1) as [E1 E2].
  destruct (execute_sparql_batch_loop H self uq cs [item] e1) as [a b].
  destruct (execute_sparql_batch_loop H self uq cs [] e1) as [c d].
  simpl in *. by subst.
Qed.
End Driver.

(** ** The matcher against the language of a pattern *)

Module ReFacts.
Import Py Re Lang.


Lemma last_or_app pv m1 m2 : last_or pv (m1 ++ m2) = last_or (last_or pv m1) m2.
Proof.
  unfold last_or. destruct m2 as [|c m2 _] using rev_ind.
  - by rewrite app_nil_r.
  - by rewrite app_assoc, !last_snoc.
Qed.


Lemma moved_app st m1 st1 m2 st2 :
  moved st m1 st1 → moved st1 m2 st2 → moved st (m1 ++ m2) st2.
Proof.
  intros (E1 & P1 & G1) (E2 & P2 & G2). repeat split.
  - by rewrite E1, E2, app_assoc.
  - by rewrite last_or_app, <- P1.
  - congruence.
Qed.

Lemma moved_eta st m st' :
  moved st m st' → st' = MState (last_or (prev st) m) (drop (length m) (rest st)) (group1 st).
Proof.
  intros (E & P & G). destruct st' as [pv' l' g']; simpl in *.
  by rewrite E, drop_app_length, P, G.
Qed.



Lemma spans_lookup p g pv l k st' :
  spans p g pv l !! k = Some st' ↔
  ∃ m, length m = k ∧ Forall (λ x, p x = true) m ∧ l = m ++ rest st'
       ∧ prev st' = last_or pv m ∧ group1 st' = g.
Proof.
  revert pv l. induction k as [|k IH]; intros pv l.
  - destruct l as [|c l]; simpl; (split;
      [ intros [= <-]; exists []; done
      | intros (m & Hm & _ & E & P & G); apply nil_length_inv in Hm; subst m;
        destruct st'; simpl in *; by subst ]).
  - destruct l as [|c l]; simpl.
    + split; [done|]. intros ([|x m] & Hm & _ & E & _); simplify_eq/=.
    + destruct (p c) eqn:Hc.
      * rewrite IH. split.
        -- intros (m & Hm & F & E & P & G). exists (c :: m). simpl.
           repeat split; [by f_equal | by constructor | by f_equal | | done].
           rewrite P. change (c :: m) with ([c] ++ m). by rewrite last_or_app.
        -- intros ([|x m] & Hm & F & E & P & G); simplify_eq/=.
           apply Forall_cons in F as [_ F]. exists m. repeat split; try done.
           rewrite P. change (x :: m) with ([x] ++ m). by rewrite last_or_app.
      * split; [done|]. intros ([|x m] & Hm & F & E & P & G); simplify_eq/=.
        apply Forall_cons in F as [F _]. congruence.
Qed.

Lemma elem_of_run_plain ic r st st' :
  plain r → st' ∈ run ic r st ↔ ∃ m, lang ic r m ∧ moved st m st'.
Proof.
  revert st st'. induction r as [| c | p | greedy least p | r1 IH1 r2 IH2 | r1 IH1 r2 IH2
                                 | r1 _ | | | | | r1 _]; intros st st' Hp;
    simpl in Hp; try done.
  - simpl. rewrite list_elem_of_singleton. split.
    + intros ->. exists []. done.
    + intros (m & -> & Hm). by rewrite (moved_eta _ _ _ Hm); destruct st.
  - simpl. destruct st as [pv [|x l] g]; simpl.
    + split; [by intros ?%elem_of_nil|]. intros (m & (x & -> & _) & E & _). done.
    + destruct (same_char ic c x) eqn:Hc.
      * rewrite list_elem_of_singleton. split.
        -- intros ->. exists [x]. split; [by exists x|done].
        -- intros (m & (y & -> & Hy) & Hm). rewrite (moved_eta _ _ _ Hm).
           destruct Hm as (E & _). simpl in *. by simplify_eq.
      * split; [by intros ?%elem_of_nil|].
        intros (m & (y & -> & Hy) & E & _). simpl in E. simplify_eq. congruence.
  - simpl. destruct st as [pv [|x l] g]; simpl.
    + split; [by intros ?%elem_of_nil|]. intros (m & (x & -> & _) & E & _). done.
    + destruct (p x) eqn:Hc.
      * rewrite list_elem_of_singleton. split.
        -- intros ->. exists [x]. split; [by exists x|done].
        -- intros (m & (y & -> & Hy) & Hm). rewrite (moved_eta _ _ _ Hm).
           destruct Hm as (E & _). simpl in *. by simplify_eq.
      * split; [by intros ?%elem_of_nil|].
        intros (m & (y & -> & Hy) & E & _). simpl in E. simplify_eq. congruence.
  - simpl.
    assert (st' ∈ drop least (spans p (group1 st) (prev st) (rest st)) ↔
            ∃ m, (Forall (λ x, p x = true) m ∧ least ≤ length m) ∧ moved st m st') as Hd.
    { rewrite list_elem_of_lookup. split.
      - intros (i & Hi). rewrite lookup_drop in Hi.
        apply spans_lookup in Hi as (m & Hm & F & E & P & G).
        exists m. repeat split; try done. lia.
      - intros (m & (F & Hl) & E & P & G). exists (length m - least).
        rewrite lookup_drop. apply spans_lookup. exists m.
        repeat split; try done. lia. }
    destruct greedy; [rewrite elem_of_reverse|]; exact Hd.
  - destruct Hp as [Hp1 Hp2]. simpl. rewrite list_elem_of_bind. split.
    + intros (st1 & H2 & H1). apply IH1 in H1 as (m1 & L1 & M1); [|done].
      apply IH2 in H2 as (m2 & L2 & M2); [|done].
      exists (m1 ++ m2). split; [by exists m1, m2 | by eapply moved_app].
    + intros (m & (m1 & m2 & -> & L1 & L2) & Hm).
      pose (st1 := MState (last_or (prev st) m1) (drop (length m1) (rest st)) (group1 st)).
      assert (moved st m1 st1) as M1.
      { destruct Hm as (E & P & G). repeat split; simpl.
        by rewrite E, <- app_assoc, drop_app_length. }
      assert (moved st1 m2 st') as M2.
      { destruct Hm as (E & P & G). repeat split; simpl.
        - by rewrite E, <- app_assoc, drop_app_length.
        - by rewrite P, last_or_app.
        - done. }
      exists st1. split; [apply IH2; [done|by exists m2] | apply IH1; [done|by exists m1]].
  - destruct Hp as [Hp1 Hp2]. simpl. rewrite elem_of_app, IH1, IH2 by done. split.
    + intros [(m & L & M)|(m & L & M)]; exists m; split; auto.
    + intros (m & [L|L] & M); [left|right]; by exists m.
Qed.

End ReFacts.

Module CharFacts.
Import Py Re Lang.



Lemma isword_lower_char x : isword (lower_char x) = isword x.
Proof. each_char x; reflexivity. Qed.

Lemma isspace_lower_char x : isspace (lower_char x) = isspace x.
Proof. each_char x; reflexivity. Qed.

Lemma upper_of_lower_letter x :
  between 97 122 (ord (lower_char x)) = true →
  upper_char x = chr (ord (lower_char x) - 32) ∧ isword x = true ∧ isspace x = false.
Proof. each_char x; intros Hx; try discriminate Hx; repeat split; reflexivity. Qed.

(** A character that is no letter is matched by itself alone. *)
Lemma lower_char_eq_self c x :
  ascii_letter c = false → between 0 127 (ord c) = true →
  lower_char c = lower_char x → x = c.
Proof.
  intros H1 H2 H3.
  assert (lower_char c = c) as Hc by (revert H1 H2; each_char c; intros; first [done|discriminate]).
  rewrite Hc in H3. subst c. revert H1 H2.
  each_char x; intros; first [reflexivity|discriminate].
Qed.

End CharFacts.

(** ** The validator against its rules *)


Module RuleFacts.
Import Py Re Lang ReFacts CharFacts Rules.

Lemma chars_text l : chars (text l) = l.
Proof. apply list_ascii_of_string_of_list_ascii. Qed.

Lemma text_chars s : text (chars s) = s.
Proof. apply string_of_list_ascii_of_string. Qed.

Lemma length_chars s : length (chars s) = String.length s.
Proof. induction s; simpl; by f_equal. Qed.

(** *** Words *)

Lemma lang_letters l m :
  lang true (foldr (λ c r, Cat (Lit c) r) Eps l) m ↔ lower_char <$> m = lower_char <$> l.
Proof.
  revert m. induction l as [|c l IH]; intros m; simpl.
  - split; [by intros ->|]. by intros ->%fmap_nil_inv.
  - split.
    + intros (m1 & m2 & -> & (x & -> & Hx) & Hm). apply IH in Hm.
      apply bool_decide_eq_true in Hx. change ([x] ++ m2) with (x :: m2).
      rewrite !fmap_cons. by f_equal.
    + destruct m as [|x m]; [done|]. rewrite !fmap_cons. intros [= Hx Hm].
      exists [x], m. split; [done|]. split; [|by apply IH].
      exists x. split; [done|]. by apply bool_decide_eq_true.
Qed.

Lemma lang_Word w m : lang true (Word w) m ↔ ci_eq m w.
Proof. apply lang_letters. Qed.

Lemma plain_Word w : plain (Word w).
Proof. unfold Word. induction (chars w); simpl; auto. Qed.

Lemma ci_eq_head m w :
  ci_eq m w → from_option isword false (head m) = from_option isword false (head (chars w)).
Proof.
  unfold ci_eq. destruct m as [|x m], (chars w) as [|c l]; try done. simpl.
  intros [= Hx _]. by rewrite <- (isword_lower_char x), Hx, isword_lower_char.
Qed.

Lemma ci_eq_last m w :
  ci_eq m w → from_option isword false (last m) = from_option isword false (last (chars w)).
Proof.
  unfold ci_eq. destruct m as [|x m _] using rev_ind;
    destruct (chars w) as [|c l _] using rev_ind; try done.
  - intros E. apply (f_equal length) in E. rewrite fmap_app, length_app in E. simpl in E. lia.
  - intros E. apply (f_equal length) in E. rewrite fmap_app, length_app in E. simpl in E. lia.
  - rewrite !fmap_app, !last_snoc. simpl. intros [_ [= Hx]]%app_inj_2; [|done].
    by rewrite <- (isword_lower_char x), Hx, isword_lower_char.
Qed.

Lemma ci_eq_head_space m w c :
  ci_eq m w → head (chars w) = Some c → isspace c = false →
  ∃ x m', m = x :: m' ∧ isspace x = false ∧ lower_char x = lower_char c.
Proof.
  unfold ci_eq. destruct m as [|x m], (chars w) as [|c' l]; try done. simpl.
  intros [= Hx _] [= ->] Hc. exists x, m. repeat split; [|done].
  by rewrite <- (isspace_lower_char x), Hx, isspace_lower_char.
Qed.


Lemma upper_of_capital x c :
  between 65 90 (ord c) = true → lower_char x = lower_char c → upper_char x = c.
Proof.
  intros Hc Hx.
  assert (between 97 122 (ord (lower_char c)) = true ∧ chr (ord (lower_char c) - 32) = c)
    as [H1 H2] by (revert Hc; each_char c; intros; first [done|discriminate]).
  rewrite <- Hx in H1. apply upper_of_lower_letter in H1 as (-> & _). by rewrite Hx.
Qed.

Lemma ci_eq_upper m w : capitals w → ci_eq m w → upper (text m) = w.
Proof.
  unfold capitals, ci_eq, upper. rewrite chars_text. intros Hw E.
  rewrite <- (text_chars w). f_equal. revert m E.
  induction Hw as [|c l Hc _ IH]; intros [|x m]; try done. simpl.
  intros [= Hx Hm]. f_equal; [by apply upper_of_capital | by apply IH].
Qed.

(** *** The combinators with assertions and the group *)

Lemma elem_of_run_Cat ic r1 r2 st st2 :
  st2 ∈ run ic (Cat r1 r2) st ↔ ∃ st1, st1 ∈ run ic r1 st ∧ st2 ∈ run ic r2 st1.
Proof.
  simpl. rewrite list_elem_of_bind. split; intros (st1 & ? & ?); by exists st1.
Qed.

Lemma elem_of_run_Boundary ic st st' :
  st' ∈ run ic Boundary st ↔ st' = st ∧ xorb (word_before st) (word_after st) = true.
Proof.
  simpl. destruct (xorb _ _).
  - rewrite list_elem_of_singleton. by split; [|intros []].
  - rewrite elem_of_nil. by split; [|intros []].
Qed.

Lemma elem_of_run_Bos ic st st' :
  st' ∈ run ic Bos st ↔ st' = st ∧ prev st = None.
Proof.
  simpl. destruct (prev st).
  - rewrite elem_of_nil. by split; [|intros []].
  - rewrite list_elem_of_singleton. by split; [|intros []].
Qed.

Lemma consumed_moved st m st' : rest st = m ++ rest st' → consumed st st' = m.
Proof.
  intros E. unfold consumed. rewrite E, length_app.
  replace (length m + length (rest st') - length (rest st')) with (length m) by lia.
  by rewrite take_app_length.
Qed.

Lemma elem_of_run_Group ic r st st' :
  plain r →
  st' ∈ run ic (Group r) st ↔
  ∃ m, lang ic r m ∧ rest st = m ++ rest st' ∧ prev st' = last_or (prev st) m
       ∧ group1 st' = Some m.
Proof.
  intros Hp. simpl. rewrite list_elem_of_fmap. split.
  - intros (st1 & -> & (m & L & E & P & G)%elem_of_run_plain); [|done]. simpl.
    exists m. by rewrite (consumed_moved _ _ _ E).
  - intros (m & L & E & P & G).
    exists (MState (prev st') (rest st') (group1 st)). split.
    + simpl. rewrite (consumed_moved st m); [|done]. destruct st'; simpl in *. by subst.
    + apply elem_of_run_plain; [done|]. by exists m.
Qed.


(** *** [search] *)

Lemma search_from_is_Some p pv l :
  is_Some (search_from p pv l) ↔
  ∃ pre post, l = pre ++ post ∧ is_Some (match_at p (last_or pv pre) post).
Proof.
  revert pv. induction l as [|c l IH]; intros pv; cbn [search_from].
  - destruct (match_at p pv []) eqn:E.
    + split; [|by eauto]. intros _. exists [], []. split; [done|].
      change (last_or pv []) with pv. by rewrite E.
    + split; [by intros [? [=]]|]. intros (pre & post & E' & Hm).
      symmetry in E'. apply app_eq_nil in E' as [-> ->].
      change (last_or pv []) with pv in Hm. rewrite E in Hm. by destruct Hm.
  - destruct (match_at p pv (c :: l)) eqn:E.
    + split; [|by eauto]. intros _. exists [], (c :: l). split; [done|].
      change (last_or pv []) with pv. by rewrite E.
    + rewrite IH. split.
      * intros (pre & post & -> & Hm). exists (c :: pre), post. split; [done|].
        change (c :: pre) with ([c] ++ pre). by rewrite last_or_app.
      * intros ([|x pre] & post & E' & Hm).
        -- simpl in E'. subst post. change (last_or pv []) with pv in Hm.
           rewrite E in Hm. by destruct Hm.
        -- injection E' as <- ->. exists pre, post. split; [done|].
           change (c :: pre) with ([c] ++ pre) in Hm. by rewrite last_or_app in Hm.
Qed.

Lemma match_at_is_Some p pv l :
  is_Some (match_at p pv l) ↔ ∃ st, st ∈ run (ignorecase p) (expr p) (MState pv l None).
Proof.
  unfold match_at. destruct (run _ _ _) as [|st l']; simpl.
  - split; [by intros [? [=]]|]. by intros (? & ?%elem_of_nil).
  - split; [|by eauto]. intros _. exists st. by left.
Qed.


Lemma bounded_match_at ic r pv l :
  plain r →
  is_Some (match_at (Pattern (bounded r) ic) pv l) ↔
  ∃ m post, l = m ++ post ∧ lang ic r m
            ∧ xorb (isw pv) (isw (head l)) = true
            ∧ xorb (isw (last_or pv m)) (isw (head post)) = true.
Proof.
  intros Hp. rewrite match_at_is_Some. unfold bounded. simpl expr. simpl ignorecase. split.
  - intros (st & (st1 & (-> & B1)%elem_of_run_Boundary
                 & (st2 & (m & L & E & P & G)%elem_of_run_Group
                        & (-> & B2)%elem_of_run_Boundary)%elem_of_run_Cat)%elem_of_run_Cat);
      [|done].
    simpl in *. exists m, (rest st2). repeat split; try done.
    unfold word_before, word_after in B2. by rewrite P in B2.
  - intros (m & post & -> & L & B1 & B2).
    exists (MState (last_or pv m) post (Some m)).
    apply elem_of_run_Cat. eexists. split; [by apply elem_of_run_Boundary|].
    apply elem_of_run_Cat. exists (MState (last_or pv m) post (Some m)). split.
    + apply elem_of_run_Group; [done|]. by exists m.
    + by apply elem_of_run_Boundary.
Qed.

Lemma last_or_None pre : last_or None pre = last pre.
Proof. unfold last_or. by destruct (last pre). Qed.

Lemma bounded_search ic r q :
  plain r →
  is_Some (search (Pattern (bounded r) ic) q) ↔
  ∃ pre m post, chars q = pre ++ m ++ post ∧ lang ic r m
                ∧ xorb (isw (last pre)) (isw (head (m ++ post))) = true
                ∧ xorb (isw (last_or (last pre) m)) (isw (head post)) = true.
Proof.
  intros Hp. unfold search. rewrite search_from_is_Some. split.
  - intros (pre & l & E & (m & post & -> & L & B1 & B2)%bounded_match_at); [|done].
    rewrite last_or_None in *. by exists pre, m, post.
  - intros (pre & m & post & E & L & B1 & B2). exists pre, (m ++ post). split; [done|].
    apply bounded_match_at; [done|]. rewrite last_or_None. by exists m, post.
Qed.


Lemma wordy_search ic r q :
  plain r → wordy ic r →
  is_Some (search (Pattern (bounded r) ic) q) ↔
  ∃ pre m post, chars q = pre ++ m ++ post ∧ no_word_before pre ∧ lang ic r m
                ∧ no_word_after post.
Proof.
  intros Hp Hw. rewrite bounded_search by done. unfold no_word_before, no_word_after.
  split; intros (pre & m & post & E & H1 & H2 & H3).
  - destruct (Hw m H1) as [Hh Hl]. exists pre, m, post.
    assert (head (m ++ post) = head m) as Eh by (destruct m; [done|done]).
    assert (last_or (last pre) m = last m) as El
      by (unfold last_or; destruct m using rev_ind; [done|by rewrite last_snoc]).
    rewrite Eh, El in *. unfold isw in *. rewrite Hh in H2. rewrite Hl in H3.
    repeat split; try done.
    + by destruct (from_option isword false (last pre)).
    + by destruct (from_option isword false (head post)).
  - destruct (Hw m H2) as [Hh Hl]. exists pre, m, post.
    assert (head (m ++ post) = head m) as Eh by (destruct m; [done|done]).
    assert (last_or (last pre) m = last m) as El
      by (unfold last_or; destruct m using rev_ind; [done|by rewrite last_snoc]).
    rewrite Eh, El. unfold isw in *. by rewrite Hh, Hl, H1, H3.
Qed.

(** *** Alternations of words *)

Lemma lang_Alts ic r rs m :
  lang ic (Alts r rs) m ↔ lang ic r m ∨ ∃ r', r' ∈ rs ∧ lang ic r' m.
Proof.
  revert r. induction rs as [|r' rs IH]; intros r; simpl.
  - split; [by left|]. intros [?|(? & ?%elem_of_nil & _)]; done.
  - rewrite IH. split.
    + intros [?|[?|(r2 & ? & ?)]]; [by left | right; exists r'; split; [left|done]
                                   | right; exists r2; split; [by right|done]].
    + intros [?|(r2 & [->|?]%elem_of_cons & ?)]; [by left | by right; left |].
      right; right. by exists r2.
Qed.

Lemma plain_Alts r rs : plain r → Forall plain rs → plain (Alts r rs).
Proof.
  intros Hr Hrs. revert r Hr. induction Hrs as [|r' rs H' _ IH]; intros r Hr; simpl; auto.
Qed.

Lemma lang_words K Ks m :
  lang true (Alts (Word K) (Word <$> Ks)) m ↔ ∃ K', K' ∈ K :: Ks ∧ ci_eq m K'.
Proof.
  rewrite lang_Alts, lang_Word. split.
  - intros [?|(r' & (K' & -> & ?)%list_elem_of_fmap & ?%lang_Word)].
    + exists K. split; [left|done].
    + exists K'. split; [by right|done].
  - intros (K' & [->|?]%elem_of_cons & ?); [by left|].
    right. exists (Word K'). split; [by apply list_elem_of_fmap_2 | by apply lang_Word].
Qed.

Lemma plain_words K Ks : plain (Alts (Word K) (Word <$> Ks)).
Proof.
  apply plain_Alts; [apply plain_Word|]. apply Forall_fmap, Forall_forall.
  intros ? _. apply plain_Word.
Qed.

(** *** The forbidden operations *)

Lemma lang_Spaces m : lang true Spaces m ↔ spaces m.
Proof. simpl. unfold spaces. split; [by intros []|]. intros ?. split; [done|lia]. Qed.

Lemma ci_eq_brace m : ci_eq m "{" ↔ m = chars "{".
Proof.
  unfold ci_eq. split; [|by intros ->].
  destruct m as [|x [|y m]]; try done. simpl. intros [= Hx].
  f_equal. by apply (lower_char_eq_self "{"%char).
Qed.

Lemma lang_values_http m : lang true values_http m ↔ values_fragment m.
Proof.
  unfold values_http, values_fragment. cbn [lang]. split.
  - intros (v & m1 & -> & Hv%lang_Word & w1 & m2 & -> & H1%lang_Spaces
            & b & m3 & -> & Hb%lang_Word & w2 & h & -> & H2%lang_Spaces
            & Hh%lang_Word).
    apply (proj1 (ci_eq_brace b)) in Hb. subst b. by exists v, w1, w2, h.
  - intros (v & w1 & w2 & h & -> & Hv & H1 & H2 & Hh).
    exists v, (w1 ++ chars "{" ++ w2 ++ h). split; [done|]. split; [by apply lang_Word|].
    exists w1, (chars "{" ++ w2 ++ h). split; [done|]. split; [by apply lang_Spaces|].
    exists (chars "{"), (w2 ++ h). split; [done|]. split; [by apply lang_Word, (proj2 (ci_eq_brace _))|].
    exists w2, h. split; [done|]. split; [by apply lang_Spaces | by apply lang_Word].
Qed.


Lemma FORBIDDEN_QUERY_RE_bounded :
  FORBIDDEN_QUERY_RE = Pattern (bounded forbidden_alternation) true.
Proof. reflexivity. Qed.

Lemma plain_values_http : plain values_http.
Proof. unfold values_http. cbn [plain]. repeat split; first [apply plain_Word | done]. Qed.

Lemma plain_forbidden : plain forbidden_alternation.
Proof.
  apply plain_Alts; [apply plain_Word|]. apply Forall_app. split.
  - apply Forall_fmap, Forall_forall. intros ? _. apply plain_Word.
  - constructor; [apply plain_values_http | constructor].
Qed.

Lemma lang_forbidden m :
  lang true forbidden_alternation m ↔
  (∃ K, K ∈ FORBIDDEN_WORDS ∧ ci_eq m K) ∨ values_fragment m.
Proof.
  unfold forbidden_alternation. rewrite lang_Alts. split.
  - intros [?%lang_Word|(r' & [(K & -> & ?)%list_elem_of_fmap | ->%list_elem_of_singleton]%elem_of_app & L)].
    + left. exists "INSERT". split; [left|done].
    + left. exists K. split; [by right | by apply lang_Word].
    + right. by apply lang_values_http.
  - intros [(K & [->|HK]%elem_of_cons & E)|Hv].
    + left. by apply lang_Word.
    + right. exists (Word K). split; [|by apply lang_Word].
      apply elem_of_app. left. by apply list_elem_of_fmap_2.
    + right. exists values_http. split; [|by apply lang_values_http].
      apply elem_of_app. right. by left.
Qed.

Lemma word_ends K m :
  ci_eq m K →
  isw (head (chars K)) = true → isw (last (chars K)) = true →
  isw (head m) = true ∧ isw (last m) = true.
Proof.
  intros E Hh Hl. unfold isw in *. by rewrite (ci_eq_head _ _ E), (ci_eq_last _ _ E).
Qed.

Lemma wordy_forbidden : wordy true forbidden_alternation.
Proof.
  intros m [(K & HK & E)|(v & w1 & w2 & h & -> & Hv & _ & _ & Hh)]%lang_forbidden.
  - apply (word_ends K); [done| |];
      unfold FORBIDDEN_WORDS in HK;
      repeat (apply elem_of_cons in HK as [->|HK]; [reflexivity|]);
      by apply elem_of_nil in HK.
  - pose proof (ci_eq_head _ _ Hv) as H1. pose proof (ci_eq_last _ _ Hh) as H2.
    split.
    + destruct v; [discriminate Hv | exact H1].
    + rewrite !app_assoc, last_app. unfold isw in H2.
      destruct (last h); [done|discriminate H2].
Qed.

Lemma search_forbidden q :
  is_Some (search FORBIDDEN_QUERY_RE q) ↔ contains_forbidden q.
Proof.
  rewrite FORBIDDEN_QUERY_RE_bounded, wordy_search
    by auto using plain_forbidden, wordy_forbidden.
  unfold contains_forbidden, contains_bounded.
  split; intros (pre & m & post & E & H1 & H2 & H3); exists pre, m, post;
    repeat split; try done; by apply lang_forbidden.
Qed.

(** *** Containment up to case *)

Lemma contains_chars_spec p l :
  contains_chars p l = true ↔ ∃ pre post, l = pre ++ p ++ post.
Proof.
  induction l as [|c l IH]; simpl.
  - rewrite orb_false_r, bool_decide_eq_true. split.
    + intros [k E]. by exists [], k.
    + intros (pre & post & E). destruct pre; [by exists post|done].
  - rewrite orb_true_iff, bool_decide_eq_true, IH. split.
    + intros [[k E]|(pre & post & ->)]; [by exists [], k | by exists (c :: pre), post].
    + intros ([|x pre] & post & E); [left; by exists post|].
      injection E as -> ->. right. by exists pre, post.
Qed.

Lemma contains_lower w q :
  contains (lower w) (lower q) = true ↔ contains_ci w q.
Proof.
  unfold contains, lower, contains_ci, ci_eq. rewrite !chars_text, contains_chars_spec. split.
  - intros (pre' & post' & E).
    apply fmap_app_inv in E as (pre & rest & -> & E' & ->).
    symmetry in E'. apply fmap_app_inv in E' as (m & post & E1 & -> & ->).
    by exists pre, m, post.
  - intros (pre & m & post & -> & <-).
    exists (lower_char <$> pre), (lower_char <$> post). by rewrite !fmap_app.
Qed.

(** *** The type of a query *)



Lemma QUERY_TYPE_RE_expr :
  expr QUERY_TYPE_RE = Cat Bos (Cat Spaces (Cat (Group keyword_alternation) Boundary)).
Proof. reflexivity. Qed.

Lemma keyword_ends K m :
  K ∈ QUERY_KEYWORDS → ci_eq m K → isw (head m) = true ∧ isw (last m) = true.
Proof.
  intros HK E. apply (word_ends K); [done| |];
    unfold QUERY_KEYWORDS in HK;
    repeat (apply elem_of_cons in HK as [->|HK]; [reflexivity|]);
    by apply elem_of_nil in HK.
Qed.

Lemma keyword_capitals K : K ∈ QUERY_KEYWORDS → capitals K.
Proof.
  unfold QUERY_KEYWORDS. intros HK.
  repeat (apply elem_of_cons in HK as [->|HK];
          [unfold capitals; simpl; repeat constructor|]).
  by apply elem_of_nil in HK.
Qed.

Lemma query_type_run q st :
  st ∈ run true (expr QUERY_TYPE_RE) (MState None (chars q) None) ↔
  ∃ ws kw K,
    K ∈ QUERY_KEYWORDS ∧ ci_eq kw K ∧ spaces ws ∧ chars q = ws ++ kw ++ rest st
    ∧ group1 st = Some kw ∧ prev st = last kw ∧ no_word_after (rest st).
Proof.
  rewrite QUERY_TYPE_RE_expr. split.
  - intros (st0 & (-> & _)%elem_of_run_Bos
            & (st1 & (ws & Hws%lang_Spaces & E1 & P1 & G1)%elem_of_run_plain
                   & (st2 & (kw & (K & HK & Hkw)%lang_words & E2 & P2 & G2)%elem_of_run_Group
                          & (-> & B)%elem_of_run_Boundary)%elem_of_run_Cat)%elem_of_run_Cat
           )%elem_of_run_Cat; [|apply plain_words|done].
    simpl in *. destruct (keyword_ends K kw HK Hkw) as [Hh Hl].
    assert (prev st2 = last kw) as P.
    { rewrite P2. unfold last_or. unfold isw in Hl. by destruct (last kw). }
    exists ws, kw, K. repeat split; try done.
    + by rewrite E1, E2.
    + unfold word_before, word_after, no_word_after in *. rewrite P in B.
      unfold isw in Hl. rewrite Hl in B. by destruct (from_option isword false (head (rest st2))).
  - intros (ws & kw & K & HK & Hkw & Hws & E & G & P & B).
    destruct (keyword_ends K kw HK Hkw) as [Hh Hl].
    pose (st1 := MState (last_or None ws) (kw ++ rest st) None).
    apply elem_of_run_Cat. exists (MState None (chars q) None).
    split; [by apply elem_of_run_Bos|].
    apply elem_of_run_Cat. exists st1. split.
    { apply elem_of_run_plain; [done|]. exists ws. split; [by apply lang_Spaces|done]. }
    apply elem_of_run_Cat. exists st. split.
    + apply elem_of_run_Group; [apply plain_words|]. exists kw.
      split; [apply lang_words; by exists K|]. repeat split; try done.
      rewrite P. simpl. unfold last_or. unfold isw in Hl. by destruct (last kw).
    + apply elem_of_run_Boundary. split; [done|].
      unfold word_before, word_after, no_word_after in *. rewrite P, B.
      unfold isw in Hl. by rewrite Hl.
Qed.

Lemma spaces_prefix_unique ws1 ws2 x1 x2 t1 t2 :
  spaces ws1 → spaces ws2 → isspace x1 = false → isspace x2 = false →
  ws1 ++ x1 :: t1 = ws2 ++ x2 :: t2 → ws1 = ws2 ∧ x1 = x2.
Proof.
  intros H1. revert ws2. induction H1 as [|c ws1 Hc _ IH]; intros ws2 H2 N1 N2 E.
  - destruct H2 as [|c' ws2 Hc' _]; simpl in E; [by injection E|].
    injection E as -> _. congruence.
  - destruct H2 as [|c' ws2 Hc' H2]; simpl in E.
    + injection E as <- _. congruence.
    + injection E as <- E. destruct (IH ws2 H2 N1 N2 E) as [-> ->]. done.
Qed.

Lemma first_keyword_unique K1 K2 q :
  K1 ∈ QUERY_KEYWORDS → K2 ∈ QUERY_KEYWORDS →
  first_keyword K1 q → first_keyword K2 q → K1 = K2.
Proof.
  intros HK1 HK2 (ws1 & kw1 & post1 & E1 & S1 & C1 & _) (ws2 & kw2 & post2 & E2 & S2 & C2 & _).
  assert (∃ c1 c2, head (chars K1) = Some c1 ∧ head (chars K2) = Some c2
                   ∧ isspace c1 = false ∧ isspace c2 = false
                   ∧ (lower_char c1 = lower_char c2 → K1 = K2)) as (c1 & c2 & Hc1 & Hc2 & N1 & N2 & Huniq).
  { unfold QUERY_KEYWORDS in HK1, HK2.
    repeat (apply elem_of_cons in HK1 as [->|HK1]);
      [| | | |by apply elem_of_nil in HK1];
      (repeat (apply elem_of_cons in HK2 as [->|HK2]);
       [| | | |by apply elem_of_nil in HK2]);
      eexists _, _; (split; [reflexivity|]); (split; [reflexivity|]);
      (split; [reflexivity|]); (split; [reflexivity|]);
      first [by intros _ | intros [=]]. }
  destruct (ci_eq_head_space _ _ _ C1 Hc1 N1) as (x1 & t1 & -> & X1 & L1).
  destruct (ci_eq_head_space _ _ _ C2 Hc2 N2) as (x2 & t2 & -> & X2 & L2).
  rewrite E1 in E2. simpl in E2.
  destruct (spaces_prefix_unique _ _ _ _ _ _ S1 S2 X1 X2 E2) as [_ ->].
  apply Huniq. congruence.
Qed.

Lemma _query_type_spec q :
  (∃ K, K ∈ QUERY_KEYWORDS ∧ first_keyword K q ∧ _query_type q = K)
  ∨ ((∀ K, K ∈ QUERY_KEYWORDS → ¬ first_keyword K q) ∧ _query_type q = "UNKNOWN").
Proof.
  unfold _query_type, match_, match_at. simpl ignorecase.
  destruct (run true (expr QUERY_TYPE_RE) (MState None (chars q) None)) as [|st l] eqn:E.
  - right. split; [|done]. intros K HK (ws & kw & post & Eq & Hws & Hkw & Hpost).
    assert (MState (last kw) post (Some kw) ∈ run true (expr QUERY_TYPE_RE) (MState None (chars q) None))
      as Hin by (apply query_type_run; by exists ws, kw, K).
    rewrite E in Hin. by apply elem_of_nil in Hin.
  - left. assert (st ∈ run true (expr QUERY_TYPE_RE) (MState None (chars q) None))
      as (ws & kw & K & HK & Hkw & Hws & Eq & G & P & B)%query_type_run
      by (rewrite E; left).
    exists K. split; [done|]. split; [by exists ws, kw, (rest st)|].
    simpl. unfold group. rewrite G. simpl. apply ci_eq_upper; [by apply keyword_capitals|done].
Qed.

Lemma _query_type_keyword q K :
  K ∈ QUERY_KEYWORDS → _query_type q = K ↔ first_keyword K q.
Proof.
  intros HK. destruct (_query_type_spec q) as [(K' & HK' & F & E)|[N E]].
  - rewrite E. split; [by intros <-|]. intros F'. by apply (first_keyword_unique K' K q).
  - rewrite E. split; [|by intros ?%N].
    intros <-. unfold QUERY_KEYWORDS in HK.
    repeat (apply elem_of_cons in HK as [[=]|HK]). by apply elem_of_nil in HK.
Qed.

Lemma _query_type_cases q :
  _query_type q ∈ QUERY_KEYWORDS ∨ _query_type q = "UNKNOWN".
Proof.
  destruct (_query_type_spec q) as [(K & HK & _ & ->)|[_ ->]]; [by left | by right].
Qed.

Lemma _query_type_nonempty q : String.eqb (_query_type q) EmptyString = false.
Proof.
  destruct (_query_type_cases q) as [HK| ->]; [|done].
  unfold QUERY_KEYWORDS in HK.
  repeat (apply elem_of_cons in HK as [->|HK]; [done|]). by apply elem_of_nil in HK.
Qed.

(** *** The validator, rule by rule *)

Lemma allowed_types_elem self t :
  t ∈ (if allow_describe self
       then ({[ "SELECT"; "ASK"; "CONSTRUCT" ]} : gset string) ∪ {[ "DESCRIBE" ]}
       else {[ "SELECT"; "ASK"; "CONSTRUCT" ]})
  ↔ t ∈ allowed_keywords self.
Proof.
  unfold allowed_keywords. destruct (allow_describe self); simpl;
    rewrite ?elem_of_union, ?elem_of_singleton, ?elem_of_cons, ?elem_of_nil; tauto.
Qed.

Lemma allowed_keywords_query self : allowed_keywords self ⊆ QUERY_KEYWORDS.
Proof.
  unfold allowed_keywords, QUERY_KEYWORDS. intros K.
  destruct (allow_describe self); simpl;
    rewrite ?elem_of_cons, ?elem_of_nil; tauto.
Qed.

Lemma limit_types_elem t :
  t ∈ ({[ "SELECT"; "CONSTRUCT" ]} : gset string) ↔ t = "SELECT" ∨ t = "CONSTRUCT".
Proof. rewrite elem_of_union, !elem_of_singleton. tauto. Qed.

Lemma _validate_query_typed self q :
  _validate_query self q (Some (_query_type q)) = _validate_query self q None.
Proof. unfold _validate_query. by rewrite _query_type_nonempty. Qed.

(** The four checks in the order of the code. *)
Lemma _validate_query_checks self q :
  (_validate_query self q None).1 = true ↔
    (len q <= max_query_chars self)%Z
    ∧ _query_type q ∈ allowed_keywords self
    ∧ search FORBIDDEN_QUERY_RE q = None
    ∧ (_query_type q = "SELECT" ∨ _query_type q = "CONSTRUCT" →
       contains "limit" (lower q) = true).
Proof.
  unfold _validate_query.
  destruct (len q >? max_query_chars self)%Z eqn:Hlen.
  { simpl. split; [done|]. intros (? & _). apply Z.gtb_lt in Hlen. lia. }
  assert (len q <= max_query_chars self)%Z as Hle
    by (pose proof (Zgt_cases (len q) (max_query_chars self)) as Hc; by rewrite Hlen in Hc).
  cbv zeta. rewrite <- allowed_types_elem.
  set (allowed := if allow_describe self then _ else _).
  destruct (decide (_query_type q ∈ allowed)) as [Hin|Hout].
  2: { rewrite bool_decide_eq_false_2 by done. simpl. split; [done|]. by intros (_ & ? & _). }
  rewrite (bool_decide_eq_true_2 _ Hin). cbn [negb].
  destruct (search FORBIDDEN_QUERY_RE q) as [m|] eqn:Hs.
  { rewrite bool_decide_eq_true_2 by eauto. simpl. split; [done|]. by intros (_ & _ & ? & _). }
  rewrite bool_decide_eq_false_2 by (by intros [? [=]]).
  destruct (decide (_query_type q ∈ ({[ "SELECT"; "CONSTRUCT" ]} : gset string))) as [Hl|Hl].
  - rewrite (bool_decide_eq_true_2 _ Hl). apply limit_types_elem in Hl.
    destruct (contains "limit" (lower q)); simpl; split; try done.
    intros (_ & _ & _ & Hc). by specialize (Hc Hl).
  - rewrite (bool_decide_eq_false_2 _ Hl). simpl. split; [|done]. intros _.
    repeat split; try done. intros Hc%limit_types_elem. done.
Qed.

Lemma _validate_query_outcome self q t :
  (_validate_query self q t).1 = true ∧ (_validate_query self q t).2 = None
  ∨ (_validate_query self q t).1 = false ∧ is_Some (_validate_query self q t).2.
Proof.
  unfold _validate_query.
  repeat match goal with
         | |- context [if ?b then _ else _] => destruct b; simpl; eauto
         end.
Qed.

Lemma _validate_query_accepts self q :
  (_validate_query self q None).1 = true ↔ validator_rules self q.
Proof.
  rewrite _validate_query_checks. unfold validator_rules.
  pose proof (allowed_keywords_query self) as Hsub.
  assert (∀ K, K ∈ QUERY_KEYWORDS → _query_type q = K ↔ first_keyword K q) as Hty
    by (intros; by apply _query_type_keyword).
  assert ("SELECT" ∈ QUERY_KEYWORDS ∧ "CONSTRUCT" ∈ QUERY_KEYWORDS) as [HS HC]
    by (unfold QUERY_KEYWORDS; rewrite !elem_of_cons; tauto).
  rewrite <- (Hty _ HS), <- (Hty _ HC).
  change "limit" with (lower "limit") at 1. rewrite contains_lower.
  assert (search FORBIDDEN_QUERY_RE q = None ↔ ¬ contains_forbidden q) as ->.
  { rewrite <- search_forbidden. destruct (search _ _) as [m|].
    - split; [done|]. intros Hn. destruct Hn. by exists m.
    - split; [|done]. by intros _ [? [=]]. }
  assert (_query_type q ∈ allowed_keywords self ↔
          ∃ K, K ∈ allowed_keywords self ∧ first_keyword K q) as ->; [|done].
  split.
  - intros Hin. exists (_query_type q). split; [done|]. apply Hty; auto.
  - intros (K & HK & HF). apply Hty in HF; [|auto]. by rewrite HF.
Qed.

End RuleFacts.

Module WordFacts.
Import Py Re Lang Rules RuleFacts ReFacts CharFacts.


Lemma search_forbidden_words q :
  is_Some (search (Pattern (bounded forbidden_words_alternation) true) q) ↔
  contains_bounded FORBIDDEN_WORDS (λ _, False) q.
Proof.
  rewrite wordy_search.
  - unfold contains_bounded.
    split; intros (pre & m & post & E & H1 & H2 & H3); exists pre, m, post;
      repeat split; try done.
    + left. by apply lang_words in H2.
    + apply lang_words. by destruct H2.
  - apply plain_words.
  - intros m (K & HK & E)%lang_words.
    apply (word_ends K); [done| |];
      repeat (apply elem_of_cons in HK as [->|HK]; [reflexivity|]);
      by apply elem_of_nil in HK.
Qed.

Lemma search_token w q :
  isw (head (chars w)) = true → isw (last (chars w)) = true →
  is_Some (search (Pattern (bounded (Word w)) true) q) ↔ contains_token w q.
Proof.
  intros Hh Hl. rewrite wordy_search.
  - unfold contains_token.
    split; intros (pre & m & post & E & H1 & H2 & H3); exists pre, m, post;
      repeat split; try done; by apply lang_Word.
  - apply plain_Word.
  - intros m E%lang_Word. by apply (word_ends w).
Qed.

Lemma contains_forbidden_cases q :
  contains_forbidden q ↔
  contains_bounded FORBIDDEN_WORDS (λ _, False) q ∨ contains_bounded [] values_fragment q.
Proof.
  unfold contains_forbidden, contains_bounded. split.
  - intros (pre & m & post & E & H1 & [HK|Hf] & H3); [left | right];
      exists pre, m, post; repeat split; try done; first [by left | by right].
  - intros [(pre & m & post & E & H1 & [HK|[]] & H3)
           |(pre & m & post & E & H1 & [(K & []%elem_of_nil & _)|Hf] & H3)];
      exists pre, m, post; repeat split; try done; first [by left | by right].
Qed.

Lemma contains_bounded_fragment q :
  contains_bounded [] values_fragment q → contains_fragment q.
Proof.
  intros (pre & m & post & E & _ & [(K & []%elem_of_nil & _)|Hf] & _).
  by exists pre, m, post.
Qed.

Lemma contains_token_text w q : contains_token w q → contains_ci w q.
Proof. intros (pre & m & post & E & _ & Hm & _). by exists pre, m, post. Qed.

Lemma contains_fragment_values q : contains_fragment q → contains_ci "VALUES" q.
Proof.
  intros (pre & m & post & E & (v & w1 & w2 & h & -> & Hv & _)).
  exists pre, v, ((w1 ++ chars "{" ++ w2 ++ h) ++ post). split; [|done].
  by rewrite E, <- !app_assoc.
Qed.

(** With the fragment between word boundaries wherever it occurs, and
    [limit] a token wherever it occurs, the rules of the pattern are the
    rules with the fragment and the token as such. *)
Lemma validator_rules_spaced self q :
  fragment_is_bounded q → limit_is_a_token q →
  validator_rules self q ↔ spaced_rules self q.
Proof.
  intros Hf Hl. unfold validator_rules, spaced_rules.
  rewrite contains_forbidden_cases. split.
  - intros (H1 & H2 & H3 & H4). repeat split; try done.
    + intros ?. apply H3. by left.
    + intros ?. apply H3. right. by apply Hf.
    + intros Ht. by apply Hl, H4.
  - intros (H1 & H2 & [H3 H3'] & H4). repeat split; try done.
    + intros [?|?%contains_bounded_fragment]; done.
    + intros Ht. by apply contains_token_text, H4.
Qed.

Lemma spaced_rules_accepted self q : spaced_rules self q → validator_rules self q.
Proof.
  unfold validator_rules, spaced_rules. rewrite contains_forbidden_cases.
  intros (H1 & H2 & [H3 H3'] & H4). repeat split; try done.
  - intros [?|?%contains_bounded_fragment]; done.
  - intros Ht. by apply contains_token_text, H4.
Qed.

End WordFacts.

(** ** The claims about the validator *)

(** C1 (amended): the validator accepts every query that keeps the four
    rules, the fragment of the third one read with any whitespace, or
    none, between [VALUES], [{] and [<http]; a query it accepts keeps
    the first two rules and has none of the twelve words; and for a
    query in which the fragment, when it occurs, occurs between word
    boundaries at least once, and the text [limit], when it occurs,
    occurs as a token at least once, it accepts exactly when the four
    rules hold. Passing the type along, as [execute_sparql_batch] does,
    changes nothing. Queries are texts of characters below 256. *)
Theorem validator_accepts_iff_rules (self : SelfQueryLLM) (q : string) :
  (spaced_rules self q → (_validate_query self q None).1 = true)
  ∧ ((_validate_query self q None).1 = true →
     (len q <= max_query_chars self)%Z
     ∧ (∃ K, K ∈ allowed_keywords self ∧ first_keyword K q)
     ∧ ¬ contains_bounded FORBIDDEN_WORDS (λ _, False) q)
  ∧ (fragment_is_bounded q → limit_is_a_token q →
     ((_validate_query self q None).1 = true ↔ spaced_rules self q))
  ∧ _validate_query self q (Some (_query_type q)) = _validate_query self q None.
Proof.
  split; [|split; [|split]].
  - intros Hr. by apply RuleFacts._validate_query_accepts, WordFacts.spaced_rules_accepted.
  - intros (H1 & H2 & H3 & _)%RuleFacts._validate_query_accepts. repeat split; try done.
    intros Hw. apply H3, WordFacts.contains_forbidden_cases. by left.
  - intros Hf Hl. rewrite RuleFacts._validate_query_accepts.
    by apply WordFacts.validator_rules_spaced.
  - apply RuleFacts._validate_query_typed.
Qed.

Lemma validator_accepts_iff_rules_witness :
  fragment_is_bounded "SELECT ?s WHERE { ?s ?p ?o } LIMIT 10"
  ∧ limit_is_a_token "SELECT ?s WHERE { ?s ?p ?o } LIMIT 10"
  ∧ ((_validate_query (Examples.engine "http://localhost:7200/repositories/plant" true)
        "SELECT ?s WHERE { ?s ?p ?o } LIMIT 10" None).1 = true
     ↔ spaced_rules (Examples.engine "http://localhost:7200/repositories/plant" true)
         "SELECT ?s WHERE { ?s ?p ?o } LIMIT 10").
Proof.
  assert (fragment_is_bounded "SELECT ?s WHERE { ?s ?p ?o } LIMIT 10") as Hf.
  { intros Hc%WordFacts.contains_fragment_values.
    apply RuleFacts.contains_lower in Hc. by vm_compute in Hc. }
  assert (limit_is_a_token "SELECT ?s WHERE { ?s ?p ?o } LIMIT 10") as Hl.
  { intros _. apply WordFacts.search_token; [done | done | by vm_compute; eexists]. }
  split; [exact Hf|]. split; [exact Hl|].
  exact (proj1 (proj2 (proj2 (validator_accepts_iff_rules
           (Examples.engine "http://localhost:7200/repositories/plant" true)
           "SELECT ?s WHERE { ?s ?p ?o } LIMIT 10"))) Hf Hl).
Defined.

(** The validator on two queries outside the two conditions of C1: the
    closing word boundary of the pattern lets the fragment pass when a
    letter follows [<http], and the test for [limit] is a test for the
    text, which a longer word satisfies. *)
Lemma validator_passes_fragment_before_a_letter :
  contains_fragment "ASK WHERE { VALUES { <https://example.org/a> } }"
  ∧ _validate_query (Examples.engine "http://localhost:7200/repositories/plant" true)
      "ASK WHERE { VALUES { <https://example.org/a> } }" None
    = (true, None).
Proof.
  split; [|by vm_compute].
  exists (chars "ASK WHERE { "), (chars "VALUES { <http"), (chars "s://example.org/a> } }").
  split; [done|].
  exists (chars "VALUES"), (chars " "), (chars " "), (chars "<http").
  repeat split; try done; by repeat constructor.
Qed.

Lemma validator_passes_limit_inside_a_word :
  first_keyword "CONSTRUCT" "CONSTRUCT { ?s ?p ?unlimited } WHERE { ?s ?p ?unlimited }"
  ∧ ¬ contains_token "limit" "CONSTRUCT { ?s ?p ?unlimited } WHERE { ?s ?p ?unlimited }"
  ∧ _validate_query (Examples.engine "http://localhost:7200/repositories/plant" true)
      "CONSTRUCT { ?s ?p ?unlimited } WHERE { ?s ?p ?unlimited }" None
    = (true, None).
Proof.
  split; [|split; [|by vm_compute]].
  - apply RuleFacts._query_type_keyword; [set_solver | by vm_compute].
  - rewrite <- WordFacts.search_token by done. vm_compute. by intros [? [=]].
Qed.


(** C1 (counterexample): a query that keeps all four rules as stated,
    the fragment [VALUES { <http] does not occur in it, and that the
    validator rejects: the pattern allows no whitespace, too. *)
Lemma validator_rejects_fragment_without_spaces :
  stated_rules (Examples.engine "http://localhost:7200/repositories/plant" true)
    "ASK WHERE { VALUES{<http://example.org/a>} }"
  ∧ _validate_query (Examples.engine "http://localhost:7200/repositories/plant" true)
      "ASK WHERE { VALUES{<http://example.org/a>} }" None
    = (false, Some "Query contains forbidden operation").
Proof.
  split; [|by vm_compute].
  unfold stated_rules. repeat split.
  - by vm_compute.
  - exists "ASK". split; [set_solver|].
    apply RuleFacts._query_type_keyword; [set_solver | by vm_compute].
  - rewrite <- WordFacts.search_forbidden_words. vm_compute. by intros [? [=]].
  - rewrite <- RuleFacts.contains_lower. by vm_compute.
  - intros [F|F]; apply RuleFacts._query_type_keyword in F;
      first [set_solver | by vm_compute in F].
Qed.

(** X28: for a query of characters below 256, the validator accepts
    exactly when the query is no longer than [max_query_chars], begins,
    after any whitespace, with an allowed keyword that ends at a word
    boundary, has between word boundaries none of the twelve words and
    no [VALUES], [{], [<http] with any whitespace, or none, between
    them, and, when its keyword is SELECT or CONSTRUCT, has the text
    [limit] in it, in any case of the letters; it gives a reason exactly
    when it rejects. *)
Theorem validator_accepts_by_the_patterns (self : SelfQueryLLM) (q : string) :
  ((_validate_query self q None).1 = true ↔ validator_rules self q)
  ∧ ((_validate_query self q None).1 = true ∧ (_validate_query self q None).2 = None
     ∨ (_validate_query self q None).1 = false ∧ is_Some (_validate_query self q None).2).
Proof.
  split; [apply RuleFacts._validate_query_accepts | apply RuleFacts._validate_query_outcome].
Qed.

(** C9 (amended): with [allow_describe] off, a query whose first keyword
    is DESCRIBE is rejected; the reason names the allowed types in
    sorted order, and is the one about the length when the query is
    longer than [max_query_chars]. *)
Theorem describe_rejected_when_not_allowed (self : SelfQueryLLM) (q : string) :
  allow_describe self = false →
  first_keyword "DESCRIBE" q →
  _validate_query self q None =
    (false,
     Some (if (len q >? max_query_chars self)%Z
           then "Query exceeds max_query_chars (" +:+ str_of_int (max_query_chars self) +:+ ")"
           else "Only ASK, CONSTRUCT, SELECT are allowed")).
Proof.
  intros Hd Hf. apply RuleFacts._query_type_keyword in Hf; [|set_solver].
  unfold _validate_query. rewrite Hd, Hf.
  destruct (len q >? max_query_chars self)%Z; [done|]. by vm_compute.
Qed.

Lemma describe_rejected_when_not_allowed_witness :
  allow_describe (Examples.engine "http://localhost:7200/repositories/plant" false) = false
  ∧ first_keyword "DESCRIBE" "DESCRIBE <http://example.org/a>"
  ∧ _validate_query (Examples.engine "http://localhost:7200/repositories/plant" false)
      "DESCRIBE <http://example.org/a>" None
    = (false, Some "Only ASK, CONSTRUCT, SELECT are allowed").
Proof.
  assert (first_keyword "DESCRIBE" "DESCRIBE <http://example.org/a>") as Hf.
  { exists [], (chars "DESCRIBE"), (chars " <http://example.org/a>").
    repeat split. constructor. }
  split; [reflexivity|]. split; [exact Hf|].
  exact (describe_rejected_when_not_allowed
           (Examples.engine "http://localhost:7200/repositories/plant" false)
           "DESCRIBE <http://example.org/a>" eq_refl Hf).
Defined.

(** C9 (counterexample): the reason is not the text the claim quotes. *)
Lemma describe_reason_is_not_the_quoted_text :
  allow_describe (Examples.engine "http://localhost:7200/repositories/plant" false) = false
  ∧ first_keyword "DESCRIBE" "DESCRIBE <http://example.org/a>"
  ∧ (_validate_query (Examples.engine "http://localhost:7200/repositories/plant" false)
       "DESCRIBE <http://example.org/a>" None).2
    ≠ Some "only SELECT, ASK, CONSTRUCT are allowed".
Proof.
  split; [reflexivity|]. split.
  - exists [], (chars "DESCRIBE"), (chars " <http://example.org/a>").
    repeat split. constructor.
  - by vm_compute.
Qed.

(** ** The batch *)

Section Batch.
Variable H : Host.

Lemma execute_sparql_batch_queries self cs uq e :
  query <$> (execute_sparql_batch H self cs uq e).1 = cs.
Proof.
  revert e. induction cs as [|q cs IH]; intros e; [done|].
  rewrite execute_sparql_batch_cons.
  pose proof (execute_candidate_query H self uq q e) as Hq.
  destruct (execute_candidate H self uq q e) as [item e1].
  specialize (IH e1). destruct (execute_sparql_batch H self cs uq e1) as [items e2].
  cbn [fst] in *. by rewrite fmap_cons, Hq, IH.
Qed.


Lemma execute_sparql_batch_items self cs uq e :
  Forall (from_candidate H self uq cs) (execute_sparql_batch H self cs uq e).1.
Proof.
  revert e. induction cs as [|q cs IH]; intros e; [by constructor|].
  rewrite execute_sparql_batch_cons.
  destruct (execute_candidate H self uq q e) as [item e1] eqn:E.
  specialize (IH e1). destruct (execute_sparql_batch H self cs uq e1) as [items e2].
  simpl in *. constructor.
  - exists q, e. split; [left | by rewrite E].
  - eapply Forall_impl; [exact IH|]. intros x (q' & e' & Hq' & ->).
    exists q', e'. split; [by right | done].
Qed.

Lemma execute_sparql_batch_rejected self cs uq e i q :
  cs !! i = Some q → (_validate_query self q None).1 = false →
  (execute_sparql_batch H self cs uq e).1 !! i =
    Some {| query := q; query_type := _query_type q; preview := EmptyString;
            score := 0; error := (_validate_query self q None).2 |}.
Proof.
  revert e i. induction cs as [|q' cs IH]; intros e i Hi Hv; [done|].
  rewrite execute_sparql_batch_cons.
  destruct (execute_candidate H self uq q' e) as [item e1] eqn:E.
  specialize (IH e1). destruct (execute_sparql_batch H self cs uq e1) as [items e2].
  destruct i as [|i]; simpl in *.
  - injection Hi as ->. f_equal.
    rewrite (execute_candidate_rejected H self uq q e (_validate_query self q None).2) in E.
    + by injection E as <- _.
    + rewrite RuleFacts._validate_query_typed. destruct (_validate_query self q None).
      simpl in *. by subst.
  - by apply IH.
Qed.

Lemma execute_sparql_batch_sends self cs uq e :
  ∃ sent,
    requests H (execute_sparql_batch H self cs uq e).2 = requests H e ++ sent
    ∧ Forall (λ r, req_query r ∈ cs ∧ (_validate_query self (req_query r) None).1 = true) sent.
Proof.
  revert e. induction cs as [|q cs IH]; intros e.
  - exists []. by rewrite app_nil_r.
  - rewrite execute_sparql_batch_cons.
    pose proof (execute_candidate_sends H self uq q e) as [(s1 & E1 & F1) Hq].
    destruct (execute_candidate H self uq q e) as [item e1].
    destruct (IH e1) as (s2 & E2 & F2).
    destruct (execute_sparql_batch H self cs uq e1) as [items e2]. simpl in *.
    exists (s1 ++ s2). split; [by rewrite E2, E1, app_assoc|].
    apply Forall_app. split.
    + destruct Hq as [->|Hq].
      * apply (f_equal length) in E1. rewrite length_app in E1.
        destruct s1; [constructor | simpl in E1; lia].
      * rewrite RuleFacts._validate_query_typed in Hq.
        eapply Forall_impl; [exact F1|]. intros r ->. split; [left | done].
    + eapply Forall_impl; [exact F2|]. intros r [? ?]. split; [by right | done].
Qed.

End Batch.

(** C10: the batch returns one record per candidate, in the order of the
    candidates, and the record at a position carries the candidate at
    that position; rejections and endpoint failures make no difference. *)
Theorem execute_sparql_batch_keeps_candidates (H : Host) (self : SelfQueryLLM)
    (candidates : list string) (user_query : string) (e : env H) :
  query <$> (execute_sparql_batch H self candidates user_query e).1 = candidates
  ∧ length (execute_sparql_batch H self candidates user_query e).1 = length candidates
  ∧ ∀ i, query <$> ((execute_sparql_batch H self candidates user_query e).1 !! i)
         = candidates !! i.
Proof.
  pose proof (execute_sparql_batch_queries H self candidates user_query e) as Hq.
  split; [done|]. split.
  - by rewrite <- Hq at 2; rewrite length_fmap.
  - intros i. by rewrite <- list_lookup_fmap, Hq.
Qed.

(** C2: a candidate that fails validation is recorded with the reason the
    validator gave and score 0; every request the batch sends carries a
    candidate that the validator accepts, so a rejected candidate is
    never sent, and what is sent keeps all the validator's rules. *)
Theorem rejected_candidates_are_recorded_not_sent (H : Host) (self : SelfQueryLLM)
    (candidates : list string) (user_query : string) (e : env H) :
  (∀ i q, candidates !! i = Some q → (_validate_query self q None).1 = false →
     is_Some (_validate_query self q None).2
     ∧ (execute_sparql_batch H self candidates user_query e).1 !! i =
         Some {| query := q; query_type := _query_type q; preview := EmptyString;
                 score := 0; error := (_validate_query self q None).2 |})
  ∧ ∃ sent,
      requests H (execute_sparql_batch H self candidates user_query e).2
        = requests H e ++ sent
      ∧ (∀ r, r ∈ sent →
           req_query r ∈ candidates
           ∧ _validate_query self (req_query r) None = (true, None)
           ∧ validator_rules self (req_query r))
      ∧ (∀ q r, q ∈ candidates → (_validate_query self q None).1 = false →
           r ∈ sent → req_query r ≠ q).
Proof.
  split.
  - intros i q Hi Hv. split; [|by apply execute_sparql_batch_rejected].
    destruct (RuleFacts._validate_query_outcome self q None) as [[? _]|[_ ?]];
      [congruence | done].
  - destruct (execute_sparql_batch_sends H self candidates user_query e) as (sent & E & F).
    exists sent. split; [done|]. rewrite Forall_forall in F. split.
    + intros r Hr. destruct (F r Hr) as [Hin Hv].
      split; [done|]. split; [|by apply RuleFacts._validate_query_accepts].
      destruct (RuleFacts._validate_query_outcome self (req_query r) None) as [[? ?]|[? _]];
        [|congruence].
      destruct (_validate_query self (req_query r) None). simpl in *. by subst.
    + intros q r _ Hq Hr <-. destruct (F r Hr) as [_ Hv]. congruence.
Qed.

(** ** The loop of [process] *)

Section Process.
Variable H : Host.



Lemma slice_to_elem {A} (n : Z) (l : list A) x : x ∈ slice_to n l → x ∈ l.
Proof.
  unfold slice_to. destruct (n <? 0)%Z; intros Hx; by eapply subseteq_take.
Qed.

Lemma insert_by_score_elem x y l : x ∈ insert_by_score y l ↔ x = y ∨ x ∈ l.
Proof.
  induction l as [|z l IH]; simpl.
  - rewrite list_elem_of_singleton, elem_of_nil. tauto.
  - destruct (Qlt_le_dec (score y) (score z)).
    + rewrite !elem_of_cons, IH. tauto.
    + rewrite !elem_of_cons. tauto.
Qed.

Lemma sorted_by_score_elem x l : x ∈ sorted_by_score l ↔ x ∈ l.
Proof.
  unfold sorted_by_score. induction l as [|y l IH]; simpl; [done|].
  by rewrite insert_by_score_elem, elem_of_cons, IH.
Qed.

Lemma merge_new_inv prev cands seen merged :
  NoDup (_normalize_query <$> (prev ++ merged)) →
  (∀ q, q ∈ prev ++ merged → _normalize_query q ∈ seen) →
  NoDup (_normalize_query <$> (prev ++ (merge_new cands seen merged).1))
  ∧ (∀ q, q ∈ prev ++ (merge_new cands seen merged).1 →
       _normalize_query q ∈ (merge_new cands seen merged).2)
  ∧ (∀ q, q ∈ (merge_new cands seen merged).1 →
       q ∈ merged ∨ (q ∈ cands ∧ _normalize_query q ∉ seen)).
Proof.
  revert seen merged. induction cands as [|c cands IH]; intros seen merged Hnd Hseen; simpl.
  - repeat split; try done. by left.
  - destruct (decide (_normalize_query c ∈ seen)) as [Hin|Hout].
    + destruct (IH seen merged Hnd Hseen) as (I1 & I2 & I3). repeat split; try done.
      intros q [?|[? ?]]%I3; [by left | right; split; [by right | done]].
    + destruct (IH ({[_normalize_query c]} ∪ seen) (merged ++ [c])) as (I1 & I2 & I3).
      * rewrite app_assoc, fmap_app. simpl. apply NoDup_app. split; [done|].
        split; [|apply NoDup_singleton].
        intros n Hn ->%list_elem_of_singleton. apply Hout.
        apply list_elem_of_fmap in Hn as (q & -> & Hq). by apply Hseen.
      * intros q. rewrite app_assoc, elem_of_app, list_elem_of_singleton.
        intros [Hq| ->]; [apply elem_of_union_r; by apply Hseen | apply elem_of_union_l].
        by apply elem_of_singleton.
      * repeat split; try done.
        intros q [[?| ->%list_elem_of_singleton]%elem_of_app|[? Hq]]%I3.
        -- by left.
        -- right. split; [left | done].
        -- right. split; [by right|]. intros ?. apply Hq. by apply elem_of_union_r.
Qed.

Lemma execute_sparql_batch_gathered self cs uq e :
  Forall (gathered H uq) (execute_sparql_batch H self cs uq e).1.
Proof.
  eapply Forall_impl; [apply execute_sparql_batch_items|].
  intros x (q & e' & _ & ->). by exists self, q, e'.
Qed.

Lemma process_loop_inv self m uq sm ttl start its v e :
  loop_inv H uq v → loop_inv H uq (process_loop H self m uq sm ttl start its v e).1.
Proof.
  revert v e. induction its as [|it its IH]; intros v e Hv; simpl; [done|].
  destruct (_global_budget_reached H self start it e) as [[] e1]; [exact Hv|].
  unfold _plan_iteration_candidates.
  destruct (generate_sparql_candidates H self m uq sm ttl _ it e1) as [planned e2].
  destruct Hv as (Hev & Hnd & Hseen & Hq).
  destruct (merge_new_inv (all_candidates v) planned (seen_queries v) [])
    as (A1 & A2 & _); [by rewrite app_nil_r..|].
  destruct (merge_new planned (seen_queries v) []) as [merged1 seen1].
  destruct (merge_new_inv (all_candidates v)
              (if enable_lexical_search self then _build_lexical_candidates self uq else [])
              seen1 merged1) as (B1 & B2 & _); [done..|].
  destruct (merge_new _ seen1 merged1) as [merged seen]. cbn [fst snd] in *.
  destruct merged as [|c merged'].
  { simpl. rewrite app_nil_r in *. done. }
  unfold _execute_iteration_candidates.
  pose proof (execute_sparql_batch_gathered self (c :: merged') uq e2) as Hg.
  pose proof (execute_sparql_batch_queries H self (c :: merged') uq e2) as Hbq.
  destruct (execute_sparql_batch H self (c :: merged') uq e2) as [found e3].
  cbn [fst] in *.
  assert (loop_inv H uq
            {| all_candidates := all_candidates v ++ c :: merged';
               all_evidence := all_evidence v ++ found;
               seen_queries := seen;
               best_score := (_evaluate_early_stop self (all_evidence v ++ found)
                                (best_score v) it).2;
               loop_stop_reason := loop_stop_reason v;
               loop_iterations_used := it |}) as Hnext.
  { repeat split; simpl; try done.
    - by apply Forall_app.
    - by rewrite fmap_app, Hq, Hbq. }
  destruct (_evaluate_early_stop self _ _ it) as [[] best] eqn:Es; simpl in *.
  - destruct Hnext as (N1 & N2 & N3 & N4). repeat split; done.
  - by apply IH.
Qed.

Lemma process_loop_start uq :
  loop_inv H uq {| all_candidates := []; all_evidence := []; seen_queries := ∅;
                 best_score := 0; loop_stop_reason := "max_iterations";
                 loop_iterations_used := 0 |}.
Proof.
  split; [constructor|]. split; [constructor|]. split; [|done].
  by intros q ?%elem_of_nil.
Qed.

(** What [process] returns, in terms of the variables of its loop. *)
Lemma process_result self m uq e :
  ∃ v, loop_inv H uq v
       ∧ queries (process H self m uq e).1.1 = all_candidates v
       ∧ evidence (process H self m uq e).1.1
         = slice_to (top_k (process H self m uq e).1.2) (sorted_by_score (all_evidence v)).
Proof.
  unfold process.
  destruct (now H e) as [start e1].
  destruct (_load_schema_context H self e1) as [[[sm ttl] self1] e2].
  pose proof (process_loop_inv self1 m uq sm ttl start (seqZ 1 (max_iterations self1)) _ e2
                (process_loop_start uq)) as Hinv.
  destruct (process_loop H self1 m uq sm ttl start _ _ e2) as [v e3].
  exists v. done.
Qed.


Lemma process_evidence_gathered self m uq e item :
  item ∈ evidence (process H self m uq e).1.1 → gathered H uq item.
Proof.
  destruct (process_result self m uq e) as (v & Hinv & _ & E).
  destruct Hinv as (Hev & _). rewrite E.
  intros Hin%slice_to_elem. apply (proj1 (sorted_by_score_elem _ _)) in Hin.
  rewrite Forall_forall in Hev. by apply Hev.
Qed.

End Process.

(** ** The claims about the loop, the evidence and the planner *)

Lemma merge_new_skips (cands : list string) (seen : gset string) (merged : list string) q :
  q ∈ (merge_new cands seen merged).1 →
  q ∈ merged ∨ (q ∈ cands ∧ _normalize_query q ∉ seen).
Proof.
  revert seen merged. induction cands as [|c cands IH]; intros seen merged; simpl; [by left|].
  destruct (decide (_normalize_query c ∈ seen)) as [Hin|Hout].
  - intros [?|[? ?]]%IH; [by left | right; split; [by right | done]].
  - intros [[?| ->%list_elem_of_singleton]%elem_of_app|[? Hq]]%IH.
    + by left.
    + right. split; [left | done].
    + right. split; [by right|]. intros ?. apply Hq. by apply elem_of_union_r.
Qed.

(** C4: an evidence record with an error has score 0 and an empty
    preview, whether it comes out of a batch or out of [process]. *)
Theorem error_evidence_is_blank (H : Host) (self : SelfQueryLLM) (user_query : string)
    (item : QueryEvidence) :
  (∃ candidates e, item ∈ (execute_sparql_batch H self candidates user_query e).1)
  ∨ (∃ model_id e, item ∈ evidence (process H self model_id user_query e).1.1) →
  error item ≠ None →
  score item = 0%Q ∧ preview item = EmptyString.
Proof.
  intros Hfrom Herr.
  assert (gathered H user_query item) as (self' & q & e' & ->).
  { destruct Hfrom as [(cs & e & Hin)|(m & e & Hin)].
    - pose proof (execute_sparql_batch_gathered H self cs user_query e) as Hg.
      rewrite Forall_forall in Hg. by apply Hg.
    - by eapply process_evidence_gathered. }
  by apply execute_candidate_error.
Qed.

Lemma error_evidence_is_blank_witness :
  let item :=
    {| query := "SELECT ?s WHERE { ?s ?p ?o }"; query_type := "SELECT";
       preview := EmptyString; score := 0;
       error := Some "Row/graph returning query must include LIMIT" |} in
  item ∈ (execute_sparql_batch Examples.offline
            (Examples.engine "http://localhost:7200/repositories/plant" true)
            ["SELECT ?s WHERE { ?s ?p ?o }"] "which pumps feed the mixer"
            (Build_env Examples.offline tt [])).1
  ∧ error item ≠ None
  ∧ score item = 0%Q ∧ preview item = EmptyString.
Proof.
  intros item.
  assert (item ∈ (execute_sparql_batch Examples.offline
                    (Examples.engine "http://localhost:7200/repositories/plant" true)
                    ["SELECT ?s WHERE { ?s ?p ?o }"] "which pumps feed the mixer"
                    (Build_env Examples.offline tt [])).1) as Hin
    by (vm_compute; left).
  assert (error item ≠ None) as Herr by discriminate.
  split; [exact Hin|]. split; [exact Herr|].
  apply (error_evidence_is_blank Examples.offline
           (Examples.engine "http://localhost:7200/repositories/plant" true)
           "which pumps feed the mixer" item); [|exact Herr].
  left. eexists _, _. exact Hin.
Defined.


(** C5: when the planner call fails, [generate_sparql_candidates] returns
    the one fallback query in iteration 1, built from the escaped
    question and [max_rows], and nothing in any other iteration. *)
Theorem planner_failure_falls_back (H : Host) (self : SelfQueryLLM)
    (model_id user_query schema_metadata schema_ttl loop_context : string)
    (iteration : Z) (e : env H) :
  planner_failed H
    (call_planner H self model_id
       (build_query_prompt self user_query schema_metadata schema_ttl loop_context iteration)
       e).1 →
  (generate_sparql_candidates H self model_id user_query schema_metadata schema_ttl
     loop_context iteration e).1
  = if (iteration =? 1)%Z
    then ["SELECT ?s ?p ?o WHERE { ?s ?p ?o . FILTER(CONTAINS(LCASE(STR(?s)), LCASE('"
          +:+ _escape_literal user_query
          +:+ "')) || CONTAINS(LCASE(STR(?o)), LCASE('"
          +:+ _escape_literal user_query
          +:+ "'))) } LIMIT " +:+ str_of_int (max_rows self)]
    else [].
Proof.
  unfold generate_sparql_candidates.
  destruct (call_planner H self model_id _ e) as [outcome e'].
  cbn [fst]. destruct outcome as [| err | content]; simpl; intros Hf;
    [| | rewrite Hf]; by destruct (iteration =? 1)%Z.
Qed.

Lemma planner_failure_falls_back_witness :
  planner_failed Examples.offline
    (call_planner Examples.offline
       (Examples.engine "http://localhost:7200/repositories/plant" true) "planner-model"
       (build_query_prompt (Examples.engine "http://localhost:7200/repositories/plant" true)
          "what's a pump" "{}" EmptyString EmptyString 1)
       (Build_env Examples.offline tt [])).1
  ∧ (generate_sparql_candidates Examples.offline
       (Examples.engine "http://localhost:7200/repositories/plant" true) "planner-model"
       "what's a pump" "{}" EmptyString EmptyString 1 (Build_env Examples.offline tt [])).1
    = ["SELECT ?s ?p ?o WHERE { ?s ?p ?o . FILTER(CONTAINS(LCASE(STR(?s)), LCASE('what\'s a pump')) || CONTAINS(LCASE(STR(?o)), LCASE('what\'s a pump'))) } LIMIT 100"].
Proof.
  assert (planner_failed Examples.offline
            (call_planner Examples.offline
               (Examples.engine "http://localhost:7200/repositories/plant" true) "planner-model"
               (build_query_prompt (Examples.engine "http://localhost:7200/repositories/plant" true)
                  "what's a pump" "{}" EmptyString EmptyString 1)
               (Build_env Examples.offline tt [])).1) as Hf by exact I.
  split; [exact Hf|].
  exact (planner_failure_falls_back Examples.offline
           (Examples.engine "http://localhost:7200/repositories/plant" true) "planner-model"
           "what's a pump" "{}" EmptyString EmptyString 1 (Build_env Examples.offline tt []) Hf).
Defined.

(** ** The scorer *)

Module ScoreFacts.


Lemma fmin_unit x : (0 <= x)%Q → unit_interval (fmin 1 x).
Proof.
  intros Hx. unfold fmin, unit_interval. destruct (Qlt_le_dec x 1) as [Hlt|Hge].
  - split; [done | by apply Qlt_le_weak].
  - split; [done | apply Qle_refl].
Qed.

Lemma fmax_unit a b : unit_interval a → unit_interval b → unit_interval (fmax a b).
Proof. intros Ha Hb. unfold fmax. by destruct (Qlt_le_dec a b). Qed.

Lemma inject_nat_nonneg (n : nat) : (0 <= inject_Z (Z.of_nat n))%Q.
Proof. change 0%Q with (inject_Z 0). rewrite <- Zle_Qle. lia. Qed.

Lemma bounded_score_unit count cap hits : unit_interval (bounded_score count cap hits).
Proof.
  unfold bounded_score. apply fmin_unit.
  assert (0 < inject_Z (Z.max 1 cap))%Q as Hcap
    by (change 0%Q with (inject_Z 0); rewrite <- Zlt_Qlt; lia).
  apply (Qplus_le_compat 0 _ 0).
  - apply Qle_shift_div_l; [done|]. rewrite Qmult_0_l. apply inject_nat_nonneg.
  - apply Qmult_le_0_compat; [apply inject_nat_nonneg | done].
Qed.

Lemma _score_construct_payload_score self turtle uq :
  ∃ count hits, (_score_construct_payload self turtle uq).2 = bounded_score count (max_triples self) hits.
Proof. unfold _score_construct_payload. cbv zeta. simpl. eauto. Qed.

Section Json.
Variable H : Host.

(** The score [_score_json_payload] gives, branch by branch. *)
Lemma _score_json_payload_score self payload uq p s :
  _score_json_payload H self payload uq = inr (p, s) →
  s = 1%Q ∨ s = (2 # 10)%Q
  ∨ ∃ count hits,
      (Dyn.has_key "_describe_score" payload = false
       ∧ s = bounded_score count (max_rows self) hits)
      ∨ ∃ d x,
          Dyn.has_key "_describe_score" payload = true
          ∧ Dyn.get payload "_describe_score" (PFloat 0) = inr d ∧ float H d = inr x
          ∧ s = fmax (bounded_score count (max_rows self) hits) x.
Proof.
  unfold _score_json_payload. cbv zeta.
  destruct (Dyn.get payload "results" (PDict [])) as [?|results]; [done|]. cbn [ebind].
  destruct (Dyn.get results "bindings" (PList [])) as [?|bindings]; [done|]. cbn [ebind].
  destruct (negb (Dyn.truthy bindings) && Dyn.has_key "boolean" payload).
  - destruct (Dyn.get payload "boolean" PNone) as [?|boolean]; [done|]. cbn [ebind].
    destruct (Dyn.truthy boolean); intros [= _ <-]; auto.
  - destruct (Dyn.iter_slice_to (max_rows self) bindings) as [?|rows]; [done|]. cbn [ebind].
    match goal with |- context [efold ?f rows ?a] => destruct (efold f rows a) as [?|[lines hits]] end;
      [done|]. cbn [ebind].
    destruct (Dyn.has_key "_describe_score" payload) eqn:Hk.
    + destruct (Dyn.get payload "_describe_score" (PFloat 0)) as [?|d] eqn:Hd; [done|].
      cbn [ebind]. destruct (float H d) as [?|x] eqn:Hx; [done|]. cbn [ebind].
      intros [= _ <-]. right. right. exists (length lines), hits. right. by exists d, x.
    + intros [= _ <-]. right. right. exists (length lines), hits. by left.
Qed.

Lemma _score_json_payload_rated self payload uq p s :
  rated H payload → _score_json_payload H self payload uq = inr (p, s) → unit_interval s.
Proof.
  intros Hr Hs. apply _score_json_payload_score in Hs.
  destruct Hs as [Hs|[Hs|(count & hits & [[_ Hs]|(d & x & Hk & Hd & Hx & Hs)])]]; subst.
  - by split.
  - by split.
  - apply bounded_score_unit.
  - apply fmax_unit; [apply bounded_score_unit|]. by eapply Hr.
Qed.

Lemma describe_payload_rated self turtle : rated H (describe_payload self turtle).
Proof.
  intros d x _ Hd Hx. unfold describe_payload in Hd.
  destruct (_score_construct_payload_score self turtle EmptyString) as (c & h & Hs).
  destruct (_score_construct_payload self turtle EmptyString) as [pv sc].
  simpl in Hd, Hs. injection Hd as <-. simpl in Hx. injection Hx as <-. subst sc.
  apply bounded_score_unit.
Qed.

Lemma retry_loop_result {A} (P : A → Prop) q fmt t
    (run_query : request → env H → result A * env H) endpoints errors e v e' :
  (∀ req e0 v0 e1, req_format req = fmt → run_query req e0 = (inr v0, e1) → P v0) →
  _run_with_endpoint_retry_loop H q fmt t run_query endpoints errors e = (inr v, e') → P v.
Proof.
  intros Hrun. revert errors e.
  induction endpoints as [|ep eps IH]; intros errors e; simpl.
  - by destruct (last errors).
  - destruct (run_query _ e) as [[err|v0] e1] eqn:E.
    + apply IH.
    + intros [= <- <-]. eapply Hrun; [|exact E]. done.
Qed.

Lemma _run_raw_json_rated self q e payload e' :
  rated_replies H → _run_raw_json H self q e = (inr payload, e') → rated H payload.
Proof.
  intros Hrep. unfold _run_raw_json, _run_with_endpoint_retry.
  apply retry_loop_result. intros req e0 v0 e1 Hfmt.
  destruct (String.eqb (_query_type q) "DESCRIBE").
  - destruct (send H req e0) as [[err|reply] e2]; [done|].
    intros [= <- <-]. apply describe_payload_rated.
  - unfold send. destruct (sparql H req (world H e0)) as [reply w] eqn:E.
    intros [= -> <-]. by eapply Hrep.
Qed.

Lemma execute_candidate_rated self uq q e :
  rated_replies H → unit_interval (score (execute_candidate H self uq q e).1).
Proof.
  intros Hrep. unfold execute_candidate.
  destruct (_validate_query _ _ _) as [[] reason]; simpl; [|by split].
  destruct (bool_decide _).
  - destruct (_run_raw_json H self q e) as [[err|payload] e1] eqn:E; simpl; [by split|].
    destruct (_score_json_payload H self payload uq) as [err|[p s]] eqn:Es; simpl; [by split|].
    eapply _score_json_payload_rated; [|exact Es]. by eapply _run_raw_json_rated.
  - destruct (_run_construct H self q e) as [[err|payload] e1] eqn:E; simpl; [by split|].
    destruct (_score_construct_payload_score self payload uq) as (c & h & Hs).
    destruct (_score_construct_payload self payload uq) as [p s]. simpl in *. subst s.
    apply bounded_score_unit.
Qed.

End Json.
End ScoreFacts.

(** ** The claims about the scorer *)



(** C6 (amended): for a JSON payload with a [boolean] field and no
    binding, the scorer returns [ASK result: True] with score 1.0 when
    the field is true and [ASK result: False] with score 0.2 when it is
    false. *)
Theorem ask_answer_is_scored (H : Host) (self : SelfQueryLLM) (payload : pyval)
    (user_query : string) (b : bool) :
  has_boolean payload b →
  no_bindings payload →
  _score_json_payload H self payload user_query
  = inr (if b then ("ASK result: True", 1%Q) else ("ASK result: False", (2 # 10)%Q)).
Proof.
  intros (kv & -> & Hb) (results & bindings & Hr & Hbs & Hempty).
  unfold _score_json_payload. cbv zeta. rewrite Hr. cbn [ebind]. rewrite Hbs. cbn [ebind].
  rewrite Hempty. simpl. rewrite Hb. rewrite bool_decide_eq_true_2 by eauto.
  simpl. by destruct b.
Qed.

Lemma ask_answer_is_scored_witness :
  has_boolean (PDict [("head", PDict []); ("boolean", PBool true)]) true
  ∧ no_bindings (PDict [("head", PDict []); ("boolean", PBool true)])
  ∧ _score_json_payload Examples.offline
      (Examples.engine "http://localhost:7200/repositories/plant" true)
      (PDict [("head", PDict []); ("boolean", PBool true)]) "is the mixer a machine"
    = inr ("ASK result: True", 1%Q).
Proof.
  assert (has_boolean (PDict [("head", PDict []); ("boolean", PBool true)]) true) as Hb
    by (eexists; split; reflexivity).
  assert (no_bindings (PDict [("head", PDict []); ("boolean", PBool true)])) as Hn
    by (exists (PDict []), (PList []); repeat split).
  split; [exact Hb|]. split; [exact Hn|].
  exact (ask_answer_is_scored Examples.offline
           (Examples.engine "http://localhost:7200/repositories/plant" true)
           (PDict [("head", PDict []); ("boolean", PBool true)]) "is the mixer a machine"
           true Hb Hn).
Defined.

(** C6 (counterexample): a payload that has a true [boolean] field and
    a binding as well is scored by its rows, not as an ASK answer. *)
Lemma boolean_payload_with_bindings_is_scored_by_rows :
  has_boolean
    (PDict [("boolean", PBool true);
            ("results",
             PDict [("bindings",
                     PList [PDict [("s", PDict [("type", PStr "uri");
                                                ("value", PStr "http://example.org/a")])]])])])
    true
  ∧ ∃ p s,
      _score_json_payload Examples.offline
        (Examples.engine "http://localhost:7200/repositories/plant" true)
        (PDict [("boolean", PBool true);
                ("results",
                 PDict [("bindings",
                         PList [PDict [("s", PDict [("type", PStr "uri");
                                                    ("value", PStr "http://example.org/a")])]])])])
        "is the mixer a machine"
      = inr (p, s)
      ∧ p ≠ "ASK result: True" ∧ ¬ (s == 1)%Q.
Proof.
  split; [eexists; split; reflexivity|].
  eexists _, _. split; [by vm_compute|]. split; [by vm_compute|].
  vm_compute. discriminate.
Qed.

(** C7 (amended): every score the scorer assigns lies between 0 and 1:
    for Turtle text, and for a JSON payload whose [_describe_score],
    when it has one, reads as a number between 0 and 1, as it does in
    the payload the engine makes of a DESCRIBE answer; hence so does the
    score of every record of a batch, and of every record [process]
    returns, when the JSON answers of the endpoint are such payloads.
    Scores are exact rationals here. *)
Theorem scores_lie_in_unit_interval (H : Host) (self : SelfQueryLLM) (user_query : string) :
  (∀ turtle,
     unit_interval (_score_construct_payload self turtle user_query).2)
  ∧ (∀ payload p s,
       rated H payload →
       _score_json_payload H self payload user_query = inr (p, s) →
       unit_interval s)
  ∧ (∀ turtle, rated H (describe_payload self turtle))
  ∧ (rated_replies H →
     (∀ candidates e,
        Forall (λ item, unit_interval (score item))
          (execute_sparql_batch H self candidates user_query e).1)
     ∧ (∀ model_id e,
          Forall (λ item, unit_interval (score item))
            (evidence (process H self model_id user_query e).1.1))).
Proof.
  split; [|split; [|split]].
  - intros turtle.
    destruct (ScoreFacts._score_construct_payload_score self turtle user_query) as (c & h & ->).
    apply ScoreFacts.bounded_score_unit.
  - intros payload p s. apply ScoreFacts._score_json_payload_rated.
  - intros turtle. apply ScoreFacts.describe_payload_rated.
  - intros Hrep. split.
    + intros candidates e.
      eapply Forall_impl; [apply (execute_sparql_batch_gathered H self candidates user_query e)|].
      intros item (self' & q & e' & ->). by apply ScoreFacts.execute_candidate_rated.
    + intros model_id e. apply Forall_forall. intros item Hin.
      apply process_evidence_gathered in Hin as (self' & q & e' & ->).
      by apply ScoreFacts.execute_candidate_rated.
Qed.

Lemma scores_lie_in_unit_interval_witness :
  rated_replies Examples.recovering
  ∧ Forall (λ item, unit_interval (score item))
      [{| query := "SELECT ?s WHERE { ?s ?p ?o } LIMIT 10"; query_type := "SELECT";
          preview := "No rows returned"; score := fmin 1 (0 / 100 + 0 * (3 # 100));
          error := None |}].
Proof.
  assert (rated_replies Examples.recovering) as Hrep.
  { intros req [|w] payload w' Hfmt; simpl; [done|]. rewrite Hfmt.
    intros [= <- _] d x Hk. by vm_compute in Hk. }
  split; [exact Hrep|].
  exact (proj1 (proj2 (proj2 (proj2 (scores_lie_in_unit_interval Examples.recovering
            (Examples.engine "http://localhost:7200/repositories/plant" true)
            "which pumps feed the mixer"))) Hrep)
            ["SELECT ?s WHERE { ?s ?p ?o } LIMIT 10"]
            (Build_env Examples.recovering 1 [])).
Defined.

(** C7 (counterexample): a [_describe_score] in the JSON answer of the
    endpoint is taken as it is, after the cut at 1: a SELECT answer
    without rows that carries a [_describe_score] of 5 scores 5, and so
    does the record the batch keeps for it. *)
Lemma describe_score_of_an_answer_is_not_cut :
  (∃ p s,
     _score_json_payload Cases.overrating
       (Examples.engine "http://localhost:7200/repositories/plant" true)
       (PDict [("head", PDict [("vars", PList [PStr "s"])]);
               ("results", PDict [("bindings", PList [])]);
               ("_describe_score", PInt 5)])
       "which pumps feed the mixer"
     = inr (p, s)
     ∧ ¬ unit_interval s)
  ∧ ∃ item,
      (execute_sparql_batch Cases.overrating
         (Examples.engine "http://localhost:7200/repositories/plant" true)
         ["SELECT ?s WHERE { ?s ?p ?o } LIMIT 10"] "which pumps feed the mixer"
         (Build_env Cases.overrating tt [])).1 = [item]
      ∧ error item = None
      ∧ (score item == 5)%Q ∧ ¬ unit_interval (score item).
Proof.
  split.
  - eexists _, _. split; [by vm_compute|]. intros [_ Hle]. by vm_compute in Hle.
  - eexists. split; [by vm_compute|]. split; [done|]. split; [done|].
    intros [_ Hle]. by vm_compute in Hle.
Qed.

(** ** The schema cache *)

Section Cache.
Variable H : Host.

Lemma get_schema_metadata_cached self e s :
  _schema_metadata_cache self = Some s → get_schema_metadata H self e = (inr s, self, e).
Proof. intros Hc. unfold get_schema_metadata. by rewrite Hc. Qed.

(** A successful call leaves its result in the cache; a failed call
    leaves the engine as it was, with an empty cache. *)
Lemma get_schema_metadata_outcome self e :
  match get_schema_metadata H self e with
  | (inr s, self', _) => _schema_metadata_cache self' = Some s
  | (inl _, self', _) => self' = self ∧ _schema_metadata_cache self = None
  end.
Proof.
  unfold get_schema_metadata. destruct (_schema_metadata_cache self) as [s|] eqn:Hc; [done|].
  destruct (_run_select H self CLASSES_BODY CLASSES_PREFIX e) as [[err|classes] e1]; [done|].
  destruct (_run_select H self PROPERTIES_BODY PROPERTIES_PREFIX e1) as [[err|properties] e2];
    done.
Qed.

Lemma get_schema_ttl_keeps self e :
  _schema_metadata_cache (get_schema_ttl H self e).1.2 = _schema_metadata_cache self.
Proof.
  unfold get_schema_ttl. destruct (_schema_ttl_cache self); [done|].
  match goal with |- context [_run_construct H self ?q e] =>
    destruct (_run_construct H self q e) as [[err|ttl] e1] end; done.
Qed.

Lemma _load_schema_context_metadata self e :
  (∀ s, _schema_metadata_cache self = Some s →
     (_load_schema_context H self e).1.1.1 = s)
  ∧ (∀ s, _schema_metadata_cache (_load_schema_context H self e).1.2 = Some s →
       (_load_schema_context H self e).1.1.1 = s)
  ∧ (∀ s, _schema_metadata_cache self = Some s →
       _schema_metadata_cache (_load_schema_context H self e).1.2 = Some s).
Proof.
  unfold _load_schema_context.
  pose proof (get_schema_metadata_outcome self e) as Hout.
  pose proof (get_schema_metadata_cached self e) as Hhit.
  destruct (get_schema_metadata H self e) as [[fetched self1] e1].
  pose proof (get_schema_ttl_keeps self1 e1) as Httl.
  assert (∀ s, _schema_metadata_cache self = Some s → fetched = inr s ∧ self1 = self) as Hsame
    by (intros s Hs; specialize (Hhit s Hs); by injection Hhit as -> -> _).
  destruct (include_full_schema_ttl self1);
    [destruct (get_schema_ttl H self1 e1) as [[got self2] e2]|];
    cbn [fst snd] in *; rewrite ?Httl;
    (destruct fetched as [err|s0];
     [ destruct Hout as [-> Hnone]; rewrite Hnone; repeat split; intros s Hs;
       first [discriminate Hs | by destruct (Hsame s Hs)]
     | rewrite Hout; repeat split; intros s Hs;
       first [ by injection Hs
             | destruct (Hsame s Hs) as [[= ->] _]; done ] ]).
Qed.

Lemma process_schema_metadata self m uq e :
  schema_metadata (process H self m uq e).1.1
  = (_load_schema_context H self (now H e).2).1.1.1
  ∧ (process H self m uq e).1.2 = (_load_schema_context H self (now H e).2).1.2.
Proof.
  unfold process. destruct (now H e) as [start e1]. simpl.
  destruct (_load_schema_context H self e1) as [[[sm ttl] self1] e2]. simpl.
  destruct (process_loop H self1 m uq sm ttl start _ _ e2) as [v e3]. done.
Qed.

End Cache.

(** C8 (amended): once the schema metadata is in the cache, that is
    after a fetch that succeeded, every call of [get_schema_metadata]
    returns the cached text, leaves the engine as it is and sends
    nothing; a call that fails caches nothing; and when the first of two
    [process] calls leaves the cache filled, both return the same
    [schema_metadata] text. *)
Theorem schema_metadata_is_stable_once_cached (H : Host) (self : SelfQueryLLM) :
  (∀ e s, _schema_metadata_cache self = Some s →
          get_schema_metadata H self e = (inr s, self, e))
  ∧ (∀ e s self' e', get_schema_metadata H self e = (inr s, self', e') →
       ∀ e'', get_schema_metadata H self' e'' = (inr s, self', e''))
  ∧ (∀ e err self' e', get_schema_metadata H self e = (inl err, self', e') → self' = self)
  ∧ (∀ m1 q1 e1 m2 q2 e2 s,
       _schema_metadata_cache (process H self m1 q1 e1).1.2 = Some s →
       schema_metadata (process H self m1 q1 e1).1.1 = s
       ∧ schema_metadata (process H (process H self m1 q1 e1).1.2 m2 q2 e2).1.1 = s).
Proof.
  split; [|split; [|split]].
  - intros e s. apply get_schema_metadata_cached.
  - intros e s self' e' Hget e''. apply get_schema_metadata_cached.
    pose proof (get_schema_metadata_outcome H self e) as Hout. by rewrite Hget in Hout.
  - intros e err self' e' Hget.
    pose proof (get_schema_metadata_outcome H self e) as Hout. rewrite Hget in Hout.
    by destruct Hout.
  - intros m1 q1 e1 m2 q2 e2 s Hc.
    destruct (process_schema_metadata H self m1 q1 e1) as [E1 S1].
    destruct (process_schema_metadata H (process H self m1 q1 e1).1.2 m2 q2 e2) as [E2 _].
    rewrite E1, E2. rewrite S1 in Hc. split.
    + by apply (proj1 (proj2 (_load_schema_context_metadata H self _))).
    + apply (proj1 (_load_schema_context_metadata H _ _)). by rewrite S1.
Qed.

(** C8 (counterexample): the endpoint refuses the first request and
    answers the later ones; the first [process] call returns the
    metadata made up for the failure and caches nothing, the second one
    fetches and returns another text. *)
Lemma schema_metadata_differs_after_failed_fetch :
  let self := Examples.engine "http://localhost:7200/repositories/plant" true in
  let first := process Examples.recovering self "planner-model" "pump"
                 (Build_env Examples.recovering 0 []) in
  let second := process Examples.recovering first.1.2 "planner-model" "pump" first.2 in
  schema_metadata first.1.1
  = dumps Examples.recovering
      (PDict [("classes", PList []); ("properties", PList []);
              ("warning", PStr "<urlopen error [Errno 111] Connection refused>")])
  ∧ schema_metadata second.1.1
    = dumps Examples.recovering (PDict [("classes", PList []); ("properties", PList [])])
  ∧ schema_metadata first.1.1 ≠ schema_metadata second.1.1.
Proof. vm_compute. repeat split. discriminate. Qed.

(** ** The engine on the scenarios of the specification *)

Module Scenarios.
Import Examples.

Example query_type_of_lower_case_select :
  _query_type "  select ?s WHERE { ?s ?p ?o }" = "SELECT"
  ∧ _query_type "SELECTED ?s" = "UNKNOWN"
  ∧ _query_type "PREFIX owl: <http://www.w3.org/2002/07/owl#> ASK { ?s a owl:Class }"
    = "UNKNOWN".
Proof. by vm_compute. Qed.

Example normalize_collapses_whitespace_and_case :
  _normalize_query "  SELECT   ?s
   WHERE { ?s ?p ?o }  LIMIT 10 " = "select ?s where { ?s ?p ?o } limit 10".
Proof. by vm_compute. Qed.

Example select_without_limit_is_rejected :
  _validate_query (engine "http://localhost:7200/repositories/plant" true)
    "SELECT ?s WHERE { ?s ?p ?o }" None
  = (false, Some "Row/graph returning query must include LIMIT").
Proof. by vm_compute. Qed.

Example insert_is_rejected :
  _validate_query (engine "http://localhost:7200/repositories/plant" true)
    "SELECT ?s WHERE { ?s ?p ?o } LIMIT 10 INSERT DATA {}" None
  = (false, Some "Query contains forbidden operation").
Proof. by vm_compute. Qed.

Example https_fragment_is_accepted :
  _validate_query (engine "http://localhost:7200/repositories/plant" true)
    "ASK WHERE { VALUES { <https://example.org/a> } }" None
  = (true, None).
Proof. by vm_compute. Qed.

Example docker_endpoint_has_two_candidates :
  _endpoint_candidates (engine "http://host.docker.internal:7200/x" true)
  = ["http://host.docker.internal:7200/x"; "http://172.17.0.1:7200/x"].
Proof. by vm_compute. Qed.

Example ask_probe :
  let r := (process asking (plain_engine 1) "planner-model" "is there anything"
              (Build_env asking 0 [])).1.1 in
  (λ item, (query item, preview item, error item)) <$> evidence r
  = [("ASK WHERE { ?s ?p ?o }", "ASK result: True", None)]
  ∧ Forall (λ item, score item == 1)%Q (evidence r)
  ∧ stop_reason r = "max_iterations"
  ∧ iterations_used r = 1%Z.
Proof. vm_compute. repeat split. by repeat constructor. Qed.

Example repeated_candidate_runs_once :
  let out := process repeating (plain_engine 3) "planner-model" "anything"
               (Build_env repeating 0 []) in
  queries out.1.1 = ["SELECT ?s WHERE { ?s ?p ?o } LIMIT 10"]
  ∧ stop_reason out.1.1 = "no_new_candidates"
  ∧ iterations_used out.1.1 = 2%Z
  ∧ length (filter (λ r, req_query r = "SELECT ?s WHERE { ?s ?p ?o } LIMIT 10")
              (requests repeating out.2)) = 1.
Proof. by vm_compute. Qed.

End Scenarios.

(** * More of the engine *)

(** ** The endpoint candidates and the retry over them *)

Module EndpointFacts.
Import Py RuleFacts.

Lemma replace_chars_length old new skip l :
  length new ≤ length old → skip ≤ length l →
  length (replace_chars old new skip l) ≤ length l - skip.
Proof.
  intros Hn. revert skip. induction l as [|c l IH]; intros skip Hs; simpl; [lia|].
  destruct skip as [|k].
  - destruct (decide (old `prefix_of` c :: l)) as [Hp|Hp].
    + rewrite (bool_decide_eq_true_2 _ Hp), length_app.
      apply prefix_length in Hp. simpl in Hp.
      specialize (IH (length old - 1)). lia.
    + rewrite (bool_decide_eq_false_2 _ Hp). simpl. specialize (IH 0). lia.
  - simpl in Hs. specialize (IH k). lia.
Qed.

Lemma replace_chars_shorter old new l :
  length new < length old → contains_chars old l = true →
  length (replace_chars old new 0 l) < length l.
Proof.
  intros Hn. induction l as [|c l IH]; simpl.
  - rewrite orb_false_r, bool_decide_eq_true. intros Hp%prefix_length. simpl in Hp. lia.
  - destruct (decide (old `prefix_of` c :: l)) as [Hp|Hp].
    + rewrite (bool_decide_eq_true_2 _ Hp), length_app. intros _.
      apply prefix_length in Hp. simpl in Hp.
      pose proof (replace_chars_length old new (length old - 1) l). lia.
    + rewrite (bool_decide_eq_false_2 _ Hp). simpl. intros Hc%IH. lia.
Qed.

Lemma len_text l : len (text l) = Z.of_nat (length l).
Proof. unfold len. by rewrite <- length_chars, chars_text. Qed.

Lemma len_chars s : len s = Z.of_nat (length (chars s)).
Proof. unfold len. by rewrite length_chars. Qed.

Lemma replace_shorter old new s :
  (len new < len old)%Z → contains old s = true → (len (replace old new s) < len s)%Z.
Proof.
  unfold replace, contains. rewrite len_text, !len_chars. intros Hn Hc.
  apply inj_lt, replace_chars_shorter; [lia | done].
Qed.

Lemma _build_endpoint_candidates_cases endpoint :
  _build_endpoint_candidates endpoint =
    if contains "host.docker.internal" endpoint
    then [endpoint; replace "host.docker.internal" "172.17.0.1" endpoint]
    else [endpoint].
Proof.
  unfold _build_endpoint_candidates.
  destruct (contains "host.docker.internal" endpoint) eqn:Hc; simpl.
  - rewrite decide_False by set_solver.
    rewrite decide_False; [done|].
    intros Hin. apply elem_of_union in Hin as [E%elem_of_singleton|Hin];
      [|by apply elem_of_empty in Hin].
    pose proof (replace_shorter "host.docker.internal" "172.17.0.1" endpoint) as Hs.
    rewrite E in Hs. specialize (Hs ltac:(done) Hc). lia.
  - by rewrite decide_False by set_solver.
Qed.

End EndpointFacts.

Section Retry.
Variable H : Host.

Lemma retry_loop_trace {A} q fmt t (run_query : request → env H → result A * env H)
    endpoints errors e :
  sends_once H run_query →
  ∃ n, n ≤ length endpoints
    ∧ requests H (_run_with_endpoint_retry_loop H q fmt t run_query endpoints errors e).2
      = requests H e ++ (request_to q fmt t <$> take n endpoints)
    ∧ match (_run_with_endpoint_retry_loop H q fmt t run_query endpoints errors e).1 with
      | inl _ => n = length endpoints
      | inr _ => 0 < n
      end.
Proof.
  intros Hrun. revert errors e.
  induction endpoints as [|ep eps IH]; intros errors e; simpl.
  - exists 0. destruct (last errors); simpl; by rewrite app_nil_r.
  - pose proof (Hrun (request_to q fmt t ep) e) as Hsent. unfold request_to in Hsent.
    destruct (run_query _ e) as [[err|v] e1]; simpl in Hsent.
    + destruct (IH (errors ++ [err]) e1) as (n & Hn & E & Hr).
      exists (S n). split; [simpl; lia|]. split.
      * rewrite E, Hsent, <- app_assoc. done.
      * destruct (_run_with_endpoint_retry_loop _ _ _ _ _ _ _ _).1; simpl; lia.
    + exists 1. split; [simpl; lia|]. simpl. split; [done | lia].
Qed.

Lemma retry_loop_outcome {A} q fmt t (run_query : request → env H → result A * env H)
    endpoints errors e :
  match _run_with_endpoint_retry_loop H q fmt t run_query endpoints errors e with
  | (inr v, e') =>
      ∃ tried ep rest e0,
        endpoints = tried ++ ep :: rest
        ∧ failed_runs H run_query q fmt t tried e = Some e0
        ∧ run_query (request_to q fmt t ep) e0 = (inr v, e')
  | (inl err, e') =>
      (endpoints = [] ∧ e' = e
       ∧ err = default (Exn "RuntimeError" "No SPARQL endpoint candidates available")
                 (last errors))
      ∨ (∃ tried ep e0,
           endpoints = tried ++ [ep]
           ∧ failed_runs H run_query q fmt t tried e = Some e0
           ∧ run_query (request_to q fmt t ep) e0 = (inl err, e'))
  end.
Proof.
  revert errors e. induction endpoints as [|ep eps IH]; intros errors e; simpl.
  - destruct (last errors); left; done.
  - destruct (run_query _ e) as [[err|v] e1] eqn:E.
    + specialize (IH (errors ++ [err]) e1).
      destruct (_run_with_endpoint_retry_loop _ _ _ _ _ _ _ _) as [[err'|v] e2].
      * right. destruct IH as [(-> & -> & ->)|(tried & ep' & e0 & -> & Hf & Hr)].
        -- exists [], ep, e. rewrite last_snoc. done.
        -- exists (ep :: tried), ep', e0. split; [done|]. split; [|done].
           simpl. unfold request_to at 1. by rewrite E.
      * destruct IH as (tried & ep' & rest & e0 & -> & Hf & Hr).
        exists (ep :: tried), ep', rest, e0. split; [done|]. split; [|done].
        simpl. unfold request_to at 1. by rewrite E.
    + exists [], ep, eps, e. done.
Qed.

Lemma send_once : sends_once H (send H).
Proof. intros req e. unfold send. by destruct (sparql H req (world H e)). Qed.

Lemma _run_raw_json_runner_once self q :
  sends_once H (λ req e,
    if String.eqb (_query_type q) "DESCRIBE" then
      match send H req e with
      | (inr reply, e') => (inr (describe_payload self (str H reply)), e')
      | (inl err, e') => (inl err, e')
      end
    else send H req e).
Proof.
  intros req e. pose proof (send_once req e) as Hs.
  destruct (String.eqb _ _); [|done]. by destruct (send H req e) as [[?|?] ?].
Qed.

Lemma _run_construct_runner_once :
  sends_once H (λ req e,
    match send H req e with
    | (inr reply, e') => (inr (str H reply), e')
    | (inl err, e') => (inl err, e')
    end).
Proof.
  intros req e. pose proof (send_once req e) as Hs.
  by destruct (send H req e) as [[?|?] ?].
Qed.

End Retry.

(** X1: the list of endpoint candidates begins with the configured
    endpoint and has no duplicate; an endpoint that names
    [host.docker.internal] gets a second candidate, with that name
    replaced by [172.17.0.1], which is always another address; any other
    endpoint is the only candidate. *)
Theorem endpoint_candidates_cover_docker_host (endpoint : string) :
  _build_endpoint_candidates endpoint =
    (if contains "host.docker.internal" endpoint
     then [endpoint; replace "host.docker.internal" "172.17.0.1" endpoint]
     else [endpoint])
  ∧ head (_build_endpoint_candidates endpoint) = Some endpoint
  ∧ NoDup (_build_endpoint_candidates endpoint).
Proof.
  rewrite EndpointFacts._build_endpoint_candidates_cases. split; [done|].
  destruct (contains "host.docker.internal" endpoint) eqn:Hc; simpl.
  - split; [done|]. apply NoDup_cons. split; [|apply NoDup_singleton].
    intros Hin%list_elem_of_singleton.
    pose proof (EndpointFacts.replace_shorter "host.docker.internal" "172.17.0.1" endpoint) as Hs.
    rewrite <- Hin in Hs. specialize (Hs ltac:(done) Hc). lia.
  - split; [done|]. apply NoDup_singleton.
Qed.

(** X2: [_run_with_endpoint_retry] returns the answer of the first
    endpoint candidate that answers: the runs on the candidates before
    it, in their order, have all failed. When every candidate fails it
    raises the error of the last one, and with no candidate at all it
    raises the RuntimeError, without a run. *)
Theorem endpoint_retry_returns_first_answer_or_last_error (H : Host) (A : Type)
    (self : SelfQueryLLM) (query : string) (fmt : return_format)
    (run_query : request → env H → result A * env H) (e : env H) :
  match _run_with_endpoint_retry H self query fmt run_query e with
  | (inr v, e') =>
      ∃ tried ep rest e0,
        _endpoint_candidates self = tried ++ ep :: rest
        ∧ failed_runs H run_query query fmt (timeout_sec self) tried e = Some e0
        ∧ run_query (request_to query fmt (timeout_sec self) ep) e0 = (inr v, e')
  | (inl err, e') =>
      (_endpoint_candidates self = [] ∧ e' = e
       ∧ err = Exn "RuntimeError" "No SPARQL endpoint candidates available")
      ∨ (∃ tried ep e0,
           _endpoint_candidates self = tried ++ [ep]
           ∧ failed_runs H run_query query fmt (timeout_sec self) tried e = Some e0
           ∧ run_query (request_to query fmt (timeout_sec self) ep) e0 = (inl err, e'))
  end.
Proof.
  unfold _run_with_endpoint_retry.
  apply (retry_loop_outcome H query fmt (timeout_sec self) run_query
           (_endpoint_candidates self) [] e).
Qed.

(** X3: a query costs at most one request per endpoint candidate: the
    requests [_run_raw_json] and [_run_construct] send go to the first
    candidates in their order, each with the query, the timeout of the
    engine and the format of the query (Turtle for DESCRIBE and for
    [_run_construct], JSON otherwise); a call that fails has tried every
    candidate, a call that succeeds at least one. *)
Theorem endpoint_retry_tries_candidates_in_order (H : Host) (self : SelfQueryLLM)
    (query : string) (e : env H) :
  (∃ n, n ≤ length (_endpoint_candidates self)
     ∧ requests H (_run_raw_json H self query e).2
       = requests H e
         ++ (request_to query (if String.eqb (_query_type query) "DESCRIBE" then TURTLE else JSON)
               (timeout_sec self) <$> take n (_endpoint_candidates self))
     ∧ match (_run_raw_json H self query e).1 with
       | inl _ => n = length (_endpoint_candidates self)
       | inr _ => 0 < n
       end)
  ∧ (∃ n, n ≤ length (_endpoint_candidates self)
       ∧ requests H (_run_construct H self query e).2
         = requests H e
           ++ (request_to query TURTLE (timeout_sec self) <$> take n (_endpoint_candidates self))
       ∧ match (_run_construct H self query e).1 with
         | inl _ => n = length (_endpoint_candidates self)
         | inr _ => 0 < n
         end).
Proof.
  split.
  - unfold _run_raw_json, _run_with_endpoint_retry.
    apply retry_loop_trace, _run_raw_json_runner_once.
  - unfold _run_construct, _run_with_endpoint_retry.
    apply retry_loop_trace, _run_construct_runner_once.
Qed.

(** ** The requests of a batch *)

Section BatchRequests.
Variable H : Host.

Lemma format_of_raw_json q :
  _query_type q ∈ ({[ "SELECT"; "ASK"; "DESCRIBE" ]} : gset string) →
  (if String.eqb (_query_type q) "DESCRIBE" then TURTLE else JSON) = format_of q.
Proof.
  unfold format_of. intros Hin.
  apply elem_of_union in Hin as [Hin|Hin%elem_of_singleton].
  - rewrite (bool_decide_eq_true_2 _ Hin).
    apply elem_of_union in Hin as [->%elem_of_singleton| ->%elem_of_singleton]; done.
  - rewrite Hin. done.
Qed.

Lemma format_of_construct q :
  _query_type q ∉ ({[ "SELECT"; "ASK"; "DESCRIBE" ]} : gset string) → TURTLE = format_of q.
Proof.
  unfold format_of. intros Hout. rewrite bool_decide_eq_false_2; [done|].
  intros Hin. apply Hout. by apply elem_of_union_l.
Qed.

Lemma execute_candidate_trace self uq q e :
  ∃ n, n ≤ length (_endpoint_candidates self)
    ∧ requests H (execute_candidate H self uq q e).2
      = requests H e
        ++ (request_to q (format_of q) (timeout_sec self) <$> take n (_endpoint_candidates self))
    ∧ ((_validate_query self q None).1 = false → n = 0).
Proof.
  unfold execute_candidate. rewrite RuleFacts._validate_query_typed.
  destruct (_validate_query self q None) as [[] reason]; simpl.
  2: { exists 0. rewrite take_0. simpl. rewrite app_nil_r. split; [lia | done]. }
  destruct (decide (_query_type q ∈ ({[ "SELECT"; "ASK"; "DESCRIBE" ]} : gset string)))
    as [Hin|Hout].
  - rewrite (bool_decide_eq_true_2 _ Hin).
    pose proof (retry_loop_trace H q
                  (if String.eqb (_query_type q) "DESCRIBE" then TURTLE else JSON)
                  (timeout_sec self) _ (_endpoint_candidates self) [] e
                  (_run_raw_json_runner_once H self q)) as (n & Hn & E & _).
    change (_run_with_endpoint_retry_loop _ _ _ _ _ _ _ _) with (_run_raw_json H self q e) in E.
    rewrite (format_of_raw_json q Hin) in E.
    exists n. split; [done|]. split; [|done]. rewrite <- E.
    destruct (_run_raw_json H self q e) as [[err|payload] e1]; [done|].
    by destruct (_score_json_payload H self payload uq) as [?|[? ?]].
  - rewrite (bool_decide_eq_false_2 _ Hout).
    pose proof (retry_loop_trace H q TURTLE (timeout_sec self) _ (_endpoint_candidates self) [] e
                  (_run_construct_runner_once H)) as (n & Hn & E & _).
    change (_run_with_endpoint_retry_loop _ _ _ _ _ _ _ _) with (_run_construct H self q e) in E.
    rewrite (format_of_construct q Hout) in E.
    exists n. split; [done|]. split; [|done]. rewrite <- E.
    destruct (_run_construct H self q e) as [[err|payload] e1]; [done|].
    by destruct (_score_construct_payload self payload uq) as [? ?].
Qed.

Lemma execute_sparql_batch_trace self cs uq e :
  ∃ sent,
    requests H (execute_sparql_batch H self cs uq e).2 = requests H e ++ sent
    ∧ length sent ≤ length cs * length (_endpoint_candidates self)
    ∧ Forall (λ r, ∃ q ep, q ∈ cs ∧ ep ∈ _endpoint_candidates self
                           ∧ r = request_to q (format_of q) (timeout_sec self) ep) sent.
Proof.
  revert e. induction cs as [|q cs IH]; intros e.
  - exists []. simpl. by rewrite app_nil_r.
  - rewrite execute_sparql_batch_cons.
    pose proof (execute_candidate_trace self uq q e) as (n & Hn & E1 & _).
    destruct (execute_candidate H self uq q e) as [item e1].
    destruct (IH e1) as (s2 & E2 & L2 & F2).
    destruct (execute_sparql_batch H self cs uq e1) as [items e2]. simpl in *.
    exists ((request_to q (format_of q) (timeout_sec self) <$> take n (_endpoint_candidates self))
            ++ s2).
    split; [by rewrite E2, E1, app_assoc|]. split.
    + rewrite length_app, length_fmap, length_take. lia.
    + apply Forall_app. split.
      * apply Forall_fmap, Forall_forall. intros ep Hep. simpl.
        exists q, ep. split; [left|]. split; [by eapply subseteq_take | done].
      * eapply Forall_impl; [exact F2|]. intros r (q' & ep & Hq & Hep & ->).
        exists q', ep. split; [by right | done].
Qed.

Lemma execute_sparql_batch_runs self cs uq e :
  ∃ ns, length ns = length cs
    ∧ requests H (execute_sparql_batch H self cs uq e).2
      = requests H e ++ concat (zip_with (candidate_requests self) cs ns).
Proof.
  revert e. induction cs as [|q cs IH]; intros e.
  - exists []. simpl. by rewrite app_nil_r.
  - rewrite execute_sparql_batch_cons.
    pose proof (execute_candidate_trace self uq q e) as (n & _ & E1 & _).
    destruct (execute_candidate H self uq q e) as [item e1].
    destruct (IH e1) as (ns & L & E2).
    destruct (execute_sparql_batch H self cs uq e1) as [items e2]. simpl in *.
    exists (n :: ns). split; [simpl; by rewrite L|].
    simpl. unfold candidate_requests at 1, run_requests. by rewrite E2, E1, <- app_assoc.
Qed.

End BatchRequests.

(** X4: a batch sends at most one request per candidate and endpoint
    candidate, and none for a candidate the validator rejects; every
    request goes to an endpoint candidate with the timeout of the engine
    and carries one of the candidates, asked for as JSON when it is a
    SELECT or an ASK and as Turtle otherwise. *)
Theorem batch_requests_are_bounded (H : Host) (self : SelfQueryLLM)
    (candidates : list string) (user_query : string) (e : env H) :
  (∃ sent,
     requests H (execute_sparql_batch H self candidates user_query e).2 = requests H e ++ sent
     ∧ length sent ≤ length candidates * length (_endpoint_candidates self)
     ∧ Forall (λ r, ∃ q ep, q ∈ candidates ∧ ep ∈ _endpoint_candidates self
                            ∧ r = request_to q (format_of q) (timeout_sec self) ep) sent)
  ∧ (∀ q e0, (_validate_query self q None).1 = false →
       requests H (execute_candidate H self user_query q e0).2 = requests H e0).
Proof.
  split; [apply execute_sparql_batch_trace|].
  intros q e0 Hv.
  destruct (execute_candidate_trace H self user_query q e0) as (n & _ & E & Hn).
  rewrite E, (Hn Hv), take_0. simpl. by rewrite app_nil_r.
Qed.

(** ** The constructor, the ranking and the rounds of [process] *)

Module RankFacts.

Lemma insert_by_score_perm x l : insert_by_score x l ≡ₚ x :: l.
Proof.
  induction l as [|y l IH]; simpl; [done|].
  destruct (Qlt_le_dec (score x) (score y)); [|done].
  by rewrite IH, Permutation_swap.
Qed.

Lemma sorted_by_score_perm l : sorted_by_score l ≡ₚ l.
Proof.
  unfold sorted_by_score. induction l as [|x l IH]; simpl; [done|].
  by rewrite insert_by_score_perm, IH.
Qed.

Lemma insert_by_score_ranked x l : ranked l → ranked (insert_by_score x l).
Proof.
  induction l as [|y l IH]; simpl; [by intros _; split|].
  intros [Hy Hl]. destruct (Qlt_le_dec (score x) (score y)) as [Hlt|Hle]; simpl.
  - split; [|by apply IH].
    rewrite insert_by_score_perm. constructor; [by apply Qlt_le_weak | done].
  - split; [|done]. constructor; [done|].
    eapply Forall_impl; [exact Hy|]. intros z Hz. simpl in Hz. by eapply Qle_trans.
Qed.

Lemma sorted_by_score_ranked l : ranked (sorted_by_score l).
Proof.
  unfold sorted_by_score. induction l as [|x l IH]; simpl; [done|].
  by apply insert_by_score_ranked.
Qed.

Lemma ranked_app l1 l2 :
  ranked (l1 ++ l2) →
  ranked l1 ∧ ∀ a b, a ∈ l1 → b ∈ l2 → (score b <= score a)%Q.
Proof.
  induction l1 as [|x l1 IH]; simpl.
  - intros _. split; [done|]. by intros a b ?%elem_of_nil.
  - intros [Hx Hl]. apply Forall_app in Hx as [H1 H2].
    destruct (IH Hl) as [I1 I2]. split; [done|].
    intros a b [->|Ha]%elem_of_cons Hb.
    + rewrite Forall_forall in H2. by apply H2.
    + by apply I2.
Qed.

Lemma ranked_descending l : ranked l → descending l.
Proof.
  induction l as [|x l IH]; intros Hr i j a b Hij Ha Hb; [done|].
  destruct Hr as [Hx Hl]. destruct j as [|j]; [lia|]. simpl in Hb.
  destruct i as [|i]; simpl in Ha.
  - injection Ha as <-. rewrite Forall_forall in Hx. apply Hx.
    by eapply list_elem_of_lookup_2.
  - apply (IH Hl i j); [lia | done | done].
Qed.

Lemma slice_to_take {A} (n : Z) (l : list A) : ∃ k, slice_to n l = take k l.
Proof. unfold slice_to. destruct (n <? 0)%Z; eauto. Qed.

Lemma slice_to_length {A} (n : Z) (l : list A) :
  length (slice_to n l) =
    if (n <? 0)%Z then length l - Z.to_nat (- n) else Z.to_nat n `min` length l.
Proof. unfold slice_to. destruct (n <? 0)%Z; by rewrite length_take; lia. Qed.

(** The first records of the ranking are a choice of the best. *)
Lemma slice_to_ranked n l :
  ranked (slice_to n (sorted_by_score l)) ∧ best_of (slice_to n (sorted_by_score l)) l.
Proof.
  destruct (slice_to_take n (sorted_by_score l)) as [k ->].
  pose proof (sorted_by_score_ranked l) as Hr.
  rewrite <- (take_drop k (sorted_by_score l)) in Hr.
  apply ranked_app in Hr as [H1 H2]. split; [done|].
  exists (drop k (sorted_by_score l)). split; [|done].
  by rewrite take_drop, sorted_by_score_perm.
Qed.

Lemma fmax_ge_l a b : (a <= fmax a b)%Q.
Proof.
  unfold fmax. destruct (Qlt_le_dec a b); [by apply Qlt_le_weak | apply Qle_refl].
Qed.

Lemma fmax_ge_r a b : (b <= fmax a b)%Q.
Proof. unfold fmax. destruct (Qlt_le_dec a b); [apply Qle_refl | done]. Qed.

Lemma max_score_fold_ge best l :
  (best <= foldl (λ b y, fmax b (score y)) best l)%Q.
Proof.
  revert best. induction l as [|y l IH]; intros best; simpl; [apply Qle_refl|].
  eapply Qle_trans; [apply (fmax_ge_l best (score y)) | apply IH].
Qed.

Lemma max_score_fold_elem best l x :
  x ∈ l → (score x <= foldl (λ b y, fmax b (score y)) best l)%Q.
Proof.
  revert best. induction l as [|y l IH]; intros best; simpl; [by intros ?%elem_of_nil|].
  intros [->|Hx]%elem_of_cons; [|by apply IH].
  eapply Qle_trans; [apply (fmax_ge_r best (score y)) | apply max_score_fold_ge].
Qed.

Lemma max_score_fold_cases best l :
  foldl (λ b y, fmax b (score y)) best l = best
  ∨ ∃ x, x ∈ l ∧ foldl (λ b y, fmax b (score y)) best l = score x.
Proof.
  revert best. induction l as [|y l IH]; intros best; simpl; [by left|].
  destruct (IH (fmax best (score y))) as [->|(x & Hx & ->)].
  - unfold fmax. destruct (Qlt_le_dec best (score y)); [|by left].
    right. exists y. split; [left | done].
  - right. exists x. split; [by right | done].
Qed.

(** [max_score] is the largest score of the list, 0 for the empty list. *)
Lemma max_score_spec l :
  Forall (λ x, (score x <= max_score l)%Q) l
  ∧ (l = [] ∧ max_score l = 0%Q ∨ ∃ x, x ∈ l ∧ max_score l = score x).
Proof.
  destruct l as [|y l]; simpl; [split; [constructor | by left]|]. split.
  - constructor; [apply max_score_fold_ge|].
    apply Forall_forall. intros x Hx. by apply max_score_fold_elem.
  - right. destruct (max_score_fold_cases (score y) l) as [->|(x & Hx & ->)].
    + exists y. split; [left | done].
    + exists x. split; [by right | done].
Qed.

End RankFacts.

Section Rounds.
Variable H : Host.

Lemma set_caches_eta self :
  set_schema_ttl_cache (set_schema_metadata_cache self (_schema_metadata_cache self))
    (_schema_ttl_cache self) = self.
Proof. by destruct self. Qed.

Lemma get_schema_metadata_self self e :
  ∃ m, (get_schema_metadata H self e).1.2 = set_schema_metadata_cache self m.
Proof.
  unfold get_schema_metadata. destruct (_schema_metadata_cache self) as [s|] eqn:Hc.
  - exists (Some s). rewrite <- Hc. by destruct self.
  - destruct (_run_select H self CLASSES_BODY CLASSES_PREFIX e) as [[err|classes] e1].
    { exists None. rewrite <- Hc. by destruct self. }
    destruct (_run_select H self PROPERTIES_BODY PROPERTIES_PREFIX e1)
      as [[err|properties] e2].
    { exists None. rewrite <- Hc. by destruct self. }
    eexists. reflexivity.
Qed.

Lemma get_schema_ttl_self self e :
  ∃ t, (get_schema_ttl H self e).1.2 = set_schema_ttl_cache self t.
Proof.
  unfold get_schema_ttl. destruct (_schema_ttl_cache self) as [s|] eqn:Hc.
  - exists (Some s). rewrite <- Hc. by destruct self.
  - match goal with |- context [_run_construct H self ?q e] =>
      destruct (_run_construct H self q e) as [[err|ttl] e1] end.
    { exists None. rewrite <- Hc. by destruct self. }
    eexists. reflexivity.
Qed.

(** The schema loader writes the two caches and nothing else. *)
Lemma _load_schema_context_self self e :
  ∃ m t, (_load_schema_context H self e).1.2
         = set_schema_ttl_cache (set_schema_metadata_cache self m) t.
Proof.
  unfold _load_schema_context.
  destruct (get_schema_metadata_self self e) as [m Hm].
  destruct (get_schema_metadata H self e) as [[fetched self1] e1]. simpl in Hm. subst self1.
  destruct (include_full_schema_ttl (set_schema_metadata_cache self m)).
  - destruct (get_schema_ttl_self (set_schema_metadata_cache self m) e1) as [t Ht].
    destruct (get_schema_ttl H _ e1) as [[got self2] e2]. simpl in Ht. subst self2.
    by exists m, t.
  - exists m, (_schema_ttl_cache self). by destruct self.
Qed.

Lemma _evaluate_early_stop_true self ev cur it best :
  _evaluate_early_stop self ev cur it = (true, best) →
  (it < max_iterations self)%Z ∧ (min_iterations_before_early_stop self <= it)%Z.
Proof.
  unfold _evaluate_early_stop.
  destruct (it <? max_iterations self)%Z eqn:H1; [|done].
  destruct (it >=? min_iterations_before_early_stop self)%Z eqn:H2; [|done].
  intros _. apply Z.ltb_lt in H1. apply Z.geb_le in H2. done.
Qed.

Lemma stopped_within_weaken self first first' last v :
  (first <= first')%Z → stopped_within self first' last v → stopped_within self first last v.
Proof.
  intros Hf [Hs|[[Hs Hi]|(Hs & Hi & Hm)]]; [by left | right; left | right; right].
  - split; [done | lia].
  - split; [done|]. split; [lia | done].
Qed.

Lemma process_loop_stops self m uq sm ttl start k : ∀ first v e,
  loop_stop_reason v = "max_iterations" →
  loop_iterations_used v = (first - 1)%Z →
  stopped_within self first (first + Z.of_nat k - 1)
    (process_loop H self m uq sm ttl start (seqZ first (Z.of_nat k)) v e).1.
Proof.
  induction k as [|k IH]; intros first v e Hr Hu.
  - simpl. left. split; [done | lia].
  - rewrite seqZ_cons by lia.
    replace (Z.pred (Z.of_nat (S k))) with (Z.of_nat k) by lia.
    cbn [process_loop].
    destruct (_global_budget_reached H self start first e) as [[] e1].
    { right; left. simpl. split; [left | lia]. }
    destruct (_plan_iteration_candidates H self m uq sm ttl _ _ first e1)
      as [[[[merged pc] lc] seen] e2].
    destruct merged as [|c merged'].
    { right; left. simpl. split; [right; left | lia]. }
    destruct (_execute_iteration_candidates H self (c :: merged') uq first e2) as [found e3].
    destruct (_evaluate_early_stop self _ (best_score v) first) as [[] best] eqn:Es.
    { apply _evaluate_early_stop_true in Es as [E1 E2].
      right; right. simpl. split; [done|]. split; [lia|]. done. }
    eapply (stopped_within_weaken self first (Z.succ first)); [lia|].
    replace (first + Z.of_nat (S k) - 1)%Z with (Z.succ first + Z.of_nat k - 1)%Z by lia.
    apply IH; simpl; [done | lia].
Qed.

Lemma process_stopped self m uq e :
  ∃ v, stopped_within self 1 (Z.max 0 (max_iterations self)) v
       ∧ stop_reason (process H self m uq e).1.1 = loop_stop_reason v
       ∧ iterations_used (process H self m uq e).1.1 = loop_iterations_used v.
Proof.
  unfold process. destruct (now H e) as [start e1].
  destruct (_load_schema_context_self self e1) as (mc & tc & Hself).
  destruct (_load_schema_context H self e1) as [[[sm ttl] self1] e2]. simpl in Hself.
  assert (max_iterations self1 = max_iterations self
          ∧ min_iterations_before_early_stop self1 = min_iterations_before_early_stop self)
    as [Hmax Hmin] by (by subst self1).
  pose proof (process_loop_stops self1 m uq sm ttl start (Z.to_nat (max_iterations self1)) 1
                {| all_candidates := []; all_evidence := []; seen_queries := ∅;
                   best_score := 0; loop_stop_reason := "max_iterations";
                   loop_iterations_used := 0 |} e2 eq_refl eq_refl) as Hst.
  assert (seqZ 1 (Z.of_nat (Z.to_nat (max_iterations self1))) = seqZ 1 (max_iterations self1))
    as Hseq by (unfold seqZ; by rewrite Nat2Z.id).
  rewrite Hseq in Hst.
  destruct (process_loop H self1 m uq sm ttl start _ _ e2) as [v e3].
  exists v. split; [|done]. simpl in Hst.
  replace (1 + Z.of_nat (Z.to_nat (max_iterations self1)) - 1)%Z
    with (Z.max 0 (max_iterations self)) in Hst by lia.
  unfold stopped_within in *. rewrite Hmax, Hmin in Hst. exact Hst.
Qed.

End Rounds.

(** X5: the constructor brings the settings into range, whatever it is
    given: the counts of tokens, lexical candidates and iterations and
    the time budget are at least 1, the query length limit at least 256,
    the least improvement is not negative, and the rounds before an
    early stop lie between 1 and [max_iterations]. Each of these seven
    settings is kept when it is in range already (the least improvement
    as a number), and a number of rounds before an early stop above
    [max_iterations] is brought down to it; both caches start empty. *)
Theorem constructor_clamps_settings
    (endpoint' : string) (top_k' query_candidates' timeout_sec' max_rows' max_triples'
      planner_timeout_sec' planner_max_tokens' : Z)
    (schema_graph_uri' : string) (include_full_schema_ttl' : bool) (schema_ttl_max_chars' : Z)
    (allow_describe' enable_lexical_search' lexical_match_literals' lexical_match_labels'
      lexical_match_iri_local_names' lexical_match_predicates' : bool)
    (lexical_max_tokens' lexical_max_candidates' max_iterations'
      min_iterations_before_early_stop' : Z)
    (min_score_improvement' : Q) (global_time_budget_sec' max_query_chars' : Z) :
  let self :=
    __init__ endpoint' top_k' query_candidates' timeout_sec' max_rows' max_triples'
      planner_timeout_sec' planner_max_tokens' schema_graph_uri' include_full_schema_ttl'
      schema_ttl_max_chars' allow_describe' enable_lexical_search' lexical_match_literals'
      lexical_match_labels' lexical_match_iri_local_names' lexical_match_predicates'
      lexical_max_tokens' lexical_max_candidates' max_iterations'
      min_iterations_before_early_stop' min_score_improvement' global_time_budget_sec'
      max_query_chars' in
  ((1 <= lexical_max_tokens self)%Z
   ∧ (1 <= lexical_max_candidates self)%Z
   ∧ (1 <= max_iterations self)%Z
   ∧ (1 <= global_time_budget_sec self)%Z
   ∧ (256 <= max_query_chars self)%Z
   ∧ (0 <= min_score_improvement self)%Q
   ∧ (1 <= min_iterations_before_early_stop self <= max_iterations self)%Z)
  ∧ (((1 <= lexical_max_tokens')%Z → lexical_max_tokens self = lexical_max_tokens')
     ∧ ((1 <= lexical_max_candidates')%Z → lexical_max_candidates self = lexical_max_candidates')
     ∧ ((1 <= max_iterations')%Z → max_iterations self = max_iterations')
     ∧ ((1 <= global_time_budget_sec')%Z → global_time_budget_sec self = global_time_budget_sec')
     ∧ ((256 <= max_query_chars')%Z → max_query_chars self = max_query_chars')
     ∧ ((0 <= min_score_improvement')%Q → (min_score_improvement self == min_score_improvement')%Q)
     ∧ ((0 < min_score_improvement')%Q → min_score_improvement self = min_score_improvement')
     ∧ ((1 <= min_iterations_before_early_stop' <= max_iterations')%Z →
        min_iterations_before_early_stop self = min_iterations_before_early_stop'))
  ∧ ((max_iterations self < min_iterations_before_early_stop')%Z →
     min_iterations_before_early_stop self = max_iterations self)
  ∧ _schema_metadata_cache self = None ∧ _schema_ttl_cache self = None.
Proof.
  simpl. unfold fmax.
  destruct (Qlt_le_dec 0 min_score_improvement') as [Hlt|Hge]; repeat split; try lia.
  - by apply Qlt_le_weak.
  - apply Qle_refl.
  - intros Hle. by apply Qle_antisym.
  - intros Hlt. exfalso. by eapply Qlt_not_le.
Qed.

(** X6: [_evaluate_early_stop] asks for a stop only in the rounds from
    [min_iterations_before_early_stop] up to the one before the last,
    whatever the scores are; the best score it hands back, whether it
    stops or not, is the largest score gathered so far, 0 when nothing
    was gathered. *)
Theorem early_stop_only_between_min_and_max (self : SelfQueryLLM)
    (all_evidence : list QueryEvidence) (current_best_score : Q) (iteration : Z) :
  ((_evaluate_early_stop self all_evidence current_best_score iteration).1 = true →
     (min_iterations_before_early_stop self <= iteration < max_iterations self)%Z)
  ∧ Forall (λ x, (score x
                  <= (_evaluate_early_stop self all_evidence current_best_score iteration).2)%Q)
      all_evidence
  ∧ (all_evidence = []
     ∧ (_evaluate_early_stop self all_evidence current_best_score iteration).2 = 0%Q
     ∨ ∃ x, x ∈ all_evidence
            ∧ (_evaluate_early_stop self all_evidence current_best_score iteration).2 = score x).
Proof.
  split.
  - destruct (_evaluate_early_stop self all_evidence current_best_score iteration)
      as [[] best] eqn:Es; [|done].
    intros _. apply _evaluate_early_stop_true in Es. lia.
  - assert ((_evaluate_early_stop self all_evidence current_best_score iteration).2
            = max_score all_evidence) as ->.
    { unfold _evaluate_early_stop. by destruct (_ && _ && _). }
    apply RankFacts.max_score_spec.
Qed.

(** X7: [process] stops with one of the four reasons, after at most
    [max_iterations] rounds. The reason is [max_iterations] only when
    every round was run, any other reason comes from a round that was
    started, and [no_meaningful_improvement] only from a round between
    [min_iterations_before_early_stop] and the one before the last. *)
Theorem process_stops_within_max_iterations (H : Host) (self : SelfQueryLLM)
    (model_id user_query : string) (e : env H) :
  let r := (process H self model_id user_query e).1.1 in
  stop_reason r ∈ STOP_REASONS
  ∧ (0 <= iterations_used r <= Z.max 0 (max_iterations self))%Z
  ∧ (stop_reason r = "max_iterations" ∧ iterations_used r = Z.max 0 (max_iterations self)
     ∨ stop_reason r ∈ ["global_time_budget"; "no_new_candidates"]
       ∧ (1 <= iterations_used r)%Z
     ∨ stop_reason r = "no_meaningful_improvement"
       ∧ (1 <= iterations_used r)%Z
       ∧ (min_iterations_before_early_stop self <= iterations_used r < max_iterations self)%Z).
Proof.
  intros r. subst r.
  destruct (process_stopped H self model_id user_query e) as (v & Hst & -> & ->).
  unfold STOP_REASONS.
  destruct Hst as [[-> ->]|[[Hs Hi]|(-> & Hi & Hm1 & Hm2)]].
  - split; [left|]. split; [lia|]. by left.
  - split; [|split; [lia|]; right; left; split; [done | lia]].
    right. apply elem_of_cons in Hs as [->|Hs]; [left|right].
    apply list_elem_of_singleton in Hs as ->. left.
  - split; [do 3 right; left|]. split; [lia|]. right; right. split; [done|]. lia.
Qed.

(** X8: the evidence of a result is the ranking cut at [top_k]: its
    scores do not go up along the list, no record that was left out
    scores more than one that was kept, its length is [top_k] or the
    number of records when there are fewer (for a negative [top_k], all
    but the last [-top_k] records), and the context is packed from
    exactly these records. *)
Theorem result_evidence_is_ranked (self : SelfQueryLLM) (metadata : string)
    (candidates : list string) (gathered_evidence : list QueryEvidence) (reason : string)
    (rounds : Z) :
  let r := _build_process_result self metadata candidates gathered_evidence reason rounds in
  descending (evidence r)
  ∧ best_of (evidence r) gathered_evidence
  ∧ length (evidence r)
    = (if (top_k self <? 0)%Z then length gathered_evidence - Z.to_nat (- top_k self)
       else Z.to_nat (top_k self) `min` length gathered_evidence)
  ∧ context r = rank_and_pack_context (evidence r)
  ∧ queries r = candidates.
Proof.
  intros r. subst r. unfold _build_process_result. simpl.
  destruct (RankFacts.slice_to_ranked (top_k self) gathered_evidence) as [Hr Hb].
  split; [by apply RankFacts.ranked_descending|]. split; [done|]. split; [|done].
  rewrite RankFacts.slice_to_length.
  pose proof (Permutation_length (RankFacts.sorted_by_score_perm gathered_evidence)) as ->.
  done.
Qed.


(** ** The schema loader *)

Section Schema.
Variable H : Host.

Lemma _run_raw_json_trace self q e :
  ∃ n, n ≤ length (_endpoint_candidates self)
    ∧ requests H (_run_raw_json H self q e).2
      = requests H e
        ++ (request_to q (if String.eqb (_query_type q) "DESCRIBE" then TURTLE else JSON)
              (timeout_sec self) <$> take n (_endpoint_candidates self)).
Proof.
  destruct (retry_loop_trace H q
              (if String.eqb (_query_type q) "DESCRIBE" then TURTLE else JSON)
              (timeout_sec self) _ (_endpoint_candidates self) [] e
              (_run_raw_json_runner_once H self q)) as (n & Hn & E & _).
  by exists n.
Qed.

Lemma _run_construct_trace self q e :
  ∃ n, n ≤ length (_endpoint_candidates self)
    ∧ requests H (_run_construct H self q e).2
      = requests H e
        ++ (request_to q TURTLE (timeout_sec self) <$> take n (_endpoint_candidates self)).
Proof.
  destruct (retry_loop_trace H q TURTLE (timeout_sec self) _ (_endpoint_candidates self) [] e
              (_run_construct_runner_once H)) as (n & Hn & E & _).
  by exists n.
Qed.

Lemma costs_refl self qs e : costs H self qs 0 e e.
Proof. exists []. rewrite app_nil_r. repeat split; [simpl; lia | constructor]. Qed.

Lemma costs_trans self qs k1 k2 e1 e2 e3 :
  costs H self qs k1 e1 e2 → costs H self qs k2 e2 e3 → costs H self qs (k1 + k2) e1 e3.
Proof.
  intros (s1 & E1 & L1 & F1) (s2 & E2 & L2 & F2). exists (s1 ++ s2).
  rewrite E2, E1, app_assoc, length_app. repeat split; [lia | by apply Forall_app].
Qed.

Lemma costs_weaken self qs k k' e e' : k ≤ k' → costs H self qs k e e' → costs H self qs k' e e'.
Proof.
  intros Hk (s & E & L & F). exists s. repeat split; [done | | done].
  etrans; [exact L|]. by apply Nat.mul_le_mono_r.
Qed.

Lemma costs_queries n q fmt t self qs e e' :
  n ≤ length (_endpoint_candidates self) → q ∈ qs →
  requests H e' = requests H e ++ (request_to q fmt t <$> take n (_endpoint_candidates self)) →
  costs H self qs 1 e e'.
Proof.
  intros Hn Hq E. eexists. split; [exact E|].
  rewrite length_fmap, length_take. split; [lia|].
  apply Forall_fmap, Forall_forall. by intros ep _.
Qed.

Lemma _run_select_costs self body prefix qs e :
  prefix +:+ nl +:+ body ∈ qs → costs H self qs 1 e (_run_select H self body prefix e).2.
Proof.
  intros Hq. unfold _run_select.
  destruct (_run_raw_json_trace self (prefix +:+ nl +:+ body) e) as (n & Hn & E).
  destruct (_run_raw_json H self (prefix +:+ nl +:+ body) e) as [[err|payload] e1];
    by eapply costs_queries.
Qed.

Lemma get_schema_metadata_costs self e :
  costs H self (schema_queries self) 2 e (get_schema_metadata H self e).2
  ∧ (is_Some (_schema_metadata_cache self) → (get_schema_metadata H self e).2 = e).
Proof.
  unfold get_schema_metadata. destruct (_schema_metadata_cache self) as [s|].
  { split; [|done]. eapply costs_weaken; [|apply costs_refl]. lia. }
  split; [|by intros [? [=]]].
  pose proof (_run_select_costs self CLASSES_BODY CLASSES_PREFIX (schema_queries self) e) as C1.
  destruct (_run_select H self CLASSES_BODY CLASSES_PREFIX e) as [[err|classes] e1].
  { eapply costs_weaken; [|apply C1; left]. lia. }
  pose proof (_run_select_costs self PROPERTIES_BODY PROPERTIES_PREFIX (schema_queries self) e1)
    as C2.
  destruct (_run_select H self PROPERTIES_BODY PROPERTIES_PREFIX e1) as [[err|properties] e2];
    simpl in *; apply (costs_trans self _ 1 1 e e1 e2); (apply C1 || apply C2);
    first [left | right; left].
Qed.

Lemma get_schema_ttl_unfold self e :
  get_schema_ttl H self e =
    match _schema_ttl_cache self with
    | Some cached => (inr cached, self, e)
    | None =>
        match _run_construct H self (schema_ttl_query self) e with
        | (inl err, e') => (inl err, self, e')
        | (inr ttl, e') =>
            let ttl :=
              if (schema_ttl_max_chars self >? 0)%Z && (len ttl >? schema_ttl_max_chars self)%Z
              then str_slice_to (schema_ttl_max_chars self) ttl else ttl in
            (inr ttl, set_schema_ttl_cache self (Some ttl), e')
        end
    end.
Proof. reflexivity. Qed.

Lemma get_schema_ttl_costs self e :
  costs H self (schema_queries self) 1 e (get_schema_ttl H self e).2
  ∧ (is_Some (_schema_ttl_cache self) → (get_schema_ttl H self e).2 = e).
Proof.
  rewrite get_schema_ttl_unfold. destruct (_schema_ttl_cache self) as [s|].
  { split; [|done]. eapply costs_weaken; [|apply costs_refl]. lia. }
  split; [|by intros [? [=]]].
  destruct (_run_construct_trace self (schema_ttl_query self) e) as (n & Hn & E).
  destruct (_run_construct H self (schema_ttl_query self) e) as [[err|ttl] e1];
    (eapply costs_queries; [exact Hn | | exact E]); unfold schema_queries;
    right; right; left.
Qed.

Lemma _load_schema_context_costs self e :
  costs H self (schema_queries self) 3 e (_load_schema_context H self e).2
  ∧ (is_Some (_schema_metadata_cache self) →
     is_Some (_schema_ttl_cache self) ∨ include_full_schema_ttl self = false →
     (_load_schema_context H self e).2 = e)
  ∧ (include_full_schema_ttl self = false →
     (_load_schema_context H self e).1.1.2 = EmptyString
     ∧ _schema_ttl_cache (_load_schema_context H self e).1.2 = _schema_ttl_cache self
     ∧ costs H self (schema_queries self) 2 e (_load_schema_context H self e).2).
Proof.
  unfold _load_schema_context.
  destruct (get_schema_metadata_costs self e) as [C1 K1].
  destruct (get_schema_metadata_self H self e) as [m Hm].
  destruct (get_schema_metadata H self e) as [[fetched self1] e1]. simpl in *. subst self1.
  change (include_full_schema_ttl (set_schema_metadata_cache self m))
    with (include_full_schema_ttl self).
  destruct (include_full_schema_ttl self).
  - destruct (get_schema_ttl_costs (set_schema_metadata_cache self m) e1) as [C2 K2].
    destruct (get_schema_ttl H (set_schema_metadata_cache self m) e1) as [[got self2] e2].
    simpl in *. split; [|split; [|done]].
    + apply (costs_trans self _ 2 1 e e1 e2); [done|]. exact C2.
    + intros Hc [Ht|[=]]. rewrite (K2 Ht). by apply K1.
  - simpl. split; [|split].
    + eapply costs_weaken; [|exact C1]. lia.
    + intros Hc _. by apply K1.
    + done.
Qed.

Lemma run_requests_none self q fmt : run_requests self q fmt 0 = [].
Proof. unfold run_requests. by rewrite take_0. Qed.

Lemma _run_select_runs self body prefix e :
  _query_type (prefix +:+ nl +:+ body) ≠ "DESCRIBE" →
  ∃ n, requests H (_run_select H self body prefix e).2
       = requests H e ++ run_requests self (prefix +:+ nl +:+ body) JSON n.
Proof.
  intros Ht. unfold _run_select.
  destruct (_run_raw_json_trace self (prefix +:+ nl +:+ body) e) as (n & _ & E).
  apply String.eqb_neq in Ht. rewrite Ht in E. exists n.
  by destruct (_run_raw_json H self (prefix +:+ nl +:+ body) e) as [[err|payload] e1].
Qed.

Lemma get_schema_metadata_runs self e :
  ∃ n1 n2,
    requests H (get_schema_metadata H self e).2
    = requests H e
      ++ run_requests self (CLASSES_PREFIX +:+ nl +:+ CLASSES_BODY) JSON n1
      ++ run_requests self (PROPERTIES_PREFIX +:+ nl +:+ PROPERTIES_BODY) JSON n2
    ∧ (is_Some (_schema_metadata_cache self) → n1 = 0 ∧ n2 = 0).
Proof.
  unfold get_schema_metadata. destruct (_schema_metadata_cache self) as [s|].
  { exists 0, 0. rewrite !run_requests_none. simpl. by rewrite app_nil_r. }
  destruct (_run_select_runs self CLASSES_BODY CLASSES_PREFIX e) as [n1 E1]; [by vm_compute|].
  destruct (_run_select H self CLASSES_BODY CLASSES_PREFIX e) as [[err|classes] e1].
  { exists n1, 0. rewrite run_requests_none, app_nil_r. split; [done|]. by intros [? [=]]. }
  destruct (_run_select_runs self PROPERTIES_BODY PROPERTIES_PREFIX e1) as [n2 E2];
    [by vm_compute|].
  exists n1, n2. split; [|by intros [? [=]]].
  destruct (_run_select H self PROPERTIES_BODY PROPERTIES_PREFIX e1) as [[err|properties] e2];
    simpl in *; by rewrite E2, E1, <- app_assoc.
Qed.

Lemma get_schema_ttl_runs self e :
  ∃ n3,
    requests H (get_schema_ttl H self e).2
    = requests H e ++ run_requests self (schema_ttl_query self) TURTLE n3
    ∧ (is_Some (_schema_ttl_cache self) → n3 = 0).
Proof.
  rewrite get_schema_ttl_unfold. destruct (_schema_ttl_cache self) as [s|].
  { exists 0. rewrite run_requests_none. simpl. by rewrite app_nil_r. }
  destruct (_run_construct_trace self (schema_ttl_query self) e) as (n & _ & E).
  exists n. split; [|by intros [? [=]]].
  by destruct (_run_construct H self (schema_ttl_query self) e) as [[err|ttl] e1].
Qed.

Lemma _load_schema_context_runs self e :
  ∃ n1 n2 n3,
    requests H (_load_schema_context H self e).2
    = requests H e ++ schema_requests self n1 n2 n3
    ∧ (is_Some (_schema_metadata_cache self) → n1 = 0 ∧ n2 = 0)
    ∧ (is_Some (_schema_ttl_cache self) ∨ include_full_schema_ttl self = false → n3 = 0).
Proof.
  unfold _load_schema_context, schema_requests.
  destruct (get_schema_metadata_runs self e) as (n1 & n2 & E1 & K1).
  destruct (get_schema_metadata_self H self e) as [m Hm].
  destruct (get_schema_metadata H self e) as [[fetched self1] e1]. simpl in *. subst self1.
  change (include_full_schema_ttl (set_schema_metadata_cache self m))
    with (include_full_schema_ttl self).
  destruct (include_full_schema_ttl self).
  - destruct (get_schema_ttl_runs (set_schema_metadata_cache self m) e1) as (n3 & E2 & K2).
    destruct (get_schema_ttl H (set_schema_metadata_cache self m) e1) as [[got self2] e2].
    simpl in *. exists n1, n2, n3. split; [|split; [done|]].
    + rewrite E2, E1, <- !app_assoc. done.
    + intros [Ht|[=]]. by apply K2.
  - exists n1, n2, 0. simpl. rewrite run_requests_none, app_nil_r. done.
Qed.

End Schema.

(** ** Stripped texts *)

Module StripFacts.
Import Py RuleFacts.

Lemma lstrip_chars_head l : from_option isspace false (head (lstrip_chars l)) = false.
Proof.
  induction l as [|c l IH]; simpl; [done|].
  destruct (isspace c) eqn:Hc; [done|]. simpl. done.
Qed.

Lemma lstrip_chars_fixed l :
  from_option isspace false (head l) = false → lstrip_chars l = l.
Proof. destruct l as [|c l]; simpl; [done|]. by intros ->. Qed.

Lemma lstrip_chars_suffix l : lstrip_chars l `suffix_of` l.
Proof.
  induction l as [|c l IH]; simpl; [done|].
  destruct (isspace c); [by apply suffix_cons_r | done].
Qed.

Lemma last_suffix {A} (x l : list A) : x `suffix_of` l → x ≠ [] → last x = last l.
Proof.
  intros [k ->] Hx. destruct x as [|a x _] using rev_ind; [done|].
  by rewrite app_assoc, !last_snoc.
Qed.

Lemma head_reverse {A} (l : list A) : head (reverse l) = last l.
Proof.
  destruct l as [|a l _] using rev_ind; [done|].
  by rewrite reverse_snoc, last_snoc.
Qed.

Lemma last_reverse {A} (l : list A) : last (reverse l) = head l.
Proof. by rewrite <- head_reverse, reverse_involutive. Qed.

Lemma strip_chars_trimmed l : trimmed (strip_chars l).
Proof.
  unfold strip_chars, trimmed. rewrite head_reverse, last_reverse. split.
  - destruct (lstrip_chars (reverse (lstrip_chars l))) as [|a x] eqn:E; [done|].
    rewrite <- E.
    rewrite (last_suffix _ (reverse (lstrip_chars l))).
    + rewrite last_reverse. apply lstrip_chars_head.
    + apply lstrip_chars_suffix.
    + by rewrite E.
  - apply lstrip_chars_head.
Qed.

Lemma strip_chars_fixed l : trimmed l → strip_chars l = l.
Proof.
  intros [Hh Hl]. unfold strip_chars.
  rewrite (lstrip_chars_fixed l Hh), lstrip_chars_fixed, reverse_involutive; [done|].
  by rewrite head_reverse.
Qed.

Lemma strip_strip s : strip (strip s) = strip s.
Proof.
  unfold strip. rewrite chars_text. f_equal. apply strip_chars_fixed, strip_chars_trimmed.
Qed.

Lemma eqb_empty_false s : String.eqb s EmptyString = false → s ≠ EmptyString.
Proof. intros Hs ->. done. Qed.

End StripFacts.

Section Planner.
Variable H : Host.

Lemma nonblank_stripped (items : list string) :
  Forall (λ q, q ≠ EmptyString ∧ strip q = q)
    (omap (λ item, let t := strip item in if String.eqb t EmptyString then None else Some t)
       items).
Proof.
  induction items as [|item items IH]; simpl; [constructor|].
  destruct (String.eqb (strip item) EmptyString) eqn:E; [done|].
  constructor; [|done]. split; [by apply StripFacts.eqb_empty_false | apply StripFacts.strip_strip].
Qed.

Lemma _extract_queries_stripped content :
  Forall (λ q, q ≠ EmptyString ∧ strip q = q) (_extract_queries H content).
Proof.
  unfold _extract_queries.
  match goal with |- context [json_loads H ?c] => generalize c end. intros c.
  destruct (ebind (json_loads H c) _) as [err|[| | | | |queries|]];
    apply nonblank_stripped.
Qed.

Lemma slice_to_Forall {A} (P : A → Prop) n (l : list A) : Forall P l → Forall P (slice_to n l).
Proof.
  intros Hl. destruct (RankFacts.slice_to_take n l) as [k ->]. by apply Forall_take.
Qed.

Lemma candidates_of_outcome_shape self uq it outcome :
  Forall (λ q, q = _fallback_query self uq ∨ q ≠ EmptyString ∧ strip q = q)
    (candidates_of_outcome H self uq it outcome)
  ∧ ((0 <= query_candidates self)%Z →
     length (candidates_of_outcome H self uq it outcome)
     ≤ Z.to_nat (Z.max 1 (query_candidates self))).
Proof.
  assert (∀ n : Z, (0 <= n)%Z →
            length (if (it =? 1)%Z then [_fallback_query self uq] else [])
            ≤ Z.to_nat (Z.max 1 n)) as Hfb
    by (intros n Hn; destruct (it =? 1)%Z; simpl; lia).
  assert (Forall (λ q, q = _fallback_query self uq ∨ q ≠ EmptyString ∧ strip q = q)
            (if (it =? 1)%Z then [_fallback_query self uq] else [])) as Hfq
    by (destruct (it =? 1)%Z; repeat constructor).
  destruct outcome as [| err | content]; simpl; try (split; [exact Hfq | apply Hfb]).
  pose proof (_extract_queries_stripped content) as Hs.
  destruct (_extract_queries H content) as [|q parsed]; [split; [exact Hfq | apply Hfb]|].
  split.
  - apply slice_to_Forall. eapply Forall_impl; [exact Hs|]. intros x Hx. by right.
  - intros Hn. rewrite RankFacts.slice_to_length.
    destruct (query_candidates self <? 0)%Z eqn:Hneg; [apply Z.ltb_lt in Hneg; lia|]. lia.
Qed.

Lemma call_planner_requests self m prompt e :
  requests H (call_planner H self m prompt e).2 = requests H e.
Proof. unfold call_planner. by destruct (chat_json H _ _ _ _ _). Qed.

End Planner.

Section Rows.
Variable H : Host.

Lemma rows_fold found : ∀ acc rows,
  efold (λ rows binding,
           do fields <- Dyn.items binding;
           do row <-
             efold (λ row '(key, value),
                      do text <- Dyn.get value "value" (PStr EmptyString);
                      inr (Dyn.setitem key text row))
                   fields [];
           inr (rows ++ [PDict row]))
        found acc = inr rows →
  length rows = length acc + length found
  ∧ (Forall (λ row, ∃ kv, row = PDict kv) acc → Forall (λ row, ∃ kv, row = PDict kv) rows).
Proof.
  induction found as [|b found IH]; intros acc rows; simpl.
  - intros [= <-]. split; [lia | done].
  - destruct (Dyn.items b) as [err|fields]; [done|]. simpl.
    destruct (efold _ fields []) as [err|row]; [done|]. simpl.
    intros [E F]%IH. rewrite length_app in E. simpl in E. split; [lia|].
    intros Hacc. apply F, Forall_app. split; [done|]. repeat constructor. by exists row.
Qed.

Lemma _run_select_rows self body prefix e rows e' :
  _run_select H self body prefix e = (inr rows, e') →
  Forall (λ row, ∃ kv, row = PDict kv) rows
  ∧ ((0 <= max_rows self)%Z → length rows ≤ Z.to_nat (max_rows self)).
Proof.
  unfold _run_select.
  destruct (_run_raw_json H self _ e) as [[err|payload] e1]; [done|].
  destruct (Dyn.get payload "results" (PDict [])) as [err|results]; [done|]. simpl.
  destruct (Dyn.get results "bindings" (PList [])) as [err|bindings]; [done|]. simpl.
  destruct (Dyn.iter_slice_to (max_rows self) bindings) as [err|found] eqn:Ef; [done|]. simpl.
  intros [= Hfold _]. apply rows_fold in Hfold as [E F]. split; [by apply F|].
  intros Hn. simpl in E. rewrite E.
  unfold Dyn.iter_slice_to in Ef.
  destruct bindings; try done; injection Ef as <-;
    rewrite ?length_fmap, RankFacts.slice_to_length;
    (destruct (max_rows self <? 0)%Z eqn:Hneg; [apply Z.ltb_lt in Hneg; lia | lia]).
Qed.

End Rows.

(** X10: with an empty cache, [get_schema_ttl] fetches the graph with
    one CONSTRUCT query. What it returns and caches is the beginning of
    the fetched text: all of it when [schema_ttl_max_chars] is not
    positive or the text is short enough, and no more than
    [schema_ttl_max_chars] characters otherwise; every later call
    returns the cached text and sends nothing. A fetch that fails leaves
    the engine as it was. *)
Theorem schema_ttl_is_cut_and_cached (H : Host) (self : SelfQueryLLM) (e : env H) :
  _schema_ttl_cache self = None →
  match get_schema_ttl H self e with
  | (inr ttl, self', e') =>
      ∃ fetched,
        _run_construct H self (schema_ttl_query self) e = (inr fetched, e')
        ∧ chars ttl `prefix_of` chars fetched
        ∧ ((0 < schema_ttl_max_chars self)%Z → (len ttl <= schema_ttl_max_chars self)%Z)
        ∧ ((schema_ttl_max_chars self <= 0)%Z ∨ (len fetched <= schema_ttl_max_chars self)%Z →
           ttl = fetched)
        ∧ _schema_ttl_cache self' = Some ttl
        ∧ ∀ e'', get_schema_ttl H self' e'' = (inr ttl, self', e'')
  | (inl err, self', e') =>
      self' = self ∧ _run_construct H self (schema_ttl_query self) e = (inl err, e')
  end.
Proof.
  intros Hc. rewrite get_schema_ttl_unfold, Hc.
  destruct (_run_construct H self (schema_ttl_query self) e) as [[err|fetched] e1]; [done|].
  cbv zeta. exists fetched. split; [done|].
  destruct ((schema_ttl_max_chars self >? 0)%Z && (len fetched >? schema_ttl_max_chars self)%Z)
    eqn:Hcut.
  - apply andb_true_iff in Hcut as [H1 H2].
    apply Z.gtb_lt in H1. apply Z.gtb_lt in H2.
    unfold str_slice_to, slice_to.
    destruct (schema_ttl_max_chars self <? 0)%Z eqn:Hneg; [apply Z.ltb_lt in Hneg; lia|].
    rewrite RuleFacts.chars_text. split; [apply prefix_take|]. split.
    { intros _. rewrite EndpointFacts.len_text, length_take. lia. }
    split; [lia|]. split; [done|]. intros e''. rewrite get_schema_ttl_unfold. done.
  - split; [done|]. split.
    { intros Hpos. apply andb_false_iff in Hcut as [Hcut|Hcut].
      - pose proof (Zgt_cases (schema_ttl_max_chars self) 0) as Hz. rewrite Hcut in Hz. lia.
      - pose proof (Zgt_cases (len fetched) (schema_ttl_max_chars self)) as Hz.
        rewrite Hcut in Hz. lia. }
    split; [done|]. split; [done|]. intros e''. rewrite get_schema_ttl_unfold. done.
Qed.

Lemma schema_ttl_is_cut_and_cached_witness :
  _schema_ttl_cache Cases.small_engine = None
  ∧ match get_schema_ttl Cases.stocked Cases.small_engine (Build_env Cases.stocked 0 []) with
    | (inr ttl, self', e') =>
        ∃ fetched,
          _run_construct Cases.stocked Cases.small_engine (schema_ttl_query Cases.small_engine)
            (Build_env Cases.stocked 0 []) = (inr fetched, e')
          ∧ chars ttl `prefix_of` chars fetched
          ∧ ((0 < schema_ttl_max_chars Cases.small_engine)%Z →
             (len ttl <= schema_ttl_max_chars Cases.small_engine)%Z)
          ∧ ((schema_ttl_max_chars Cases.small_engine <= 0)%Z
             ∨ (len fetched <= schema_ttl_max_chars Cases.small_engine)%Z →
             ttl = fetched)
          ∧ _schema_ttl_cache self' = Some ttl
          ∧ ∀ e'', get_schema_ttl Cases.stocked self' e'' = (inr ttl, self', e'')
    | (inl err, self', e') =>
        self' = Cases.small_engine
        ∧ _run_construct Cases.stocked Cases.small_engine (schema_ttl_query Cases.small_engine)
            (Build_env Cases.stocked 0 []) = (inl err, e')
    end.
Proof.
  split; [reflexivity|].
  apply (schema_ttl_is_cut_and_cached Cases.stocked Cases.small_engine
           (Build_env Cases.stocked 0 [])).
  reflexivity.
Defined.

(** X11: the schema loader sends nothing but a run of each of its
    three queries, in this order: the SELECT for the classes and the
    SELECT for the properties, asked for as JSON, and the CONSTRUCT for
    the schema graph, asked for as Turtle; a run goes to the endpoint
    candidates in their order, to each at most once. With the metadata
    cached no SELECT is sent, and with the TTL cached or not asked for
    no CONSTRUCT; with both, the world is left as it is. When the TTL is
    not asked for the loader returns the empty text and leaves the TTL
    cache as it is. *)
Theorem schema_loader_sends_only_schema_queries (H : Host) (self : SelfQueryLLM) (e : env H) :
  (∃ n1 n2 n3,
     requests H (_load_schema_context H self e).2
     = requests H e ++ schema_requests self n1 n2 n3
     ∧ (is_Some (_schema_metadata_cache self) → n1 = 0 ∧ n2 = 0)
     ∧ (is_Some (_schema_ttl_cache self) ∨ include_full_schema_ttl self = false → n3 = 0))
  ∧ (is_Some (_schema_metadata_cache self) →
     is_Some (_schema_ttl_cache self) ∨ include_full_schema_ttl self = false →
     (_load_schema_context H self e).2 = e)
  ∧ (include_full_schema_ttl self = false →
     (_load_schema_context H self e).1.1.2 = EmptyString
     ∧ _schema_ttl_cache (_load_schema_context H self e).1.2 = _schema_ttl_cache self).
Proof.
  split; [apply _load_schema_context_runs|].
  destruct (_load_schema_context_costs H self e) as (_ & K & T).
  split; [exact K|]. intros Hf. by destruct (T Hf) as (? & ? & _).
Qed.

(** X12: the planner step sends nothing to the endpoint, and, for a
    [query_candidates] that is not negative, returns at most that many
    candidates, or the one fallback query; every candidate is the
    fallback query or a text read off the planner's answer that is not
    empty and has no whitespace around it. *)
Theorem planner_candidates_are_bounded (H : Host) (self : SelfQueryLLM)
    (model_id user_query metadata ttl loop_context : string) (iteration : Z) (e : env H) :
  (0 <= query_candidates self)%Z →
  length (generate_sparql_candidates H self model_id user_query metadata ttl loop_context
            iteration e).1
  ≤ Z.to_nat (Z.max 1 (query_candidates self))
  ∧ Forall (λ q, q = _fallback_query self user_query ∨ q ≠ EmptyString ∧ strip q = q)
      (generate_sparql_candidates H self model_id user_query metadata ttl loop_context
         iteration e).1
  ∧ requests H (generate_sparql_candidates H self model_id user_query metadata ttl
                  loop_context iteration e).2 = requests H e.
Proof.
  intros Hn. unfold generate_sparql_candidates.
  pose proof (call_planner_requests H self model_id
                (build_query_prompt self user_query metadata ttl loop_context iteration) e) as Hr.
  destruct (call_planner H self model_id _ e) as [outcome e1]. simpl in *.
  destruct (candidates_of_outcome_shape H self user_query iteration outcome) as [Hf Hl].
  split; [by apply Hl|]. done.
Qed.

Lemma planner_candidates_are_bounded_witness :
  (0 <= query_candidates Cases.small_engine)%Z
  ∧ length (generate_sparql_candidates Cases.stocked Cases.small_engine "planner-model"
              "which pumps feed the mixer" "{}" EmptyString EmptyString 2
              (Build_env Cases.stocked 0 [])).1
    ≤ Z.to_nat (Z.max 1 (query_candidates Cases.small_engine)).
Proof.
  assert (0 <= query_candidates Cases.small_engine)%Z as Hn by (by vm_compute).
  split; [exact Hn|].
  exact (proj1 (planner_candidates_are_bounded Cases.stocked Cases.small_engine "planner-model"
                  "which pumps feed the mixer" "{}" EmptyString EmptyString 2
                  (Build_env Cases.stocked 0 []) Hn)).
Defined.

(** X13: [_extract_queries] never returns an empty text or a text with
    whitespace around it, whatever the planner answered. *)
Theorem extracted_queries_are_stripped (H : Host) (content : string) :
  Forall (λ q, q ≠ EmptyString ∧ strip q = q) (_extract_queries H content).
Proof. apply _extract_queries_stripped. Qed.

(** X14: when [_run_select] returns, every row is an object, and for a
    [max_rows] that is not negative there are at most [max_rows] rows. *)
Theorem select_rows_are_capped (H : Host) (self : SelfQueryLLM) (body prefix : string)
    (e e' : env H) (rows : list pyval) :
  _run_select H self body prefix e = (inr rows, e') →
  (0 <= max_rows self)%Z →
  length rows ≤ Z.to_nat (max_rows self) ∧ Forall (λ row, ∃ kv, row = PDict kv) rows.
Proof.
  intros Hrun Hn. destruct (_run_select_rows H self body prefix e rows e' Hrun) as [F L].
  split; [by apply L | done].
Qed.

Lemma select_rows_are_capped_witness :
  _run_select Cases.stocked Cases.small_engine CLASSES_BODY CLASSES_PREFIX
    (Build_env Cases.stocked 0 [])
  = (inr [PDict [("s", PStr "http://example.org/pump1")];
          PDict [("s", PStr "http://example.org/pump2")]],
     Build_env Cases.stocked 1
       [request_to (CLASSES_PREFIX +:+ nl +:+ CLASSES_BODY) JSON 20
          "http://host.docker.internal:7200/repositories/plant"])
  ∧ (0 <= max_rows Cases.small_engine)%Z
  ∧ length [PDict [("s", PStr "http://example.org/pump1")];
            PDict [("s", PStr "http://example.org/pump2")]]
    ≤ Z.to_nat (max_rows Cases.small_engine).
Proof.
  assert (_run_select Cases.stocked Cases.small_engine CLASSES_BODY CLASSES_PREFIX
            (Build_env Cases.stocked 0 [])
          = (inr [PDict [("s", PStr "http://example.org/pump1")];
                  PDict [("s", PStr "http://example.org/pump2")]],
             Build_env Cases.stocked 1
               [request_to (CLASSES_PREFIX +:+ nl +:+ CLASSES_BODY) JSON 20
                  "http://host.docker.internal:7200/repositories/plant"])) as Hrun
    by (vm_compute; reflexivity).
  assert (0 <= max_rows Cases.small_engine)%Z as Hn by (by vm_compute).
  split; [exact Hrun|]. split; [exact Hn|].
  exact (proj1 (select_rows_are_capped Cases.stocked Cases.small_engine CLASSES_BODY
                  CLASSES_PREFIX _ _ _ Hrun Hn)).
Defined.

(** ** Escaped literals *)

Module EscapeFacts.
Import Py RuleFacts.

Lemma chars_append a b : chars (a +:+ b) = chars a ++ chars b.
Proof. unfold chars. induction a as [|c a IH]; simpl; [done | by f_equal]. Qed.

Lemma replace_chars_single a new l :
  replace_chars [a] new 0 l = l ≫= (λ c, if decide (c = a) then new else [c]).
Proof.
  induction l as [|c l IH]; [done|]. cbn [replace_chars]. rewrite bind_cons.
  destruct (decide (c = a)) as [->|Hc].
  - rewrite bool_decide_eq_true_2 by (by exists l). simpl. by rewrite IH.
  - rewrite bool_decide_eq_false_2; [simpl; by rewrite IH|].
    intros [k E]. injection E as E _. congruence.
Qed.

Lemma _escape_literal_chars raw : chars (_escape_literal raw) = chars raw ≫= escaped_char.
Proof.
  unfold _escape_literal, replace. rewrite !chars_text.
  change (chars "'") with [quote]. change (chars "\") with [backslash].
  change (chars "\'") with [backslash; quote]. change (chars "\\") with [backslash; backslash].
  rewrite !replace_chars_single.
  induction (chars raw) as [|c l IH]; [done|].
  rewrite !bind_cons, bind_app, IH. f_equal. unfold escaped_char.
  destruct (decide (c = backslash)) as [->|H1]; [done|].
  destruct (decide (c = quote)) as [->|H2]; [done|].
  simpl. rewrite decide_False by done. done.
Qed.

Lemma unescape_escaped l : unescape (l ≫= escaped_char) = l.
Proof.
  induction l as [|c l IH]; [done|]. rewrite bind_cons. unfold escaped_char at 1.
  destruct (decide (c = backslash)) as [->|H1]; [simpl; by rewrite IH|].
  destruct (decide (c = quote)) as [->|H2]; [simpl; by rewrite IH|].
  simpl. rewrite decide_False by done. by rewrite IH.
Qed.

Lemma closes_literal_escaped l : closes_literal (l ≫= escaped_char) = false.
Proof.
  induction l as [|c l IH]; [done|]. rewrite bind_cons. unfold escaped_char at 1.
  destruct (decide (c = backslash)) as [->|H1]; [simpl; by rewrite IH|].
  destruct (decide (c = quote)) as [->|H2]; [simpl; by rewrite IH|].
  simpl. rewrite !decide_False by done. by rewrite IH.
Qed.

Lemma escaped_char_plain c : c ≠ backslash → c ≠ quote → escaped_char c = [c].
Proof. intros H1 H2. unfold escaped_char. by rewrite !decide_False. Qed.

Lemma escaped_plain l :
  Forall unquoted l → l ≫= escaped_char = l.
Proof.
  induction 1 as [|c l [H1 H2] _ IH]; [done|].
  by rewrite bind_cons, IH, escaped_char_plain.
Qed.

Lemma escaped_last pv l :
  isw (Lang.last_or pv (l ≫= escaped_char)) = isw (Lang.last_or pv l).
Proof.
  destruct l as [|c l _] using rev_ind; [done|].
  rewrite bind_app. simpl. rewrite app_nil_r. unfold Lang.last_or, escaped_char.
  destruct (decide (c = backslash)) as [->|H1];
    [|destruct (decide (c = quote)) as [->|H2]].
  - change [backslash; backslash] with ([backslash] ++ [backslash]).
    by rewrite app_assoc, !last_snoc.
  - change [backslash; quote] with ([backslash] ++ [quote]).
    by rewrite app_assoc, !last_snoc.
  - by rewrite !last_snoc.
Qed.

Lemma escaped_head l d :
  isw (head (l ++ [d])) = false → isw (head ((l ≫= escaped_char) ++ [d])) = false.
Proof.
  destruct l as [|c l]; [done|]. rewrite bind_cons. simpl. unfold escaped_char.
  destruct (decide (c = backslash)) as [->|H1]; [done|].
  destruct (decide (c = quote)) as [->|H2]; done.
Qed.

End EscapeFacts.

(** X15: [_escape_literal] escapes so that the text can stand between
    single quotes: reading the backslashes back gives the raw text, so
    different texts stay different, and no quote of the escaped text is
    left without a backslash of its own that would end the literal; a
    text without backslash and quote is left as it is. *)
Theorem escaped_literal_reads_back (raw : string) :
  unescape (chars (_escape_literal raw)) = chars raw
  ∧ closes_literal (chars (_escape_literal raw)) = false
  ∧ (Forall unquoted (chars raw) → _escape_literal raw = raw).
Proof.
  rewrite EscapeFacts._escape_literal_chars. split; [apply EscapeFacts.unescape_escaped|].
  split; [apply EscapeFacts.closes_literal_escaped|].
  intros Hp. rewrite <- (RuleFacts.text_chars (_escape_literal raw)),
    EscapeFacts._escape_literal_chars, (EscapeFacts.escaped_plain _ Hp).
  apply RuleFacts.text_chars.
Qed.

(** ** Forbidden words that come with the question *)

Module QuestionFacts.
Import Py Re Lang Rules RuleFacts CharFacts EscapeFacts.

Lemma ci_eq_unquoted m w : ci_eq m w → Forall unquoted (chars w) → Forall unquoted m.
Proof.
  unfold ci_eq. generalize (chars w). intros l. revert l.
  induction m as [|x m IH]; intros [|c l]; try done. rewrite !fmap_cons.
  intros [= Hx Hm] [Hc Hl]%Forall_cons. constructor; [|by eapply IH].
  split; intros ->.
  - apply (lower_char_eq_self backslash c) in Hx; [|done..]. by destruct Hc.
  - apply (lower_char_eq_self quote c) in Hx; [|done..]. by destruct Hc.
Qed.

Lemma spaces_unquoted ws : spaces ws → Forall unquoted ws.
Proof.
  intros Hs. eapply Forall_impl; [exact Hs|].
  intros c Hc. split; intros ->; by vm_compute in Hc.
Qed.

Lemma forbidden_word_unquoted K : K ∈ FORBIDDEN_WORDS → Forall unquoted (chars K).
Proof.
  unfold FORBIDDEN_WORDS. intros HK.
  repeat (apply elem_of_cons in HK as [->|HK];
          [repeat (constructor; [split; by vm_compute|]); constructor|]).
  by apply elem_of_nil in HK.
Qed.

Lemma forbidden_text_unquoted m :
  (∃ K, K ∈ FORBIDDEN_WORDS ∧ ci_eq m K) ∨ values_fragment m → Forall unquoted m.
Proof.
  intros [(K & HK & E)|(v & w1 & w2 & h & -> & Hv & H1 & H2 & Hh)].
  - eapply ci_eq_unquoted; [exact E | by apply forbidden_word_unquoted].
  - repeat apply Forall_app_2.
    + eapply ci_eq_unquoted; [exact Hv|].
      repeat (constructor; [split; by vm_compute|]); constructor.
    + by apply spaces_unquoted.
    + repeat (constructor; [split; by vm_compute|]); constructor.
    + by apply spaces_unquoted.
    + eapply ci_eq_unquoted; [exact Hh|].
      repeat (constructor; [split; by vm_compute|]); constructor.
Qed.

Lemma escaped_last_word pre :
  from_option isword false (last (pre ≫= escaped_char)) = from_option isword false (last pre).
Proof.
  destruct pre as [|c pre _] using rev_ind; [done|].
  rewrite bind_app. simpl. rewrite app_nil_r, last_snoc. unfold escaped_char.
  destruct (decide (c = backslash)) as [->|H1];
    [|destruct (decide (c = quote)) as [->|H2]].
  - change [backslash; backslash] with ([backslash] ++ [backslash]).
    by rewrite app_assoc, last_snoc.
  - change [backslash; quote] with ([backslash] ++ [quote]).
    by rewrite app_assoc, last_snoc.
  - by rewrite last_snoc.
Qed.

Lemma escaped_head_word post :
  from_option isword false (head post) = false →
  from_option isword false (head (post ≫= escaped_char)) = false.
Proof.
  destruct post as [|c post]; [done|]. rewrite bind_cons. simpl. unfold escaped_char.
  destruct (decide (c = backslash)) as [->|H1]; [done|].
  destruct (decide (c = quote)) as [->|H2]; done.
Qed.

(** A forbidden text of the question is a forbidden text of any query
    that holds the escaped question between two quotes. *)
Lemma forbidden_in_quotes uq before after q :
  contains_forbidden uq →
  chars q = (before ++ [quote]) ++ chars (_escape_literal uq) ++ (quote :: after) →
  contains_forbidden q.
Proof.
  intros (pre & m & post & E & Hpre & Hm & Hpost) Hq.
  pose proof (forbidden_text_unquoted m Hm) as Hu.
  exists ((before ++ [quote]) ++ (pre ≫= escaped_char)), m,
    ((post ≫= escaped_char) ++ quote :: after).
  split; [|split; [|split; [done|]]].
  - rewrite Hq, _escape_literal_chars, E, !bind_app, (escaped_plain m).
    + by rewrite <- !app_assoc.
    + exact Hu.
  - unfold no_word_before in *.
    destruct (pre ≫= escaped_char) as [|c l] eqn:Ee using rev_ind.
    + by rewrite app_nil_r, last_snoc.
    + rewrite app_assoc, last_snoc. rewrite <- Hpre, <- escaped_last_word, Ee, last_snoc.
      done.
  - unfold no_word_after in *.
    destruct post as [|c post]; [done|].
    pose proof (escaped_head_word (c :: post) Hpost) as Hh.
    destruct ((c :: post) ≫= escaped_char) as [|d l]; [done|]. done.
Qed.

Lemma _validate_query_forbidden self q :
  (len q <= max_query_chars self)%Z → _query_type q ∈ allowed_keywords self →
  contains_forbidden q →
  _validate_query self q None = (false, Some "Query contains forbidden operation").
Proof.
  intros Hlen Hty Hf. unfold _validate_query.
  destruct (len q >? max_query_chars self)%Z eqn:Hgt; [apply Z.gtb_lt in Hgt; lia|].
  cbv zeta. apply allowed_types_elem in Hty. rewrite (bool_decide_eq_true_2 _ Hty). cbn [negb].
  apply search_forbidden in Hf. by rewrite (bool_decide_eq_true_2 _ Hf).
Qed.

Lemma _fallback_query_chars self uq :
  chars (_fallback_query self uq) =
    (chars "SELECT ?s ?p ?o WHERE { ?s ?p ?o . FILTER(CONTAINS(LCASE(STR(?s)), LCASE("
     ++ [quote])
    ++ chars (_escape_literal uq)
    ++ (quote :: chars ")) || CONTAINS(LCASE(STR(?o)), LCASE('"
          ++ chars (_escape_literal uq) ++ chars "'))) } LIMIT "
          ++ chars (str_of_int (max_rows self))).
Proof.
  unfold _fallback_query. rewrite !chars_append. cbv zeta.
  rewrite <- !app_assoc. reflexivity.
Qed.

Lemma _fallback_query_type self uq : _query_type (_fallback_query self uq) = "SELECT".
Proof.
  apply _query_type_keyword; [left|].
  exists [], (chars "SELECT"). eexists.
  split; [rewrite _fallback_query_chars; reflexivity|].
  split; [constructor|]. split; done.
Qed.

Lemma _fallback_query_limit self uq : contains_ci "limit" (_fallback_query self uq).
Proof.
  unfold contains_ci. rewrite _fallback_query_chars.
  exists ((chars "SELECT ?s ?p ?o WHERE { ?s ?p ?o . FILTER(CONTAINS(LCASE(STR(?s)), LCASE("
           ++ [quote])
          ++ chars (_escape_literal uq)
          ++ (quote :: chars ")) || CONTAINS(LCASE(STR(?o)), LCASE('"
                ++ chars (_escape_literal uq) ++ chars "'))) } ")),
    (chars "LIMIT"), (chars " " ++ chars (str_of_int (max_rows self))).
  split; [|done].
  change (chars "'))) } LIMIT ") with (chars "'))) } " ++ chars "LIMIT" ++ chars " ").
  repeat first [rewrite <- app_assoc | rewrite <- app_comm_cons]. reflexivity.
Qed.

End QuestionFacts.

(** X16: a question that holds a forbidden text, one of the twelve words
    between word boundaries or the VALUES fragment, makes the fallback
    query hold it too, between the quotes of its literals; the validator
    then rejects the fallback query, with the reason of the forbidden
    operation when the query is short enough. *)
Theorem forbidden_word_in_question_blocks_fallback (self : SelfQueryLLM) (user_query : string) :
  contains_forbidden user_query →
  contains_forbidden (_fallback_query self user_query)
  ∧ (_validate_query self (_fallback_query self user_query) None).1 = false
  ∧ ((len (_fallback_query self user_query) <= max_query_chars self)%Z →
     _validate_query self (_fallback_query self user_query) None
     = (false, Some "Query contains forbidden operation")).
Proof.
  intros Hf.
  assert (contains_forbidden (_fallback_query self user_query)) as Hq.
  { eapply QuestionFacts.forbidden_in_quotes; [exact Hf|].
    apply QuestionFacts._fallback_query_chars. }
  split; [done|]. split.
  - destruct (_validate_query self _ None).1 eqn:Hv; [|done].
    apply RuleFacts._validate_query_accepts in Hv as (_ & _ & Hn & _). done.
  - intros Hlen. apply QuestionFacts._validate_query_forbidden; [done| |done].
    rewrite QuestionFacts._fallback_query_type. unfold allowed_keywords. left.
Qed.

Lemma forbidden_word_in_question_blocks_fallback_witness :
  contains_forbidden "which pumps run with valves"
  ∧ _validate_query Cases.small_engine
      (_fallback_query Cases.small_engine "which pumps run with valves") None
    = (false, Some "Query contains forbidden operation").
Proof.
  assert (contains_forbidden "which pumps run with valves") as Hf
    by (apply RuleFacts.search_forbidden; vm_compute; eauto).
  split; [exact Hf|].
  apply (proj2 (proj2 (forbidden_word_in_question_blocks_fallback Cases.small_engine
                         "which pumps run with valves" Hf))).
  by vm_compute.
Defined.

(** X17: whatever the question, the fallback query is a SELECT with a
    LIMIT; the validator accepts it exactly when it is no longer than
    [max_query_chars] and holds no forbidden text. *)
Theorem fallback_query_is_a_bounded_select (self : SelfQueryLLM) (user_query : string) :
  _query_type (_fallback_query self user_query) = "SELECT"
  ∧ contains "limit" (lower (_fallback_query self user_query)) = true
  ∧ ((_validate_query self (_fallback_query self user_query) None).1 = true ↔
       (len (_fallback_query self user_query) <= max_query_chars self)%Z
       ∧ ¬ contains_forbidden (_fallback_query self user_query)).
Proof.
  pose proof (QuestionFacts._fallback_query_type self user_query) as Hty.
  pose proof (QuestionFacts._fallback_query_limit self user_query) as Hlim.
  split; [done|]. split.
  - change "limit" with (lower "limit"). by apply RuleFacts.contains_lower.
  - rewrite RuleFacts._validate_query_accepts. unfold validator_rules. split.
    + intros (? & _ & ? & _). done.
    + intros [Hlen Hn]. split; [done|]. split; [|split; [done|by intros _]].
      exists "SELECT". split; [left|].
      apply RuleFacts._query_type_keyword; [left | done].
Qed.

(** ** The tokens of the question and the lexical candidates *)

Module TokenFacts.
Import Py Re Lang Rules ReFacts RuleFacts CharFacts EscapeFacts.

Lemma match_at_class least cls pv l st :
  match_at (Pattern (Rep true least cls) false) pv l = Some st →
  l = reported l st ++ rest st
  ∧ Forall (λ c, cls c = true) (reported l st) ∧ least ≤ length (reported l st).
Proof.
  unfold match_at. simpl expr. simpl ignorecase. intros Hh.
  assert (st ∈ run false (Rep true least cls) (MState pv l None)) as Hin
    by (destruct (run _ _ _); [done | injection Hh as ->; left]).
  apply elem_of_run_plain in Hin as (m & [Hm Hl] & E & _ & G); [|done].
  simpl in *. unfold reported. rewrite G, E, length_app.
  replace (length m + length (rest st) - length (rest st)) with (length m) by lia.
  by rewrite take_app_length.
Qed.

Lemma findall_from_class least cls l : ∀ skip pv x,
  x ∈ findall_from (Pattern (Rep true least cls) false) skip pv l →
  Forall (λ c, cls c = true ∧ c ∈ l) x ∧ least ≤ length x.
Proof.
  induction l as [|c l IH]; intros skip pv x.
  - destruct skip as [|k]; simpl; [|by intros ?%elem_of_nil].
    destruct (match_at _ pv []) as [st|] eqn:E; [|by intros ?%elem_of_nil].
    intros ->%list_elem_of_singleton.
    apply match_at_class in E as (E & _ & Hl).
    symmetry in E. apply app_eq_nil in E as [E _]. rewrite E in *. by split.
  - assert (∀ k pv, x ∈ findall_from (Pattern (Rep true least cls) false) k pv l →
                    Forall (λ c0, cls c0 = true ∧ c0 ∈ c :: l) x ∧ least ≤ length x) as Hrec.
    { intros k pv' [F L]%IH. split; [|done].
      eapply Forall_impl; [exact F|]. intros d [? ?]. split; [done | by right]. }
    destruct skip as [|k]; simpl; [|apply Hrec].
    destruct (match_at _ pv (c :: l)) as [st|] eqn:E; [|apply Hrec].
    intros [->|Hx]%elem_of_cons; [|by eapply Hrec].
    apply match_at_class in E as (E & F & Hl). split; [|done].
    apply Forall_forall. intros d Hd. split.
    + rewrite Forall_forall in F. by apply F.
    + rewrite E. apply elem_of_app. by left.
Qed.

Lemma lower_char_idemp c : lower_char (lower_char c) = lower_char c.
Proof. each_char c; reflexivity. Qed.

Lemma isusertoken_unquoted c : isusertoken c = true → unquoted c.
Proof. intros Hc. split; intros ->; by vm_compute in Hc. Qed.

(** What [USER_QUERY_TOKEN_RE] finds in a lowered text. *)
Lemma user_tokens_found uq tok :
  tok ∈ findall USER_QUERY_TOKEN_RE (lower uq) →
  2 ≤ length (chars tok)
  ∧ Forall (λ c, isusertoken c = true ∧ lower_char c = c) (chars tok).
Proof.
  unfold findall. intros (x & -> & Hx)%list_elem_of_fmap. rewrite chars_text.
  apply (findall_from_class 2 isusertoken) in Hx as [F L]. split; [done|].
  eapply Forall_impl; [exact F|]. intros c [Hc Hin]. split; [done|].
  unfold lower in Hin. rewrite chars_text in Hin.
  apply list_elem_of_fmap in Hin as (d & -> & _). apply lower_char_idemp.
Qed.

(** The loop of [_tokenize_user_query]. *)
Lemma _tokenize_user_query_loop self uq :
  NoDup (_tokenize_user_query self uq)
  ∧ length (_tokenize_user_query self uq) ≤ Z.to_nat (Z.max 1 (lexical_max_tokens self))
  ∧ Forall (λ tok, tok ∈ findall USER_QUERY_TOKEN_RE (lower uq)) (_tokenize_user_query self uq).
Proof.
  unfold _tokenize_user_query.
  generalize (findall USER_QUERY_TOKEN_RE (lower uq)). intros found.
  match goal with |- context [?F found ∅ []] => set (loop := F) end.
  assert (∀ fs seen tokens,
            NoDup tokens → (∀ t, t ∈ tokens → t ∈ seen) →
            (Z.of_nat (length tokens) < Z.max 1 (lexical_max_tokens self))%Z →
            NoDup (loop fs seen tokens)
            ∧ length (loop fs seen tokens) ≤ Z.to_nat (Z.max 1 (lexical_max_tokens self))
            ∧ Forall (λ tok, tok ∈ tokens ∨ tok ∈ fs) (loop fs seen tokens)) as Hloop.
  { induction fs as [|tok fs IH]; intros seen tokens Hnd Hseen Hlen.
    - simpl. split; [done|]. split; [lia|]. apply Forall_forall. by left.
    - unfold loop. simpl. fold loop.
      destruct (decide (tok ∈ seen)) as [Hin|Hout].
      + destruct (IH seen tokens Hnd Hseen Hlen) as (I1 & I2 & I3).
        split; [done|]. split; [done|].
        eapply Forall_impl; [exact I3|]. intros t [?|?]; [by left | right; by right].
      + assert (NoDup (tokens ++ [tok])) as Hnd'.
        { apply NoDup_app. split; [done|]. split; [|apply NoDup_singleton].
          intros t Ht ->%list_elem_of_singleton. by apply Hout, Hseen. }
        destruct (Z.of_nat (length (tokens ++ [tok])) >=? lexical_max_tokens self)%Z eqn:Hfull.
        * split; [done|]. split; [rewrite length_app; simpl; lia|].
          apply Forall_forall. intros t [Ht| ->%list_elem_of_singleton]%elem_of_app;
            [by left | right; left].
        * destruct (IH ({[tok]} ∪ seen) (tokens ++ [tok]) Hnd') as (I1 & I2 & I3).
          -- intros t [Ht| ->%list_elem_of_singleton]%elem_of_app.
             ++ apply elem_of_union_r. by apply Hseen.
             ++ apply elem_of_union_l. by apply elem_of_singleton.
          -- pose proof (Zge_cases (Z.of_nat (length (tokens ++ [tok])))
                           (lexical_max_tokens self)) as Hc.
             rewrite Hfull in Hc. lia.
          -- split; [done|]. split; [done|].
             eapply Forall_impl; [exact I3|].
             intros t [[Ht| ->%list_elem_of_singleton]%elem_of_app|Ht];
               [by left | right; left | right; by right]. }
  destruct (Hloop found ∅ []) as (I1 & I2 & I3); [constructor | by intros t ?%elem_of_nil | simpl; lia|].
  split; [done|]. split; [done|].
  eapply Forall_impl; [exact I3|]. by intros t [?%elem_of_nil|?].
Qed.

End TokenFacts.

(** X18: the tokens of a question are distinct, at most
    [lexical_max_tokens] of them (one when that setting is below 1), and
    each is a run of two or more of the characters [a-z0-9_-] that
    [USER_QUERY_TOKEN_RE] finds in the lowered question: no capital
    letter, no quote and no backslash is in a token, so escaping leaves
    a token as it is. *)
Theorem user_tokens_are_distinct_and_capped (self : SelfQueryLLM) (user_query : string) :
  NoDup (_tokenize_user_query self user_query)
  ∧ length (_tokenize_user_query self user_query)
    ≤ Z.to_nat (Z.max 1 (lexical_max_tokens self))
  ∧ Forall (λ tok, tok ∈ findall USER_QUERY_TOKEN_RE (lower user_query)
                   ∧ 2 ≤ length (chars tok)
                   ∧ Forall (λ c, isusertoken c = true ∧ lower_char c = c) (chars tok)
                   ∧ _escape_literal tok = tok)
      (_tokenize_user_query self user_query).
Proof.
  destruct (TokenFacts._tokenize_user_query_loop self user_query) as (H1 & H2 & H3).
  split; [done|]. split; [done|].
  eapply Forall_impl; [exact H3|]. intros tok Hin.
  destruct (TokenFacts.user_tokens_found user_query tok Hin) as [Hl Hc].
  split; [done|]. split; [done|]. split; [done|].
  rewrite <- (RuleFacts.text_chars (_escape_literal tok)), EscapeFacts._escape_literal_chars,
    EscapeFacts.escaped_plain; [apply RuleFacts.text_chars|].
  eapply Forall_impl; [exact Hc|]. intros c [Hu _]. by apply TokenFacts.isusertoken_unquoted.
Qed.

Module LexicalFacts.
Import Py Re Lang Rules RuleFacts EscapeFacts QuestionFacts.

Lemma _build_lexical_candidates_unfold self uq :
  _build_lexical_candidates self uq =
    if _tokenize_user_query self uq is [] then [] else
    if lexical_filters self (_tokenize_user_query self uq) is [] then [] else
    slice_to (lexical_max_candidates self)
      (lexical_queries self (join " || " (lexical_filters self (_tokenize_user_query self uq)))).
Proof. reflexivity. Qed.

Lemma lexical_query_shape self where_ q :
  q ∈ lexical_queries self where_ →
  ∃ before after,
    chars q = chars "SELECT" ++ chars " " ++ before ++ chars where_ ++ chars ") } "
              ++ chars "LIMIT" ++ after.
Proof.
  unfold lexical_queries.
  intros [->|[->|Hq%elem_of_nil]%elem_of_cons]%elem_of_cons; [| |done].
  - exists (chars "?s ?p ?o ?label WHERE { " ++ chars "?s ?p ?o . "
            ++ chars "OPTIONAL { ?s <http://www.w3.org/2000/01/rdf-schema#label> ?label } "
            ++ chars "OPTIONAL { ?s <http://www.w3.org/2004/02/skos/core#prefLabel> ?label } "
            ++ chars "FILTER("),
      (chars " " ++ chars (str_of_int (max_rows self))).
    rewrite !chars_append, <- !app_assoc. reflexivity.
  - exists (chars "?s ?label WHERE { " ++ chars "?s a ?type . "
            ++ chars "OPTIONAL { ?s <http://www.w3.org/2000/01/rdf-schema#label> ?label } "
            ++ chars "OPTIONAL { ?s <http://www.w3.org/2004/02/skos/core#prefLabel> ?label } "
            ++ chars "FILTER("),
      (chars " " ++ chars (str_of_int (max_rows self))).
    rewrite !chars_append, <- !app_assoc. reflexivity.
Qed.

Lemma lexical_query_type self where_ q :
  q ∈ lexical_queries self where_ → _query_type q = "SELECT" ∧ contains_ci "limit" q.
Proof.
  intros (before & after & E)%lexical_query_shape. split.
  - apply _query_type_keyword; [left|].
    exists [], (chars "SELECT"), (chars " " ++ before ++ chars where_ ++ chars ") } "
                                    ++ chars "LIMIT" ++ after).
    split; [exact E|]. split; [constructor|]. split; done.
  - exists (chars "SELECT" ++ chars " " ++ before ++ chars where_ ++ chars ") } "),
      (chars "LIMIT"), after.
    split; [|done]. rewrite E, <- !app_assoc. reflexivity.
Qed.

Lemma lexical_filter_shape self tokens flt :
  flt ∈ lexical_filters self tokens →
  ∃ tok before after,
    tok ∈ tokens
    ∧ chars flt = (before ++ [quote]) ++ chars (_escape_literal tok) ++ quote :: after.
Proof.
  unfold lexical_filters. intros (tok & Hf & Ht)%list_elem_of_bind. exists tok.
  cbv zeta in Hf.
  assert (∀ X : string,
            ∃ before after,
              chars (X +:+ "LCASE('" +:+ _escape_literal tok +:+ "'))")
              = (before ++ [quote]) ++ chars (_escape_literal tok) ++ quote :: after) as Hshape.
  { intros X. exists (chars X ++ chars "LCASE("), (chars "))").
    rewrite !chars_append.
    change (chars "LCASE('") with (chars "LCASE(" ++ [quote]).
    change (chars "'))") with (quote :: chars "))").
    by rewrite <- !app_assoc. }
  repeat (apply elem_of_app in Hf as [Hf|Hf]);
    [destruct (lexical_match_literals self) | destruct (lexical_match_labels self)
     | destruct (lexical_match_iri_local_names self) | destruct (lexical_match_predicates self)];
    try (by apply elem_of_nil in Hf);
    repeat (apply elem_of_cons in Hf as [->|Hf]); try (by apply elem_of_nil in Hf).
  - destruct (Hshape "CONTAINS(LCASE(STR(?o)), ") as (b & a & E). by exists b, a.
  - destruct (Hshape "CONTAINS(LCASE(STR(?label)), ") as (b & a & E). by exists b, a.
  - destruct (Hshape "CONTAINS(LCASE(REPLACE(STR(?s), '^.*[#/]', '')), ") as (b & a & E).
    by exists b, a.
  - destruct (Hshape "CONTAINS(LCASE(REPLACE(STR(?o), '^.*[#/]', '')), ") as (b & a & E).
    by exists b, a.
  - destruct (Hshape "CONTAINS(LCASE(REPLACE(STR(?p), '^.*[#/]', '')), ") as (b & a & E).
    by exists b, a.
Qed.

(** The filters of one token are there as soon as any filter is. *)
Lemma lexical_filters_token self tokens tok :
  lexical_filters self tokens ≠ [] → tok ∈ tokens →
  ∃ flt before after,
    flt ∈ lexical_filters self tokens
    ∧ chars flt = (before ++ [quote]) ++ chars (_escape_literal tok) ++ quote :: after.
Proof.
  intros Hne Htok.
  assert (lexical_filters self [tok] ≠ []) as Hone.
  { intros Hnil. apply Hne. unfold lexical_filters in *. simpl in Hnil.
    destruct (lexical_match_literals self); [done|].
    destruct (lexical_match_labels self); [done|].
    destruct (lexical_match_iri_local_names self); [done|].
    destruct (lexical_match_predicates self); [done|].
    clear. induction tokens as [|t ts IH]; [done|]. rewrite bind_cons. simpl. exact IH. }
  destruct (lexical_filters self [tok]) as [|flt rest] eqn:E; [done|].
  assert (flt ∈ lexical_filters self [tok]) as Hin by (rewrite E; left).
  destruct (lexical_filter_shape self [tok] flt Hin) as (t & b & a & Ht & Ec).
  apply list_elem_of_singleton in Ht as ->.
  exists flt, b, a. split; [|done].
  unfold lexical_filters in *. apply list_elem_of_bind. exists tok. split; [|done].
  apply list_elem_of_bind in Hin as (t' & Hin & ->%list_elem_of_singleton). done.
Qed.

Lemma join_elem sep (fs : list string) f :
  f ∈ fs → ∃ J1 J2, chars (join sep fs) = J1 ++ chars f ++ J2.
Proof.
  unfold join. induction fs as [|x fs IH]; [by intros ?%elem_of_nil|].
  intros [->|Hf]%elem_of_cons.
  - destruct fs as [|y fs]; simpl.
    + exists [], []. by rewrite app_nil_r.
    + exists [], (chars (sep +:+ String.concat sep (y :: fs))).
      by rewrite chars_append.
  - destruct (IH Hf) as (J1 & J2 & E). destruct fs as [|y fs]; [by apply elem_of_nil in Hf|].
    change (String.concat sep (x :: y :: fs))
      with (x +:+ sep +:+ String.concat sep (y :: fs)).
    exists (chars x ++ chars sep ++ J1), J2.
    by rewrite !chars_append, E, <- !app_assoc.
Qed.

Lemma lexical_query_forbidden self tokens tok q :
  tok ∈ tokens → contains_forbidden tok → lexical_filters self tokens ≠ [] →
  q ∈ lexical_queries self (join " || " (lexical_filters self tokens)) →
  contains_forbidden q.
Proof.
  intros Htok Hf Hne Hq.
  destruct (lexical_filters_token self tokens tok Hne Htok) as (flt & b & a & Hflt & Eflt).
  destruct (join_elem " || " _ flt Hflt) as (J1 & J2 & EJ).
  destruct (lexical_query_shape self _ q Hq) as (before & after & Eq).
  eapply (forbidden_in_quotes tok
            (chars "SELECT" ++ chars " " ++ before ++ J1 ++ b)
            (a ++ J2 ++ chars ") } " ++ chars "LIMIT" ++ after)); [done|].
  rewrite Eq, EJ, Eflt, <- !app_assoc. simpl. reflexivity.
Qed.

End LexicalFacts.

(** X19: the lexical search proposes at most two queries, cut at
    [lexical_max_candidates], and none when the question has no token
    or every kind of match is switched off. Each of them is a SELECT
    with a LIMIT, so the validator accepts it exactly when it is short
    enough and holds no forbidden text. *)
Theorem lexical_candidates_are_bounded_selects (self : SelfQueryLLM) (user_query : string) :
  length (_build_lexical_candidates self user_query) ≤ 2
  ∧ length (_build_lexical_candidates self user_query)
    ≤ (if (lexical_max_candidates self <? 0)%Z then 2 - Z.to_nat (- lexical_max_candidates self)
       else Z.to_nat (lexical_max_candidates self))
  ∧ (_tokenize_user_query self user_query = [] →
     _build_lexical_candidates self user_query = [])
  ∧ (lexical_match_literals self = false → lexical_match_labels self = false →
     lexical_match_iri_local_names self = false → lexical_match_predicates self = false →
     _build_lexical_candidates self user_query = [])
  ∧ Forall (λ q, _query_type q = "SELECT"
                 ∧ contains "limit" (lower q) = true
                 ∧ ((_validate_query self q None).1 = true ↔
                      (len q <= max_query_chars self)%Z ∧ ¬ contains_forbidden q))
      (_build_lexical_candidates self user_query).
Proof.
  rewrite LexicalFacts._build_lexical_candidates_unfold.
  assert (∀ w, length (slice_to (lexical_max_candidates self) (lexical_queries self w)) ≤ 2
               ∧ length (slice_to (lexical_max_candidates self) (lexical_queries self w))
                 ≤ (if (lexical_max_candidates self <? 0)%Z
                    then 2 - Z.to_nat (- lexical_max_candidates self)
                    else Z.to_nat (lexical_max_candidates self))) as Hlen.
  { intros w. rewrite RankFacts.slice_to_length. simpl.
    destruct (lexical_max_candidates self <? 0)%Z; lia. }
  assert (0 ≤ (if (lexical_max_candidates self <? 0)%Z
               then 2 - Z.to_nat (- lexical_max_candidates self)
               else Z.to_nat (lexical_max_candidates self))) as H0 by lia.
  split; [|split; [|split; [|split]]].
  - destruct (_tokenize_user_query self user_query); [simpl; lia|].
    destruct (lexical_filters self _); [simpl; lia | apply Hlen].
  - destruct (_tokenize_user_query self user_query); [exact H0|].
    destruct (lexical_filters self _); [exact H0 | apply Hlen].
  - by intros ->.
  - intros H1 H2 H3 H4. destruct (_tokenize_user_query self user_query) as [|t ts]; [done|].
    assert (lexical_filters self (t :: ts) = []) as ->; [|done].
    unfold lexical_filters. rewrite H1, H2, H3, H4.
    generalize (t :: ts). intros l. induction l as [|x l IH]; [done|].
    rewrite bind_cons. simpl. exact IH.
  - destruct (_tokenize_user_query self user_query) as [|t ts]; [constructor|].
    destruct (lexical_filters self (t :: ts)) as [|f fs]; [constructor|].
    apply slice_to_Forall, Forall_forall. intros q Hq.
    destruct (LexicalFacts.lexical_query_type self _ q Hq) as [Hty Hlim].
    split; [done|]. split.
    + change "limit" with (lower "limit"). by apply RuleFacts.contains_lower.
    + rewrite RuleFacts._validate_query_accepts. unfold validator_rules. split.
      * intros (? & _ & ? & _). done.
      * intros [Hl Hn]. split; [done|]. split; [|split; [done|by intros _]].
        exists "SELECT". split; [left|].
        apply RuleFacts._query_type_keyword; [left | done].
Qed.

(** X20: a token of the question that holds a forbidden text, such as
    the word [with], goes into the filter of every lexical candidate
    between quotes: every lexical candidate then holds a forbidden text,
    and the validator rejects it. *)
Theorem forbidden_token_blocks_lexical_candidates (self : SelfQueryLLM)
    (user_query token : string) :
  token ∈ _tokenize_user_query self user_query →
  contains_forbidden token →
  Forall (λ q, contains_forbidden q ∧ (_validate_query self q None).1 = false)
    (_build_lexical_candidates self user_query).
Proof.
  intros Htok Hf. rewrite LexicalFacts._build_lexical_candidates_unfold.
  destruct (_tokenize_user_query self user_query) as [|t ts] eqn:Et; [constructor|].
  destruct (lexical_filters self (t :: ts)) as [|f fs] eqn:Ef; [constructor|].
  apply slice_to_Forall, Forall_forall. intros q Hq.
  assert (contains_forbidden q) as Hc.
  { eapply (LexicalFacts.lexical_query_forbidden self (t :: ts) token q); try done.
    - by rewrite Ef.
    - by rewrite Ef. }
  split; [done|].
  destruct (_validate_query self q None).1 eqn:Hv; [|done].
  apply RuleFacts._validate_query_accepts in Hv as (_ & _ & Hn & _). done.
Qed.

Lemma forbidden_token_blocks_lexical_candidates_witness :
  "with" ∈ _tokenize_user_query Cases.small_engine "which pumps run with valves"
  ∧ contains_forbidden "with"
  ∧ Forall (λ q, contains_forbidden q
                 ∧ (_validate_query Cases.small_engine q None).1 = false)
      (_build_lexical_candidates Cases.small_engine "which pumps run with valves").
Proof.
  assert ("with" ∈ _tokenize_user_query Cases.small_engine "which pumps run with valves")
    as Htok by (vm_compute; do 3 right; left).
  assert (contains_forbidden "with") as Hf
    by (apply RuleFacts.search_forbidden; vm_compute; eauto).
  split; [exact Htok|]. split; [exact Hf|].
  exact (forbidden_token_blocks_lexical_candidates Cases.small_engine
           "which pumps run with valves" "with" Htok Hf).
Defined.

(** ** The case of the letters *)

Module CaseFacts.
Import Py Re Lang Rules RuleFacts CharFacts EscapeFacts TokenFacts.

Lemma chars_lower q : chars (lower q) = lower_char <$> chars q.
Proof. unfold lower. apply chars_text. Qed.

Lemma lower_lower q : lower (lower q) = lower q.
Proof.
  unfold lower at 1. rewrite chars_lower, <- list_fmap_compose. unfold lower. f_equal.
  apply list_fmap_ext. intros _ c _. apply lower_char_idemp.
Qed.

Lemma len_lower q : len (lower q) = len q.
Proof. by rewrite !EndpointFacts.len_chars, chars_lower, length_fmap. Qed.

Lemma ci_eq_lower m w : ci_eq (lower_char <$> m) w ↔ ci_eq m w.
Proof.
  unfold ci_eq. rewrite <- list_fmap_compose.
  assert (lower_char ∘ lower_char <$> m = lower_char <$> m) as ->; [|done].
  apply list_fmap_ext. intros _ c _. apply lower_char_idemp.
Qed.

Lemma spaces_lower m : spaces (lower_char <$> m) ↔ spaces m.
Proof.
  unfold spaces. rewrite Forall_fmap. apply Forall_iff. intros c. simpl.
  by rewrite isspace_lower_char.
Qed.

Lemma no_word_before_lower pre : no_word_before (lower_char <$> pre) ↔ no_word_before pre.
Proof.
  unfold no_word_before. rewrite fmap_last. destruct (last pre) as [c|]; simpl; [|done].
  by rewrite isword_lower_char.
Qed.

Lemma no_word_after_lower post : no_word_after (lower_char <$> post) ↔ no_word_after post.
Proof.
  unfold no_word_after. destruct post as [|c post]; simpl; [done|].
  by rewrite isword_lower_char.
Qed.

Lemma first_keyword_lower K q : first_keyword K (lower q) ↔ first_keyword K q.
Proof.
  unfold first_keyword. rewrite chars_lower. split.
  - intros (ws & kw & post & E & Hws & Hkw & Hpost).
    apply fmap_app_inv in E as (ws' & r & -> & E & Eq). symmetry in E.
    apply fmap_app_inv in E as (kw' & post' & -> & -> & ->).
    exists ws', kw', post'. split; [done|]. split; [by apply spaces_lower|].
    split; [by apply ci_eq_lower | by apply no_word_after_lower].
  - intros (ws & kw & post & -> & Hws & Hkw & Hpost).
    exists (lower_char <$> ws), (lower_char <$> kw), (lower_char <$> post).
    rewrite !fmap_app. split; [done|]. split; [by apply spaces_lower|].
    split; [by apply ci_eq_lower | by apply no_word_after_lower].
Qed.

Lemma values_fragment_lower m : values_fragment (lower_char <$> m) ↔ values_fragment m.
Proof.
  unfold values_fragment. split.
  - intros (v & w1 & w2 & h & E & Hv & H1 & H2 & Hh).
    apply fmap_app_inv in E as (v' & r & -> & E & ->). symmetry in E.
    apply fmap_app_inv in E as (w1' & r1 & -> & E & ->). symmetry in E.
    apply fmap_app_inv in E as (b & r2 & E & E' & ->). symmetry in E'.
    apply fmap_app_inv in E' as (w2' & h' & -> & -> & ->).
    assert (b = chars "{") as ->.
    { destruct b as [|c [|d b]]; try done. injection E as E.
      change (chars "{") with ["{"%char]. f_equal.
      apply (lower_char_eq_self "{"%char c); [done | done | by rewrite <- E]. }
    exists v', w1', w2', h'. split; [done|].
    split; [by apply ci_eq_lower|]. split; [by apply spaces_lower|].
    split; [by apply spaces_lower | by apply ci_eq_lower].
  - intros (v & w1 & w2 & h & -> & Hv & H1 & H2 & Hh).
    exists (lower_char <$> v), (lower_char <$> w1), (lower_char <$> w2), (lower_char <$> h).
    rewrite !fmap_app. split; [done|].
    split; [by apply ci_eq_lower|]. split; [by apply spaces_lower|].
    split; [by apply spaces_lower | by apply ci_eq_lower].
Qed.

Lemma contains_forbidden_lower q : contains_forbidden (lower q) ↔ contains_forbidden q.
Proof.
  unfold contains_forbidden, contains_bounded. rewrite chars_lower. split.
  - intros (pre & m & post & E & Hpre & Hm & Hpost).
    apply fmap_app_inv in E as (pre' & r & -> & E & Eq). symmetry in E.
    apply fmap_app_inv in E as (m' & post' & -> & -> & ->).
    exists pre', m', post'. split; [done|]. split; [by apply no_word_before_lower|].
    split; [|by apply no_word_after_lower].
    destruct Hm as [(K & HK & E)|Hv]; [left | right; by apply values_fragment_lower].
    exists K. split; [done | by apply ci_eq_lower].
  - intros (pre & m & post & -> & Hpre & Hm & Hpost).
    exists (lower_char <$> pre), (lower_char <$> m), (lower_char <$> post).
    rewrite !fmap_app. split; [done|]. split; [by apply no_word_before_lower|].
    split; [|by apply no_word_after_lower].
    destruct Hm as [(K & HK & E)|Hv]; [left | right; by apply values_fragment_lower].
    exists K. split; [done | by apply ci_eq_lower].
Qed.

Lemma _query_type_lower q : _query_type (lower q) = _query_type q.
Proof.
  destruct (_query_type_spec q) as [(K & HK & F & ->)|[N ->]].
  - apply _query_type_keyword; [done | by apply first_keyword_lower].
  - destruct (_query_type_spec (lower q)) as [(K & HK & F & _)|[_ ->]]; [|done].
    apply (proj1 (first_keyword_lower K q)) in F. by destruct (N K HK).
Qed.

Lemma _validate_query_lower self q :
  _validate_query self (lower q) None = _validate_query self q None.
Proof.
  unfold _validate_query. rewrite len_lower, _query_type_lower, lower_lower.
  assert (bool_decide (is_Some (search FORBIDDEN_QUERY_RE (lower q)))
          = bool_decide (is_Some (search FORBIDDEN_QUERY_RE q))) as ->; [|done].
  apply bool_decide_ext. rewrite !search_forbidden. apply contains_forbidden_lower.
Qed.

End CaseFacts.

(** X21: for a query of characters below 256, the type of the query is
    the keyword SELECT, ASK, CONSTRUCT or DESCRIBE it begins with after
    any whitespace, in capitals whatever the case it is written in, and
    UNKNOWN when it begins with none of them; the case of the letters of
    such a query makes no difference. *)
Theorem query_type_is_first_keyword (query : string) :
  Forall (λ K, _query_type query = K ↔ first_keyword K query) QUERY_KEYWORDS
  ∧ (_query_type query = "UNKNOWN" ↔
       Forall (λ K, ¬ first_keyword K query) QUERY_KEYWORDS)
  ∧ (_query_type query ∈ QUERY_KEYWORDS ∨ _query_type query = "UNKNOWN")
  ∧ _query_type (lower query) = _query_type query.
Proof.
  split; [|split; [|split]].
  - apply Forall_forall. intros K HK. by apply RuleFacts._query_type_keyword.
  - rewrite Forall_forall.
    destruct (RuleFacts._query_type_spec query) as [(K & HK & F & E)|[N E]].
    + rewrite E. split.
      * intros ->. unfold QUERY_KEYWORDS in HK.
        repeat (apply elem_of_cons in HK as [[=]|HK]). by apply elem_of_nil in HK.
      * intros Hn. by destruct (Hn K HK).
    + rewrite E. split; [by intros _ | done].
  - apply RuleFacts._query_type_cases.
  - apply CaseFacts._query_type_lower.
Qed.

(** X22: for a query of characters below 256, the validator does not
    look at the case of the letters: the query and the same query in
    lower case get the same verdict and the same reason. *)
Theorem validator_ignores_letter_case (self : SelfQueryLLM) (query : string) :
  _validate_query self (lower query) None = _validate_query self query None
  ∧ _validate_query self (lower query) (Some (_query_type (lower query)))
    = _validate_query self query (Some (_query_type query)).
Proof.
  rewrite !RuleFacts._validate_query_typed. split; apply CaseFacts._validate_query_lower.
Qed.

(** ** Normal forms *)

Module NormalFacts.
Import Py RuleFacts CharFacts StripFacts EscapeFacts TokenFacts CaseFacts.

Lemma split_chars_app cur w rest :
  Forall (λ c, isspace c = false) w →
  split_chars cur (w ++ rest) = split_chars (reverse w ++ cur) rest.
Proof.
  intros Hw. revert cur. induction Hw as [|c w Hc _ IH]; intros cur; [done|].
  simpl. rewrite Hc, IH, reverse_cons, <- app_assoc. done.
Qed.

Lemma split_chars_words l : ∀ cur,
  Forall (λ c, isspace c = false) cur → Forall word (split_chars cur l).
Proof.
  assert (∀ cur, cur ≠ [] → Forall (λ c, isspace c = false) cur → word (reverse cur)) as Hrev.
  { intros cur Hne Hcur. split.
    - intros E. apply Hne. by rewrite <- (reverse_involutive cur), E.
    - by apply Forall_reverse. }
  induction l as [|c l IH]; intros cur Hcur; simpl.
  - destruct cur as [|d cur]; [constructor|]. constructor; [|constructor].
    by apply Hrev.
  - destruct (isspace c) eqn:Hc.
    + destruct cur as [|d cur]; [by apply IH|].
      constructor; [by apply Hrev | by apply IH].
    + apply IH. by constructor.
Qed.

Lemma chars_join ws : chars (join " " (text <$> ws)) = glue ws.
Proof.
  unfold join. induction ws as [|w ws IH]; [done|].
  destruct ws as [|w' ws]; [apply chars_text|].
  change (String.concat " " (text <$> w :: w' :: ws))
    with (text w +:+ " " +:+ String.concat " " (text <$> w' :: ws)).
  rewrite !chars_append, chars_text, IH. reflexivity.
Qed.

Lemma split_chars_flush cur l :
  cur ≠ [] →
  split_chars cur [] = [reverse cur]
  ∧ split_chars cur (chr 32 :: l) = reverse cur :: split_chars [] l.
Proof. intros Hne. destruct cur; [done|]. split; reflexivity. Qed.

Lemma split_glue ws : Forall word ws → split_chars [] (glue ws) = ws.
Proof.
  induction 1 as [|w ws [Hne Hw] _ IH]; [done|].
  assert (reverse w ≠ []) as Hr
    by (intros E; apply Hne; by rewrite <- (reverse_involutive w), E).
  destruct ws as [|w' ws].
  - pose proof (split_chars_app [] w [] Hw) as E. rewrite !app_nil_r in E.
    simpl glue. rewrite E. destruct (split_chars_flush (reverse w) [] Hr) as [-> _].
    by rewrite reverse_involutive.
  - change (glue (w :: w' :: ws)) with (w ++ chr 32 :: glue (w' :: ws)).
    rewrite split_chars_app by done. rewrite app_nil_r.
    destruct (split_chars_flush (reverse w) (glue (w' :: ws)) Hr) as [_ ->].
    by rewrite reverse_involutive, IH.
Qed.

Lemma glue_trimmed ws : Forall word ws → trimmed (glue ws).
Proof.
  induction 1 as [|w ws [Hne Hw] Hws IH]; [done|].
  assert (from_option isspace false (head w) = false) as Hh.
  { destruct w as [|c w]; [done|]. by apply Forall_cons in Hw as [? _]. }
  destruct ws as [|w' ws].
  - simpl. split; [done|].
    destruct w as [|c w _] using rev_ind; [done|].
    rewrite last_snoc. by apply Forall_app in Hw as [_ [? _]%Forall_cons].
  - change (glue (w :: w' :: ws)) with (w ++ chr 32 :: glue (w' :: ws)). split.
    + destruct w as [|c w]; [done|]. done.
    + destruct IH as [_ IH]. rewrite last_app.
      assert (glue (w' :: ws) ≠ []) as Hg.
      { apply Forall_cons in Hws as [[Hne' _] _].
        destruct ws; simpl; [done|]. by destruct w'. }
      rewrite last_cons. destruct (last (glue (w' :: ws))) eqn:El; [done|].
      apply last_None in El. done.
Qed.

Lemma fmap_glue (f : ascii → ascii) ws :
  f (chr 32) = chr 32 → f <$> glue ws = glue (fmap (M:=list) f <$> ws).
Proof.
  intros Hf. induction ws as [|w ws IH]; [done|].
  destruct ws as [|w' ws]; [done|].
  change (glue (w :: w' :: ws)) with (w ++ chr 32 :: glue (w' :: ws)).
  rewrite fmap_app, fmap_cons, Hf, IH. done.
Qed.

Lemma word_lower w : word w → word (lower_char <$> w).
Proof.
  intros [Hne Hw]. split; [by destruct w|].
  apply Forall_fmap. eapply Forall_impl; [exact Hw|].
  intros c Hc. simpl. by rewrite isspace_lower_char.
Qed.

Lemma lower_words_idemp (ws : list (list ascii)) :
  fmap (M:=list) lower_char <$> (fmap (M:=list) lower_char <$> ws) = fmap (M:=list) lower_char <$> ws.
Proof.
  rewrite <- list_fmap_compose. apply list_fmap_ext. intros _ w _. simpl.
  rewrite <- list_fmap_compose. apply list_fmap_ext. intros _ c _. apply lower_char_idemp.
Qed.

(** The normal form: the lowered words, one space between them. *)
Lemma _normalize_query_chars q :
  chars (_normalize_query q) = glue (fmap (M:=list) lower_char <$> split_chars [] (chars q)).
Proof.
  unfold _normalize_query, split. rewrite chars_lower. unfold strip.
  rewrite chars_text, chars_join, strip_chars_fixed.
  - by apply fmap_glue.
  - apply glue_trimmed, split_chars_words. constructor.
Qed.

Lemma lowered_words q :
  Forall word (fmap (M:=list) lower_char <$> split_chars [] (chars q)).
Proof.
  apply Forall_fmap. eapply Forall_impl; [apply split_chars_words; constructor|].
  intros w Hw. by apply word_lower.
Qed.

Lemma lower_split q :
  lower <$> split q = text <$> (fmap (M:=list) lower_char <$> split_chars [] (chars q)).
Proof.
  unfold split. rewrite <- !list_fmap_compose. apply list_fmap_ext. intros _ w _. simpl.
  unfold lower. by rewrite chars_text.
Qed.

Lemma split_normalize q : split (_normalize_query q) = lower <$> split q.
Proof.
  rewrite lower_split. unfold split at 1.
  by rewrite _normalize_query_chars, split_glue by apply lowered_words.
Qed.

Lemma _normalize_query_join q : _normalize_query q = join " " (lower <$> split q).
Proof.
  rewrite <- (text_chars (_normalize_query q)), <- (text_chars (join _ _)). f_equal.
  by rewrite _normalize_query_chars, lower_split, chars_join.
Qed.

Lemma _normalize_query_idemp q : _normalize_query (_normalize_query q) = _normalize_query q.
Proof.
  rewrite (_normalize_query_join (_normalize_query q)), split_normalize.
  rewrite _normalize_query_join. f_equal.
  rewrite <- list_fmap_compose. apply list_fmap_ext. intros _ s _. simpl. apply lower_lower.
Qed.

End NormalFacts.

(** X23: the normal form of a query is its words in lower case with one
    space between them. Normalizing twice changes nothing more, and two
    queries have the same normal form, so that the second is taken for a
    repetition of the first, exactly when they have the same words up
    to the case of the letters, whatever whitespace separates them. *)
Theorem normal_form_is_the_lowered_words (query other : string) :
  _normalize_query query = join " " (lower <$> split query)
  ∧ split (_normalize_query query) = lower <$> split query
  ∧ _normalize_query (_normalize_query query) = _normalize_query query
  ∧ (_normalize_query query = _normalize_query other ↔
       lower <$> split query = lower <$> split other).
Proof.
  split; [apply NormalFacts._normalize_query_join|].
  split; [apply NormalFacts.split_normalize|].
  split; [apply NormalFacts._normalize_query_idemp|]. split.
  - intros E. by rewrite <- !NormalFacts.split_normalize, E.
  - intros E. by rewrite !NormalFacts._normalize_query_join, E.
Qed.

(** ** Around the engine: previews, the prompt, the messages *)

Module ShortFacts.
Import Py RuleFacts EscapeFacts NormalFacts.

Lemma len_append a b : len (a +:+ b) = (len a + len b)%Z.
Proof. rewrite !EndpointFacts.len_chars, chars_append, length_app. lia. Qed.

Lemma len_str_slice_to n s :
  (0 <= n)%Z → len (str_slice_to n s) = Z.min n (len s).
Proof.
  intros Hn. unfold str_slice_to.
  rewrite EndpointFacts.len_text, RankFacts.slice_to_length, EndpointFacts.len_chars.
  destruct (n <? 0)%Z eqn:Hneg; [apply Z.ltb_lt in Hneg; lia | lia].
Qed.

Lemma split_join_split value : split (join " " (split value)) = split value.
Proof.
  unfold split. rewrite chars_join, split_glue; [done|].
  apply split_chars_words. constructor.
Qed.

End ShortFacts.

(** X24: [_short] puts the words of a text on one line, one space
    between them, and, for a [max_len] that is not negative, returns at
    most [max_len + 3] characters: the line itself when it has at most
    [max_len] characters, and its first [max_len] characters followed by
    three dots otherwise. *)
Theorem short_text_is_bounded (value : string) (max_len : Z) :
  (0 <= max_len)%Z →
  (len (_short value max_len) <= max_len + 3)%Z
  ∧ ((len (join " " (split value)) <= max_len)%Z →
     _short value max_len = join " " (split value)
     ∧ split (_short value max_len) = split value)
  ∧ ((max_len < len (join " " (split value)))%Z →
     _short value max_len = str_slice_to max_len (join " " (split value)) +:+ "..."
     ∧ len (_short value max_len) = (max_len + 3)%Z).
Proof.
  intros Hn. unfold _short. cbv zeta.
  destruct (len (join " " (split value)) <=? max_len)%Z eqn:Hfit.
  - apply Z.leb_le in Hfit. split; [lia|]. split; [|lia].
    intros _. split; [done | apply ShortFacts.split_join_split].
  - apply Z.leb_gt in Hfit.
    assert (len (str_slice_to max_len (join " " (split value)) +:+ "...") = (max_len + 3)%Z)
      as Hlen.
    { rewrite ShortFacts.len_append, ShortFacts.len_str_slice_to by done.
      change (len "...") with 3%Z. lia. }
    split; [lia|]. split; [lia|]. done.
Qed.

Lemma short_text_is_bounded_witness :
  (0 <= 12)%Z
  ∧ (len (_short "SELECT  ?s
   WHERE { ?s ?p ?o }" 12) <= 12 + 3)%Z.
Proof.
  assert (0 <= 12)%Z as Hn by lia.
  split; [exact Hn|].
  exact (proj1 (short_text_is_bounded "SELECT  ?s
   WHERE { ?s ?p ?o }" 12 Hn)).
Defined.

Module PromptFacts.
Import Py RuleFacts EscapeFacts.

Lemma append_assoc a b c : (a +:+ b) +:+ c = a +:+ (b +:+ c).
Proof.
  rewrite <- (text_chars ((a +:+ b) +:+ c)), <- (text_chars (a +:+ (b +:+ c))).
  by rewrite !chars_append, app_assoc.
Qed.

Lemma append_nonempty a b : a ≠ EmptyString → a +:+ b ≠ EmptyString.
Proof. by destruct a. Qed.

Lemma join_nonempty sep x xs : x ≠ EmptyString → join sep (x :: xs) ≠ EmptyString.
Proof.
  intros Hx. unfold join. destruct xs as [|y xs]; [done|].
  change (String.concat sep (x :: y :: xs)) with (x +:+ sep +:+ String.concat sep (y :: xs)).
  by apply append_nonempty.
Qed.

Lemma rank_and_pack_context_empty evidence :
  rank_and_pack_context evidence = EmptyString ↔ evidence = [].
Proof.
  split; [|by intros ->].
  destruct evidence as [|item items]; [done|]. intros Hc. exfalso. revert Hc.
  unfold rank_and_pack_context. cbv zeta. rewrite imap_cons.
  apply join_nonempty.
  destruct (error item) as [e|]; [destruct (String.eqb e EmptyString)|];
    by apply join_nonempty.
Qed.

End PromptFacts.

(** X25: the context of a result is empty exactly when the result has no
    evidence record; so the prompt the pipeline builds of a retrieval
    that did not fail shows the packed evidence when there is a record,
    and the line NO RELEVANT EVIDENCE exactly when [process] returned no
    record; the question always follows. *)
Theorem prompt_reports_missing_evidence (H : Host) (self : SelfQueryLLM)
    (model_id user_query : string) (e : env H) :
  let r := (process H self model_id user_query e).1.1 in
  (context r = EmptyString ↔ evidence r = [])
  ∧ Pipeline._build_prompt_with_retrieval (Some r) None user_query
    = ("Use ontology-grounded SPARQL evidence to answer the user." +:+ nl
       +:+ ("If evidence is weak, state uncertainty explicitly." +:+ nl +:+ nl)
       +:+ ("SPARQL EVIDENCE:" +:+ nl)
       +:+ (if evidence r is [] then "NO RELEVANT EVIDENCE" +:+ nl
            else rank_and_pack_context (evidence r))
       +:+ (nl +:+ nl)
       +:+ ("USER QUESTION:" +:+ nl +:+ user_query +:+ nl +:+ nl)
       +:+ ("Please include a short 'Evidence Used' section with query references." +:+ nl),
       evidence r, context r).
Proof.
  intros r.
  assert (context r = rank_and_pack_context (evidence r)) as Hc.
  { subst r. unfold process. destruct (now H e) as [start e1].
    destruct (_load_schema_context H self e1) as [[[sm ttl] self1] e2].
    by destruct (process_loop H self1 model_id user_query sm ttl start _ _ e2) as [v e3]. }
  split; [rewrite Hc; apply PromptFacts.rank_and_pack_context_empty|].
  unfold Pipeline._build_prompt_with_retrieval. cbv zeta. rewrite Hc.
  destruct (evidence r) as [|item items] eqn:Ev; [reflexivity|].
  destruct (String.eqb (rank_and_pack_context (item :: items)) EmptyString) eqn:Ee.
  - apply String.eqb_eq, PromptFacts.rank_and_pack_context_empty in Ee. done.
  - cbn [negb]. rewrite !PromptFacts.append_assoc. reflexivity.
Qed.

Module ModeFacts.
Import Py RuleFacts CharFacts StripFacts CaseFacts.

Lemma trimmed_lower l : trimmed l → trimmed (lower_char <$> l).
Proof.
  intros [Hh Hl]. split.
  - destruct l as [|c l]; [done|]. simpl in *. by rewrite isspace_lower_char.
  - rewrite fmap_last. destruct (last l) as [c|]; [|done]. simpl in *.
    by rewrite isspace_lower_char.
Qed.

Lemma strip_lower_strip s : strip (lower (strip s)) = lower (strip s).
Proof.
  unfold strip at 1. rewrite chars_lower. unfold strip. rewrite chars_text.
  rewrite strip_chars_fixed; [|apply trimmed_lower, strip_chars_trimmed].
  unfold lower. by rewrite chars_text.
Qed.

End ModeFacts.

(** X26: [_resolve_progress_mode] never switches both outputs off:
    events alone unless the valve reads [text] or [both], in any case of
    the letters and with any whitespace around it; a valve it does not
    know means events alone. *)
Theorem progress_is_never_silenced (progress_output_mode : string) :
  (Pipeline._resolve_progress_mode progress_output_mode).1
  || (Pipeline._resolve_progress_mode progress_output_mode).2 = true
  ∧ Pipeline._resolve_progress_mode progress_output_mode
    = (if String.eqb (lower (strip progress_output_mode)) "text" then (false, true)
       else if String.eqb (lower (strip progress_output_mode)) "both" then (true, true)
       else (true, false))
  ∧ Pipeline._resolve_progress_mode (lower (strip progress_output_mode))
    = Pipeline._resolve_progress_mode progress_output_mode.
Proof.
  assert (Pipeline._resolve_progress_mode progress_output_mode
          = (if String.eqb (lower (strip progress_output_mode)) "text" then (false, true)
             else if String.eqb (lower (strip progress_output_mode)) "both" then (true, true)
             else (true, false))) as Hcases.
  { unfold Pipeline._resolve_progress_mode. cbv zeta.
    generalize (lower (strip progress_output_mode)). intros m.
    destruct (String.eqb m "text") eqn:E1; [apply String.eqb_eq in E1 as ->; done|].
    destruct (String.eqb m "both") eqn:E2; [apply String.eqb_eq in E2 as ->; done|].
    apply String.eqb_neq in E1, E2.
    destruct (decide (m = "events")) as [->|E3]; [done|].
    rewrite (bool_decide_eq_false_2 (m ∈ _)); [done|].
    rewrite !elem_of_union, !elem_of_singleton. tauto. }
  split; [|split; [done|]].
  - rewrite Hcases. by repeat destruct (String.eqb _ _).
  - unfold Pipeline._resolve_progress_mode.
    by rewrite ModeFacts.strip_lower_strip, CaseFacts.lower_lower.
Qed.

Module MessageFacts.
Import Utils.

Lemma assoc_setitem k v kv : Dyn.assoc k (Dyn.setitem k v kv) = Some v.
Proof.
  induction kv as [|[k' v'] kv IH]; simpl; [by rewrite String.eqb_refl|].
  destruct (String.eqb k k') eqn:E; simpl; [by rewrite String.eqb_refl|].
  by rewrite E.
Qed.

Lemma assoc_setitem_other k k' v kv :
  k' ≠ k → Dyn.assoc k' (Dyn.setitem k v kv) = Dyn.assoc k' kv.
Proof.
  intros Hk. induction kv as [|[k0 v0] kv IH]; simpl.
  - by rewrite (proj2 (String.eqb_neq k' k)).
  - destruct (String.eqb k k0) eqn:E; simpl.
    + apply String.eqb_eq in E as <-. by rewrite (proj2 (String.eqb_neq k' k)).
    + by rewrite IH.
Qed.

Lemma set_first_text_reads items msg : ∀ items',
  set_first_text items msg = Some (Some items') →
  first_text items' = Some (Some (PStr msg)).
Proof.
  induction items as [|item items IH]; intros items'; simpl; [done|].
  destruct (subscript item "type") as [type|] eqn:Et; [|done].
  destruct (is_str type "text") eqn:Es.
  - destruct item as [| | | | | |kv]; try done. intros [= <-]. simpl in *.
    rewrite assoc_setitem_other by done. rewrite Et, Es.
    by rewrite assoc_setitem.
  - destruct (set_first_text items msg) as [[items''|]|]; try done.
    intros [= <-]. simpl. rewrite Et, Es. by apply IH.
Qed.

Lemma set_last_message_loop_reads role msg reversed : ∀ out,
  set_last_message_loop role reversed msg = Some out →
  length out = length reversed
  ∧ (Exists (speaks role) reversed
     ∧ get_last_message_loop role out = Some (PStr msg)
     ∨ ¬ Exists (speaks role) reversed
       ∧ out = reversed ∧ get_last_message_loop role out = Some PNone).
Proof.
  induction reversed as [|message reversed IH]; intros out; simpl.
  - intros [= <-]. split; [done|]. right. split; [|done]. by intros ?%Exists_nil.
  - destruct (Dyn.assoc "role" message) as [r|] eqn:Er; [|done].
    destruct (is_str r role) eqn:Es.
    + assert (Exists (speaks role) (message :: reversed)) as Hex
        by (left; by exists r).
      assert (∀ content,
                get_last_message_loop role
                  (Dyn.setitem "content" content message :: reversed)
                = match content with
                  | PList items =>
                      match first_text items with
                      | None => None
                      | Some (Some t) => Some t
                      | Some None => Some (PList items)
                      end
                  | _ => Some content
                  end) as Hget.
      { intros content. simpl.
        rewrite assoc_setitem_other by done. rewrite Er, Es, assoc_setitem. done. }
      destruct (Dyn.assoc "content" message) as [content|] eqn:Ec; [|done].
      assert (∀ done', Some (Dyn.setitem "content" (PStr msg) message :: reversed) = Some done' →
                length done' = S (length reversed)
                ∧ (Exists (speaks role) (message :: reversed)
                   ∧ get_last_message_loop role done' = Some (PStr msg)
                   ∨ ¬ Exists (speaks role) (message :: reversed)
                     ∧ done' = message :: reversed
                     ∧ get_last_message_loop role done' = Some PNone)) as Hstr.
      { intros done' [= <-]. split; [done|]. left. split; [done|]. by rewrite Hget. }
      destruct content as [| | | | |items|]; try apply Hstr.
      destruct (set_first_text items msg) as [[items'|]|] eqn:Et; [| apply Hstr | done].
      intros [= <-]. split; [done|]. left. split; [done|].
      by rewrite Hget, (set_first_text_reads items msg items' Et).
    + destruct (set_last_message_loop role reversed msg) as [done'|]; [|done].
      intros [= <-]. destruct (IH done' eq_refl) as [Hlen Hcases].
      split; [simpl; by f_equal|].
      destruct Hcases as [[Hex Hget]|(Hno & -> & Hget)].
      * left. split; [by right|]. simpl. by rewrite Er, Es.
      * right. split; [|split; [done|]].
        -- intros [(r' & Er' & Es')|Hex]%Exists_cons; [|done].
           rewrite Er in Er'. injection Er' as <-. congruence.
        -- simpl. by rewrite Er, Es.
Qed.

End MessageFacts.

(** X27: when [set_last_message] returns, it has changed no more than
    one message: [get_last_message] for the same role then reads the new
    text back, from the first text item of a content list or from the
    content itself; and when no message has the role, nothing has
    changed and [get_last_message] returns [None]. *)
Theorem last_message_reads_back (role : string) (messages messages' : list Utils.message)
    (msg : string) :
  Utils.set_last_message role messages msg = Some messages' →
  length messages' = length messages
  ∧ (Utils.has_role role messages
     ∧ Utils.get_last_message role messages' = Some (PStr msg)
     ∨ ¬ Utils.has_role role messages
       ∧ messages' = messages
       ∧ Utils.get_last_message role messages' = Some PNone).
Proof.
  unfold Utils.set_last_message, Utils.get_last_message, Utils.has_role.
  destruct (Utils.set_last_message_loop role (reverse messages) msg) as [out|] eqn:E; [|done].
  intros [= <-]. rewrite reverse_involutive.
  destruct (MessageFacts.set_last_message_loop_reads role msg _ _ E) as [Hlen Hcases].
  rewrite length_reverse in *. split; [done|].
  assert (Exists (Utils.speaks role) (reverse messages)
          ↔ Exists (Utils.speaks role) messages) as Hrev
    by (rewrite !Exists_exists; by setoid_rewrite elem_of_reverse).
  destruct Hcases as [[Hex Hget]|(Hno & -> & Hget)].
  - left. split; [by apply Hrev | done].
  - right. split; [by rewrite <- Hrev|]. by rewrite reverse_involutive.
Qed.

Lemma last_message_reads_back_witness :
  Utils.set_last_message "user"
    [[("role", PStr "system"); ("content", PStr "You answer questions about the plant.")];
     [("role", PStr "user");
      ("content",
       PList [PDict [("type", PStr "image_url"); ("image_url", PStr "http://example.org/p.png")];
              PDict [("type", PStr "text"); ("text", PStr "which pumps feed the mixer")]])];
     [("role", PStr "assistant"); ("content", PStr "Let me look.")]]
    "SPARQL EVIDENCE: none"
  = Some
      [[("role", PStr "system"); ("content", PStr "You answer questions about the plant.")];
       [("role", PStr "user");
        ("content",
         PList [PDict [("type", PStr "image_url"); ("image_url", PStr "http://example.org/p.png")];
                PDict [("type", PStr "text"); ("text", PStr "SPARQL EVIDENCE: none")]])];
       [("role", PStr "assistant"); ("content", PStr "Let me look.")]]
  ∧ length
      [[("role", PStr "system"); ("content", PStr "You answer questions about the plant.")];
       [("role", PStr "user");
        ("content",
         PList [PDict [("type", PStr "image_url"); ("image_url", PStr "http://example.org/p.png")];
                PDict [("type", PStr "text"); ("text", PStr "SPARQL EVIDENCE: none")]])];
       [("role", PStr "assistant"); ("content", PStr "Let me look.")]]
    = length
        [[("role", PStr "system"); ("content", PStr "You answer questions about the plant.")];
         [("role", PStr "user");
          ("content",
           PList [PDict [("type", PStr "image_url"); ("image_url", PStr "http://example.org/p.png")];
                  PDict [("type", PStr "text"); ("text", PStr "which pumps feed the mixer")]])];
         [("role", PStr "assistant"); ("content", PStr "Let me look.")]].
Proof.
  assert (Utils.set_last_message "user"
    [[("role", PStr "system"); ("content", PStr "You answer questions about the plant.")];
     [("role", PStr "user");
      ("content",
       PList [PDict [("type", PStr "image_url"); ("image_url", PStr "http://example.org/p.png")];
              PDict [("type", PStr "text"); ("text", PStr "which pumps feed the mixer")]])];
     [("role", PStr "assistant"); ("content", PStr "Let me look.")]]
    "SPARQL EVIDENCE: none"
  = Some
      [[("role", PStr "system"); ("content", PStr "You answer questions about the plant.")];
       [("role", PStr "user");
        ("content",
         PList [PDict [("type", PStr "image_url"); ("image_url", PStr "http://example.org/p.png")];
                PDict [("type", PStr "text"); ("text", PStr "SPARQL EVIDENCE: none")]])];
       [("role", PStr "assistant"); ("content", PStr "Let me look.")]]) as Hset
    by reflexivity.
  split; [exact Hset|].
  exact (proj1 (last_message_reads_back "user" _ _ "SPARQL EVIDENCE: none" Hset)).
Defined.

(** ** The candidates a [process] call runs *)

Section Executed.
Variable H : Host.

Lemma now_requests e : requests H (now H e).2 = requests H e.
Proof. unfold now. by destruct (monotonic H (world H e)). Qed.

Lemma _global_budget_reached_requests self start it e :
  requests H (_global_budget_reached H self start it e).2 = requests H e.
Proof.
  unfold _global_budget_reached. pose proof (now_requests e) as Hn.
  destruct (now H e) as [t e1]. by destruct (Qlt_le_dec _ _).
Qed.

Lemma _plan_iteration_candidates_requests self m uq sm ttl ev seen it e :
  requests H (_plan_iteration_candidates H self m uq sm ttl ev seen it e).2 = requests H e.
Proof.
  unfold _plan_iteration_candidates, generate_sparql_candidates.
  match goal with |- context [call_planner H self m ?p e] =>
    pose proof (call_planner_requests H self m p e) as Hc;
    destruct (call_planner H self m p e) as [outcome e1] end.
  destruct (merge_new _ seen []) as [merged1 seen1].
  by destruct (merge_new _ seen1 merged1) as [merged seen2].
Qed.

(** The loop runs the candidates it adds, one after the other, each of
    them once. *)
Lemma process_loop_runs self m uq sm ttl start its : ∀ v e,
  ∃ added ns,
    all_candidates (process_loop H self m uq sm ttl start its v e).1
    = all_candidates v ++ added
    ∧ length ns = length added
    ∧ requests H (process_loop H self m uq sm ttl start its v e).2
      = requests H e ++ concat (zip_with (candidate_requests self) added ns).
Proof.
  induction its as [|it its IH]; intros v e.
  { exists [], []. simpl. by rewrite !app_nil_r. }
  cbn [process_loop].
  pose proof (_global_budget_reached_requests self start it e) as Hb.
  destruct (_global_budget_reached H self start it e) as [[] e1]; simpl in Hb.
  { exists [], []. simpl. by rewrite !app_nil_r. }
  pose proof (_plan_iteration_candidates_requests self m uq sm ttl (all_evidence v)
                (seen_queries v) it e1) as Hp.
  destruct (_plan_iteration_candidates H self m uq sm ttl _ _ it e1)
    as [[[[merged pc] lc] seen] e2]. simpl in Hp.
  destruct merged as [|c merged'].
  { exists [], []. simpl. rewrite !app_nil_r. split; [done|]. split; [done|]. congruence. }
  unfold _execute_iteration_candidates.
  destruct (execute_sparql_batch_runs H self (c :: merged') uq e2) as (ns1 & L1 & E1).
  destruct (execute_sparql_batch H self (c :: merged') uq e2) as [found e3]. simpl in E1.
  destruct (_evaluate_early_stop self _ (best_score v) it) as [[] best].
  { exists (c :: merged'), ns1. simpl. split; [done|]. split; [done|].
    rewrite E1. congruence. }
  match goal with |- context [process_loop H self m uq sm ttl start its ?v' e3] =>
    destruct (IH v' e3) as (added & ns & Ea & L & E) end.
  exists ((c :: merged') ++ added), (ns1 ++ ns). simpl in Ea.
  split; [by rewrite Ea, <- app_assoc|]. split; [by rewrite !length_app, L1, L|].
  rewrite E, E1, Hp, Hb, zip_with_app, concat_app, <- !app_assoc by done. done.
Qed.

(** The requests of a [process] call: those of the schema loader, then
    one run for each query it reports. *)
Lemma process_runs self m uq e :
  ∃ n1 n2 n3 ns,
    requests H (process H self m uq e).2
    = requests H e ++ schema_requests self n1 n2 n3
      ++ concat (zip_with (candidate_requests self) (queries (process H self m uq e).1.1) ns)
    ∧ length ns = length (queries (process H self m uq e).1.1).
Proof.
  unfold process.
  pose proof (now_requests e) as Hn. destruct (now H e) as [start e1]. simpl in Hn.
  destruct (_load_schema_context_runs H self e1) as (n1 & n2 & n3 & Es & _).
  destruct (_load_schema_context_self H self e1) as (mc & tc & Hself).
  destruct (_load_schema_context H self e1) as [[[sm ttl] self1] e2]. simpl in Es, Hself.
  destruct (process_loop_runs self1 m uq sm ttl start (seqZ 1 (max_iterations self1))
              {| all_candidates := []; all_evidence := []; seen_queries := ∅;
                 best_score := 0; loop_stop_reason := "max_iterations";
                 loop_iterations_used := 0 |} e2) as (added & ns & Ea & L & E).
  destruct (process_loop H self1 m uq sm ttl start _ _ e2) as [v e3].
  simpl in *. subst added. exists n1, n2, n3, ns. split; [|done].
  rewrite E, Es, Hn, <- app_assoc.
  assert (candidate_requests self1 = candidate_requests self) as -> by (by subst self1).
  done.
Qed.

End Executed.

(** C3: one [process] call runs each query it reports once, in the order
    of the report, and runs no other candidate: after the requests of
    the schema loader, its requests are one run over the endpoint
    candidates for each reported query. No two of these queries are
    equal under normalization, and the normal form of a query is its
    words in lower case with one space between them, so that two queries
    have the same normal form exactly when their words are the same up
    to the case of the letters. A candidate enters a round only if its
    normal form was not in the seen-set, and every evidence record
    returned belongs to one of the queries. *)
Theorem executed_candidates_are_distinct (H : Host) (self : SelfQueryLLM)
    (model_id user_query : string) (e : env H) :
  let r := (process H self model_id user_query e).1.1 in
  (∃ n1 n2 n3 ns,
     requests H (process H self model_id user_query e).2
     = requests H e ++ schema_requests self n1 n2 n3
       ++ concat (zip_with (candidate_requests self) (queries r) ns)
     ∧ length ns = length (queries r))
  ∧ NoDup (_normalize_query <$> queries r)
  ∧ (∀ q, _normalize_query q = join " " (lower <$> split q))
  ∧ (∀ q1 q2, _normalize_query q1 = _normalize_query q2 ↔ lower <$> split q1 = lower <$> split q2)
  ∧ (∀ cands seen merged q,
       q ∈ (merge_new cands seen merged).1 →
       q ∈ merged ∨ (q ∈ cands ∧ _normalize_query q ∉ seen))
  ∧ Forall (λ item, query item ∈ queries r) (evidence r).
Proof.
  intros r. subst r.
  split; [apply process_runs|].
  destruct (process_result H self model_id user_query e) as (v & Hinv & Eq & Ee).
  destruct Hinv as (_ & Hnd & _ & Hq).
  split; [by rewrite Eq|]. split; [apply NormalFacts._normalize_query_join|].
  split.
  { intros q1 q2. split.
    - intros E. by rewrite <- !NormalFacts.split_normalize, E.
    - intros E. by rewrite !NormalFacts._normalize_query_join, E. }
  split; [apply merge_new_skips|].
  apply Forall_forall. intros item. rewrite Ee, Eq, <- Hq.
  intros Hin%slice_to_elem. apply (proj1 (sorted_by_score_elem _ _)) in Hin.
  by apply list_elem_of_fmap_2.
Qed.
